(** * lab0-c: the queue operations of queue.c and the kernel's list_sort.c

    A shallow embedding of the intrusive circular doubly-linked list, the
    queue operations built on it, and the two merge sorts, over an explicit
    heap of nodes.  Pointers are addresses, [NULL] is address 0, a read or a
    write through a pointer that is not allocated is undefined behaviour and
    makes the operation return [None].  Every C loop is a [Fixpoint] on a
    fuel argument; running out of fuel returns [None] as well. *)

From Stdlib Require Import ZArith List String Ascii Lia.
From Stdlib Require Import Sorting.Sorted Sorting.Permutation.
From stdpp Require Import base option list gmap strings.

Local Open Scope Z_scope.

#[local] Set Warnings "-clear-no-such-hyp".

(** ** Memory *)

Definition ptr := nat.
Definition NULL : ptr := 0%nat.

(** [struct list_head { struct list_head *prev, *next; }] embedded in an
    [element_t { char *value; struct list_head list; }].  A node is addressed
    by the address of its [list] member; [value] is [None] for a bare
    [list_head] (the sentinel), which has no enclosing element. *)
Record node := Node { next : ptr; prev : ptr; value : option string }.

Abbreviation mem := (gmap ptr node).

Definition load (m : mem) (p : ptr) : option node :=
  if decide (p = NULL) then None else m !! p.

Definition store (m : mem) (p : ptr) (n : node) : option mem :=
  match load m p with
  | Some _ => Some (<[p := n]> m)
  | None => None
  end.

Definition load_next (m : mem) (p : ptr) : option ptr := next <$> load m p.
Definition load_prev (m : mem) (p : ptr) : option ptr := prev <$> load m p.

(** [container_of(p, element_t, list)->value] *)
Definition load_value (m : mem) (p : ptr) : option string :=
  n ← load m p; value n.

Definition store_next (m : mem) (p : ptr) (v : ptr) : option mem :=
  n ← load m p; store m p (Node v (prev n) (value n)).

Definition store_prev (m : mem) (p : ptr) (v : ptr) : option mem :=
  n ← load m p; store m p (Node (next n) v (value n)).

(** [free] of an allocated block. *)
Definition free (m : mem) (p : ptr) : option mem :=
  match load m p with
  | Some _ => Some (delete p m)
  | None => None
  end.

(** ** strcmp

    Bytes are compared as [unsigned char]; both strings end at their first
    NUL byte or at the end of the Rocq string, whichever comes first. *)

Definition uchar (c : ascii) : Z := Z.of_N (N_of_ascii c).

Fixpoint strcmp (s1 s2 : string) : Z :=
  match s1, s2 with
  | EmptyString, EmptyString => 0
  | EmptyString, String c2 _ => 0 - uchar c2
  | String c1 _, EmptyString => uchar c1 - 0
  | String c1 r1, String c2 r2 =>
      if uchar c1 =? uchar c2
      then (if uchar c1 =? 0 then 0 else strcmp r1 r2)
      else uchar c1 - uchar c2
  end.

(** ** list.h

    The header is not part of the sources at hand; its primitives are the
    usual ones of the Linux-style list API. *)

(** Modelled from the spec: list.h is missing; "an empty ring is
    [sentinel.next == sentinel.prev == sentinel]". *)
Definition INIT_LIST_HEAD (m : mem) (head : ptr) : option mem :=
  m1 ← store_next m head head;
  store_prev m1 head head.

(** Modelled from the spec: list.h is missing; [isEmpty(ring) -> bool],
    true when the sentinel's [next] is the sentinel itself. *)
Definition list_empty (m : mem) (head : ptr) : option bool :=
  n ← load_next m head;
  Some (bool_decide (n = head)).

(** Modelled from the spec: list.h is missing; [insertAfter(ring, anchor,
    node)] updates four pointers and preserves the ring invariant. *)
Definition list_add (m : mem) (nd head : ptr) : option mem :=
  nx ← load_next m head;
  m1 ← store_prev m nx nd;
  m2 ← store_next m1 nd nx;
  m3 ← store_prev m2 nd head;
  store_next m3 head nd.

(** Modelled from the spec: list.h is missing; [insertBefore], the mirror
    image of [list_add]: the node goes in front of the sentinel, that is at
    the tail. *)
Definition list_add_tail (m : mem) (nd head : ptr) : option mem :=
  pv ← load_prev m head;
  m1 ← store_next m pv nd;
  m2 ← store_next m1 nd head;
  m3 ← store_prev m2 nd pv;
  store_prev m3 head nd.

(** Modelled from the spec: list.h is missing; [remove(node)] splices the
    node out and relinks its neighbours; the node's own links are left as
    they were. *)
Definition list_del (m : mem) (nd : ptr) : option mem :=
  nx ← load_next m nd;
  pv ← load_prev m nd;
  m1 ← store_prev m nx pv;
  store_next m1 pv nx.

(** Modelled from the spec: list.h is missing; remove, then make the node
    an empty ring of its own. *)
Definition list_del_init (m : mem) (nd : ptr) : option mem :=
  m1 ← list_del m nd;
  INIT_LIST_HEAD m1 nd.

(** Modelled from the spec: list.h is missing; [moveAfter(node, anchor)] is
    remove-then-insert. *)
Definition list_move (m : mem) (nd head : ptr) : option mem :=
  m1 ← list_del m nd;
  list_add m1 nd head.

(** Modelled from the spec: queue.h is missing; the release collaborator
    frees the payload string and the element. *)
Definition q_release_element (m : mem) (e : ptr) : option mem :=
  _ ← load_value m e;
  free m e.

(** ** queue.c *)

(** [malloc(sizeof(struct list_head))] when it succeeds: a new block, at an
    address that was not in use, whose links are not yet meaningful. *)
Definition new_list_head (m : mem) (p : ptr) : option mem :=
  if decide (p = NULL) then None
  else match m !! p with
       | Some _ => None
       | None => Some (<[p := Node NULL NULL None]> m)
       end.

(** [p] is what [malloc] returns: [NULL] on failure, otherwise an address
    that is not in use. *)
Definition q_new (m : mem) (p : ptr) : option (mem * ptr) :=
  if decide (p = NULL) then Some (m, NULL)
  else
    m1 ← new_list_head m p;
    m2 ← INIT_LIST_HEAD m1 p;
    Some (m2, p).

(** The loop of [q_free]: [list_for_each_entry_safe] reads the successor
    [safe] of the current entry before the body releases the entry. *)
Fixpoint q_free_loop (fuel : nat) (m : mem) (l pos safe : ptr)
    : option mem :=
  if decide (pos = l) then Some m
  else match fuel with
       | O => None
       | S f =>
           m1 ← q_release_element m pos;
           sn ← load_next m1 safe;
           q_free_loop f m1 l safe sn
       end.

Definition q_free (fuel : nat) (m : mem) (l : ptr) : option mem :=
  if decide (l = NULL) then Some m
  else
    pos ← load_next m l;
    safe ← load_next m pos;
    m1 ← q_free_loop fuel m l pos safe;
    free m1 l.

(** The two outcomes of the allocator that [q_insert_head] and
    [q_insert_tail] depend on: the block [malloc] returns ([NULL] on
    failure, otherwise an address that is not in use) and whether [strdup]
    succeeds. *)
Record alloc_outcome := AllocOutcome { malloc_result : ptr; strdup_ok : bool }.

(** [malloc(sizeof(element_t))] followed by [newh->value = strdup(s)] when
    both succeed: a new block whose links are not yet meaningful. *)
Definition new_element (m : mem) (p : ptr) (s : string) : option mem :=
  if decide (p = NULL) then None
  else match m !! p with
       | Some _ => None
       | None => Some (<[p := Node NULL NULL (Some s)]> m)
       end.

Definition q_insert_head (m : mem) (head : ptr) (s : string)
    (al : alloc_outcome) : option (mem * bool) :=
  if decide (head = NULL) then Some (m, false)
  else if decide (malloc_result al = NULL) then Some (m, false)
  else if negb (strdup_ok al) then Some (m, false)
  else
    m1 ← new_element m (malloc_result al) s;
    m2 ← list_add m1 (malloc_result al) head;
    Some (m2, true).

Definition q_insert_tail (m : mem) (head : ptr) (s : string)
    (al : alloc_outcome) : option (mem * bool) :=
  if decide (head = NULL) then Some (m, false)
  else if decide (malloc_result al = NULL) then Some (m, false)
  else if negb (strdup_ok al) then Some (m, false)
  else
    m1 ← new_element m (malloc_result al) s;
    m2 ← list_add_tail m1 (malloc_result al) head;
    Some (m2, true).

(** Caller-side character buffers.  [None] is the NULL pointer, [Some b] a
    buffer of capacity [length b]. *)
Definition buffer := option (list ascii).

Definition NUL : ascii := zero.

(** The bytes of a C string: everything before the first NUL. *)
Fixpoint cstring (s : string) : list ascii :=
  match s with
  | EmptyString => []
  | String c r => if uchar c =? 0 then [] else c :: cstring r
  end.

(** [size_t] arithmetic. *)
Definition SIZE_MOD : Z := 2 ^ 64.
Definition size_sub (a b : Z) : Z := (a - b) mod SIZE_MOD.
Definition size_add (a b : Z) : Z := (a + b) mod SIZE_MOD.

(** [strncpy(dest, src, n)] writes exactly [n] bytes: the bytes of [src],
    cut after [n] of them, and NUL bytes for what is left. *)
Definition strncpy (dest : list ascii) (src : string) (n : Z)
    : option (list ascii) :=
  if Z.of_nat (length dest) <? n then None
  else
    let k := Z.to_nat n in
    Some (take k (cstring src ++ replicate k NUL) ++ drop k dest).

(** [sp[i] = c] *)
Definition buf_set (b : list ascii) (i : Z) (c : ascii)
    : option (list ascii) :=
  if (0 <=? i) && (i <? Z.of_nat (length b))
  then Some (<[Z.to_nat i := c]> b)
  else None.

Definition copy_out (sp : buffer) (v : string) (bufsize : Z)
    : option buffer :=
  match sp with
  | None => Some None
  | Some b =>
      b1 ← strncpy b v (size_sub bufsize 1);
      b2 ← buf_set b1 (size_sub bufsize 1) NUL;
      Some (Some b2)
  end.

Definition q_remove_head (m : mem) (head : ptr) (sp : buffer) (bufsize : Z)
    : option (mem * buffer * ptr) :=
  if decide (head = NULL) then Some (m, sp, NULL)
  else
    e ← list_empty m head;
    if e : bool then Some (m, sp, NULL)
    else
      ele ← load_next m head;
      sp1 ← match sp with
             | None => Some None
             | Some _ => v ← load_value m ele; copy_out sp v bufsize
             end;
      m1 ← list_del m ele;
      Some (m1, sp1, ele).

Definition q_remove_tail (m : mem) (head : ptr) (sp : buffer) (bufsize : Z)
    : option (mem * buffer * ptr) :=
  if decide (head = NULL) then Some (m, sp, NULL)
  else
    e ← list_empty m head;
    if e : bool then Some (m, sp, NULL)
    else
      ele ← load_prev m head;
      sp1 ← match sp with
             | None => Some None
             | Some _ => v ← load_value m ele; copy_out sp v bufsize
             end;
      m1 ← list_del m ele;
      Some (m1, sp1, ele).

(** [int] arithmetic, two's complement. *)
Definition int_wrap (z : Z) : Z := (z + 2 ^ 31) mod 2 ^ 32 - 2 ^ 31.

Fixpoint q_size_loop (fuel : nat) (m : mem) (head li : ptr) (len : Z)
    : option Z :=
  if decide (li = head) then Some len
  else match fuel with
       | O => None
       | S f =>
           nx ← load_next m li;
           q_size_loop f m head nx (int_wrap (len + 1))
       end.

Definition q_size (fuel : nat) (m : mem) (head : ptr) : option Z :=
  if decide (head = NULL) then Some 0
  else
    li ← load_next m head;
    q_size_loop fuel m head li 0.

Fixpoint delete_mid_loop (fuel : nat) (m : mem) (head slow fast : ptr)
    : option ptr :=
  if decide (fast = head) then Some slow
  else
    fn ← load_next m fast;
    if decide (fn = head) then Some slow
    else match fuel with
         | O => None
         | S f =>
             slow' ← load_next m slow;
             fnn ← load_next m fn;
             delete_mid_loop f m head slow' fnn
         end.

Definition q_delete_mid (fuel : nat) (m : mem) (head : ptr)
    : option (mem * bool) :=
  if decide (head = NULL) then Some (m, false)
  else
    e ← list_empty m head;
    if e : bool then Some (m, false)
    else
      first ← load_next m head;
      to_delete ← delete_mid_loop fuel m head first first;
      m1 ← list_del_init m to_delete;
      m2 ← q_release_element m1 to_delete;
      Some (m2, true).

(** The loop of [q_delete_dup]: [list_for_each_entry_safe] keeps the
    successor [safe] of the current entry, read before the body runs. *)
Fixpoint delete_dup_loop (fuel : nat) (m : mem) (head curr safe : ptr)
    (is_dup : bool) : option mem :=
  if decide (curr = head) then Some m
  else match fuel with
       | O => None
       | S f =>
           cn ← load_next m curr;
           same ← (if decide (cn = head) then Some false
                   else vc ← load_value m curr;
                        vn ← load_value m safe;
                        Some (strcmp vc vn =? 0));
           '(m1, dup1) ←
             (if same : bool then
                m' ← list_del m curr;
                m'' ← q_release_element m' curr;
                Some (m'', true)
              else if is_dup then
                m' ← list_del m curr;
                m'' ← q_release_element m' curr;
                Some (m'', false)
              else Some (m, is_dup));
           sn ← load_next m1 safe;
           delete_dup_loop f m1 head safe sn dup1
       end.

Definition q_delete_dup (fuel : nat) (m : mem) (head : ptr)
    : option (mem * bool) :=
  if decide (head = NULL) then Some (m, false)
  else
    e ← list_empty m head;
    if e : bool then Some (m, false)
    else
      curr ← load_next m head;
      safe ← load_next m curr;
      m1 ← delete_dup_loop fuel m head curr safe false;
      Some (m1, true).

Fixpoint q_swap_loop (fuel : nat) (m : mem) (head first : ptr)
    : option mem :=
  if decide (first = head) then Some m
  else
    second ← load_next m first;
    if decide (second = head) then Some m
    else match fuel with
         | O => None
         | S f =>
             m1 ← list_move m first second;
             first' ← load_next m1 first;
             q_swap_loop f m1 head first'
         end.

Definition q_swap (fuel : nat) (m : mem) (head : ptr) : option mem :=
  if decide (head = NULL) then Some m
  else
    e ← list_empty m head;
    if e : bool then Some m
    else
      first ← load_next m head;
      q_swap_loop fuel m head first.

Fixpoint q_reverse_loop (fuel : nat) (m : mem) (head pre curr nex : ptr)
    : option mem :=
  if decide (nex = head) then Some m
  else match fuel with
       | O => None
       | S f =>
           nex' ← load_next m curr;
           m1 ← store_next m curr pre;
           m2 ← store_prev m1 curr nex';
           q_reverse_loop f m2 head curr nex' nex'
       end.

Definition q_reverse (fuel : nat) (m : mem) (head : ptr) : option mem :=
  if decide (head = NULL) then Some m
  else
    e ← list_empty m head;
    if e : bool then Some m
    else
      pre ← load_prev m head;
      q_reverse_loop fuel m head pre head NULL.

(** *** q_sort: top-down merge sort on the detached chain *)

(** [mergeTwo] builds its result behind a dummy [struct list_head head] on
    the stack; [curr] points either at that dummy or at a node of the heap.
    The dummy's [next] field is [None] while it is uninitialised. *)
Inductive cursor := OnStack | InHeap (p : ptr).

Definition cur_set_next (m : mem) (hd : option ptr) (curr : cursor) (v : ptr)
    : option (mem * option ptr) :=
  match curr with
  | OnStack => Some (m, Some v)
  | InHeap p => m1 ← store_next m p v; Some (m1, hd)
  end.

Definition cur_get_next (m : mem) (hd : option ptr) (curr : cursor)
    : option ptr :=
  match curr with
  | OnStack => hd
  | InHeap p => load_next m p
  end.

Fixpoint mergeTwo_loop (fuel : nat) (m : mem) (hd : option ptr)
    (curr : cursor) (left right : ptr)
    : option (mem * option ptr * cursor * ptr * ptr) :=
  if decide (left = NULL ∨ right = NULL) then Some (m, hd, curr, left, right)
  else match fuel with
       | O => None
       | S f =>
           vl ← load_value m left;
           vr ← load_value m right;
           if strcmp vl vr <? 0 then
             '(m1, hd1) ← cur_set_next m hd curr left;
             left' ← load_next m1 left;
             curr' ← cur_get_next m1 hd1 curr;
             mergeTwo_loop f m1 hd1 (InHeap curr') left' right
           else
             '(m1, hd1) ← cur_set_next m hd curr right;
             right' ← load_next m1 right;
             curr' ← cur_get_next m1 hd1 curr;
             mergeTwo_loop f m1 hd1 (InHeap curr') left right'
       end.

(** What follows the loop of [mergeTwo]: the chain that is not exhausted is
    linked behind [curr]. *)
Definition mergeTwo_finish (m : mem) (hd : option ptr) (curr : cursor)
    (left right : ptr) : option (mem * option ptr) :=
  if decide (left ≠ NULL) then cur_set_next m hd curr left
  else if decide (right ≠ NULL) then cur_set_next m hd curr right
  else Some (m, hd).

Definition mergeTwo (fuel : nat) (m : mem) (left right : ptr)
    : option (mem * ptr) :=
  if decide (left = NULL ∧ right = NULL) then Some (m, NULL)
  else
    '(m1, hd1, curr, left1, right1) ←
      mergeTwo_loop fuel m None OnStack left right;
    '(m2, hd2) ← mergeTwo_finish m1 hd1 curr left1 right1;
    r ← hd2;
    Some (m2, r).

(** The slow/fast walk of [q_mergeSort]. *)
Fixpoint mergeSort_mid (fuel : nat) (m : mem) (slow fast : ptr)
    : option ptr :=
  if decide (fast = NULL) then Some slow
  else
    fn ← load_next m fast;
    if decide (fn = NULL) then Some slow
    else match fuel with
         | O => None
         | S f =>
             slow' ← load_next m slow;
             fnn ← load_next m fn;
             mergeSort_mid f m slow' fnn
         end.

Fixpoint q_mergeSort (fuel : nat) (m : mem) (head : ptr)
    : option (mem * ptr) :=
  match fuel with
  | O => None
  | S f =>
      hn ← load_next m head;
      if decide (hn = NULL) then Some (m, head)
      else
        slow ← mergeSort_mid f m head hn;
        mid ← load_next m slow;
        m1 ← store_next m slow NULL;
        '(m2, l_half) ← q_mergeSort f m1 head;
        '(m3, r_half) ← q_mergeSort f m2 mid;
        mergeTwo f m3 l_half r_half
  end.

(** The pass of [q_sort] that restores the [prev] links. *)
Fixpoint q_sort_relink (fuel : nat) (m : mem) (curr nex : ptr)
    : option (mem * ptr) :=
  if decide (nex = NULL) then Some (m, curr)
  else match fuel with
       | O => None
       | S f =>
           m1 ← store_prev m nex curr;
           nex' ← load_next m1 nex;
           q_sort_relink f m1 nex nex'
       end.

(** [descend] is a parameter of the C function; its body never reads it. *)
Definition q_sort (fuel : nat) (m : mem) (head : ptr) (descend : bool)
    : option mem :=
  if decide (head = NULL) then Some m
  else
    e ← list_empty m head;
    if e : bool then Some m
    else
      last ← load_prev m head;
      m1 ← store_next m last NULL;
      first ← load_next m1 head;
      '(m2, sorted) ← q_mergeSort fuel m1 first;
      m3 ← store_next m2 head sorted;
      nex ← load_next m3 head;
      '(m4, curr) ← q_sort_relink fuel m3 head nex;
      m5 ← store_next m4 curr head;
      store_prev m5 head curr.

(** *** q_ascend, q_descend *)

Fixpoint q_ascend_loop (fuel : nat) (m : mem) (head nd : ptr)
    : option mem :=
  pv ← load_prev m nd;
  if decide (pv = head) then Some m
  else match fuel with
       | O => None
       | S f =>
           vc ← load_value m nd;
           vp ← load_value m pv;
           if strcmp vc vp <? 0 then
             m1 ← list_del m pv;
             m2 ← q_release_element m1 pv;
             q_ascend_loop f m2 head nd
           else q_ascend_loop f m head pv
       end.

Definition q_ascend (fuel : nat) (m : mem) (head : ptr) : option (mem * Z) :=
  if decide (head = NULL) then Some (m, 0)
  else
    e ← list_empty m head;
    if e : bool then Some (m, 0)
    else
      nd ← load_prev m head;
      m1 ← q_ascend_loop fuel m head nd;
      Some (m1, 0).

Fixpoint q_descend_loop (fuel : nat) (m : mem) (head nd : ptr)
    : option mem :=
  pv ← load_prev m nd;
  if decide (pv = head) then Some m
  else match fuel with
       | O => None
       | S f =>
           vc ← load_value m nd;
           vp ← load_value m pv;
           if 0 <? strcmp vc vp then
             m1 ← list_del m pv;
             m2 ← q_release_element m1 pv;
             q_descend_loop f m2 head nd
           else q_descend_loop f m head pv
       end.

Definition q_descend (fuel : nat) (m : mem) (head : ptr)
    : option (mem * Z) :=
  if decide (head = NULL) then Some (m, 0)
  else
    e ← list_empty m head;
    if e : bool then Some (m, 0)
    else
      nd ← load_prev m head;
      m1 ← q_descend_loop fuel m head nd;
      Some (m1, 0).

(** *** The first copy of q_delete_mid and q_delete_dup *)

(** The file holds two copies of queue.c; the operations above are those of
    the second one.  In the first copy [q_delete_mid] walks with the loop
    [for (; fast && fast->next; fast = fast->next->next)], which stops at a
    null pointer only. *)
Module FirstCopy.

(** The loop; it returns [slow] and [fast]. *)
Fixpoint delete_mid_loop (fuel : nat) (m : mem) (slow fast : ptr)
    : option (ptr * ptr) :=
  if decide (fast = NULL) then Some (slow, fast)
  else
    fn ← load_next m fast;
    if decide (fn = NULL) then Some (slow, fast)
    else match fuel with
         | O => None
         | S f =>
             slow' ← load_next m slow;
             fnn ← load_next m fn;
             delete_mid_loop f m slow' fnn
         end.

Definition q_delete_mid (fuel : nat) (m : mem) (head : ptr)
    : option (mem * bool) :=
  if decide (head = NULL) then Some (m, false)
  else
    e ← list_empty m head;
    if e : bool then Some (m, false)
    else
      '(slow, fast) ← delete_mid_loop fuel m head head;
      to_delete ← (if decide (fast = head) then load_next m slow
                   else Some slow);
      m1 ← list_del_init m to_delete;
      m2 ← q_release_element m1 to_delete;
      Some (m2, true).

(** The first copy of [q_delete_dup] compares every entry with the next
    one, the last entry included, whose next one is the sentinel. *)
Fixpoint delete_dup_loop (fuel : nat) (m : mem) (head curr safe : ptr)
    (is_dup : bool) : option mem :=
  if decide (curr = head) then Some m
  else match fuel with
       | O => None
       | S f =>
           vc ← load_value m curr;
           vn ← load_value m safe;
           '(m1, dup1) ←
             (if strcmp vc vn =? 0 then
                m' ← list_del m curr;
                m'' ← q_release_element m' curr;
                Some (m'', true)
              else if is_dup then
                m' ← list_del m curr;
                m'' ← q_release_element m' curr;
                Some (m'', false)
              else Some (m, is_dup));
           sn ← load_next m1 safe;
           delete_dup_loop f m1 head safe sn dup1
       end.

Definition q_delete_dup (fuel : nat) (m : mem) (head : ptr)
    : option (mem * bool) :=
  if decide (head = NULL) then Some (m, false)
  else
    e ← list_empty m head;
    if e : bool then Some (m, false)
    else
      curr ← load_next m head;
      safe ← load_next m curr;
      m1 ← delete_dup_loop fuel m head curr safe false;
      Some (m1, true).

End FirstCopy.

(** ** list_sort.c *)

Module ListSort.

(** A [struct list_head **]: the address of a local pointer variable, of a
    node's [next] field, or of a node's [prev] field. *)
Inductive slot := Local | NextOf (p : ptr) | PrevOf (p : ptr).

(** [*tail], where [var] is the current content of the local variable. *)
Definition slot_read (m : mem) (var : option ptr) (s : slot) : option ptr :=
  match s with
  | Local => var
  | NextOf p => load_next m p
  | PrevOf p => load_prev m p
  end.

(** [*tail = v] *)
Definition slot_write (m : mem) (var : option ptr) (s : slot) (v : ptr)
    : option (mem * option ptr) :=
  match s with
  | Local => Some (m, Some v)
  | NextOf p => m1 ← store_next m p v; Some (m1, var)
  | PrevOf p => m1 ← store_prev m p v; Some (m1, var)
  end.

Section list_sort.

(** The comparison callback gets [priv] and two node pointers and returns an
    [int]; it is a pure function of them (it may look at the payload of the
    enclosing elements, which [list_sort] never writes). *)
Context {P : Type} (priv : P) (cmp : P → ptr → ptr → Z).

Fixpoint merge_loop (fuel : nat) (m : mem) (head : option ptr) (tail : slot)
    (a b : ptr) : option (mem * option ptr) :=
  match fuel with
  | O => None
  | S f =>
      if cmp priv a b <=? 0 then
        '(m1, head1) ← slot_write m head tail a;
        a' ← load_next m1 a;
        if decide (a' = NULL) then slot_write m1 head1 (NextOf a) b
        else merge_loop f m1 head1 (NextOf a) a' b
      else
        '(m1, head1) ← slot_write m head tail b;
        b' ← load_next m1 b;
        if decide (b' = NULL) then slot_write m1 head1 (NextOf b) a
        else merge_loop f m1 head1 (NextOf b) a b'
  end.

Definition merge (fuel : nat) (m : mem) (a b : ptr) : option (mem * ptr) :=
  '(m1, head) ← merge_loop fuel m None Local a b;
  h ← head;
  Some (m1, h).

(** First loop of [merge_final]; returns the memory, [tail] and the rest
    [b] that remains to be linked. *)
Fixpoint merge_final_loop (fuel : nat) (m : mem) (tail a b : ptr)
    : option (mem * ptr * ptr) :=
  match fuel with
  | O => None
  | S f =>
      if cmp priv a b <=? 0 then
        m1 ← store_next m tail a;
        m2 ← store_prev m1 a tail;
        a' ← load_next m2 a;
        if decide (a' = NULL) then Some (m2, a, b)
        else merge_final_loop f m2 a a' b
      else
        m1 ← store_next m tail b;
        m2 ← store_prev m1 b tail;
        b' ← load_next m2 b;
        if decide (b' = NULL) then Some (m2, b, a)
        else merge_final_loop f m2 b a b'
  end.

(** [uint8_t] increment. *)
Definition u8_incr (c : Z) : Z := (c + 1) mod 256.

(** Second loop of [merge_final] (a do-while); every 256th round calls
    [cmp(priv, b, b)] and drops the result. *)
Fixpoint merge_final_rest (fuel : nat) (m : mem) (tail b : ptr) (count : Z)
    : option (mem * ptr) :=
  match fuel with
  | O => None
  | S f =>
      let count' := u8_incr count in
      let _ := if count' =? 0 then cmp priv b b else 0 in
      m1 ← store_prev m b tail;
      b' ← load_next m1 b;
      if decide (b' = NULL) then Some (m1, b)
      else merge_final_rest f m1 b b' count'
  end.

Definition merge_final (fuel : nat) (m : mem) (head a b : ptr)
    : option mem :=
  '(m1, tail, b1) ← merge_final_loop fuel m head a b;
  m2 ← store_next m1 tail b1;
  '(m3, tail') ← merge_final_rest fuel m2 tail b1 0;
  m4 ← store_next m3 tail' head;
  store_prev m4 head tail'.

(** The variables of the main loop of [list_sort]. *)
Record ls_state := LsState {
  ls_mem : mem;
  ls_list : ptr;
  ls_pending : ptr;
  ls_count : Z
}.

(** The walk to the least-significant clear bit of [count]: one step down
    the pending stack, through the [prev] field, for every set low bit. *)
Fixpoint find_tail (fuel : nat) (m : mem) (pending : ptr) (tail : slot)
    (bits : Z) : option (slot * Z) :=
  if Z.land bits 1 =? 0 then Some (tail, bits)
  else match fuel with
       | O => None
       | S f =>
           t ← slot_read m (Some pending) tail;
           find_tail f m pending (PrevOf t) (Z.shiftr bits 1)
       end.

(** The block under "Do the indicated merge": the runs at [*tail] and
    behind it are merged, the older one on the left, and the result takes
    their place in the pending stack. *)
Definition merge_indicated (mfuel : nat) (m : mem) (pending : ptr)
    (tail : slot) (bits : Z) : option (mem * option ptr) :=
  if bits =? 0 then Some (m, Some pending)
  else
    a ← slot_read m (Some pending) tail;
    b ← load_prev m a;
    '(m', a') ← merge mfuel m b a;
    bp ← load_prev m' b;
    m'' ← store_prev m' a' bp;
    slot_write m'' (Some pending) tail a'.

(** One round of the do-while loop of [list_sort]. *)
Definition list_sort_body (mfuel : nat) (st : ls_state) : option ls_state :=
  let m := ls_mem st in
  let pending := ls_pending st in
  '(tail, bits) ← find_tail 64 m pending Local (ls_count st);
  '(m1, pending1) ← merge_indicated mfuel m pending tail bits;
  pending1 ← pending1;
  m2 ← store_prev m1 (ls_list st) pending1;
  list' ← load_next m2 (ls_list st);
  m3 ← store_next m2 (ls_list st) NULL;
  Some (LsState m3 list' (ls_list st) (size_add (ls_count st) 1)).

Fixpoint list_sort_loop (mfuel fuel : nat) (st : ls_state)
    : option ls_state :=
  match fuel with
  | O => None
  | S f =>
      st' ← list_sort_body mfuel st;
      if decide (ls_list st' = NULL) then Some st'
      else list_sort_loop mfuel f st'
  end.

(** The state after [k] rounds of the loop. *)
Fixpoint list_sort_rounds (mfuel : nat) (k : nat) (st : ls_state)
    : option ls_state :=
  match k with
  | O => Some st
  | S k' => st' ← list_sort_rounds mfuel k' st; list_sort_body mfuel st'
  end.

(** The loop that merges all pending runs but the last one. *)
Fixpoint merge_pending (mfuel fuel : nat) (m : mem) (pending list : ptr)
    : option (mem * ptr * ptr) :=
  nx ← load_prev m pending;
  if decide (nx = NULL) then Some (m, pending, list)
  else match fuel with
       | O => None
       | S f =>
           '(m1, list1) ← merge mfuel m pending list;
           merge_pending mfuel f m1 nx list1
       end.

(** The state in which [list_sort] enters its main loop, for a ring of two
    elements or more. *)
Definition list_sort_init (m : mem) (head : ptr) : option ls_state :=
  list ← load_next m head;
  last ← load_prev m head;
  m1 ← store_next m last NULL;
  Some (LsState m1 list NULL 0).

Definition list_sort (fuel : nat) (m : mem) (head : ptr) : option mem :=
  list ← load_next m head;
  last ← load_prev m head;
  if decide (list = last) then Some m
  else
    st0 ← list_sort_init m head;
    st ← list_sort_loop fuel fuel st0;
    let list1 := ls_pending st in
    pending1 ← load_prev (ls_mem st) list1;
    '(m2, pending2, list2) ← merge_pending fuel fuel (ls_mem st) pending1 list1;
    merge_final fuel m2 head pending2 list2.

End list_sort.
End ListSort.

(** ** Building and reading rings *)

Fixpoint link_chain (pv : ptr) (l : list (ptr * string)) (last : ptr)
    : list (ptr * node) :=
  match l with
  | [] => []
  | (a, s) :: r =>
      (a, Node (hd last (map fst r)) pv (Some s)) :: link_chain a r last
  end.

(** The heap that holds exactly the ring with sentinel [head] and the
    elements [l], given as address and payload, in ring order. *)
Definition mk_ring (head : ptr) (l : list (ptr * string)) : mem :=
  list_to_map
    ((head, Node (hd head (map fst l)) (List.last (map fst l) head) None)
       :: link_chain head l head).

(** The nodes met from [p] along [next] until [head] comes back. *)
Fixpoint walk_next (fuel : nat) (m : mem) (head p : ptr)
    : option (list ptr) :=
  if decide (p = head) then Some []
  else match fuel with
       | O => None
       | S f =>
           n ← load_next m p;
           r ← walk_next f m head n;
           Some (p :: r)
       end.

Definition ring_nodes (fuel : nat) (m : mem) (head : ptr)
    : option (list ptr) :=
  first ← load_next m head;
  walk_next fuel m head first.

Definition ring_values (fuel : nat) (m : mem) (head : ptr)
    : option (list string) :=
  l ← ring_nodes fuel m head;
  mapM (load_value m) l.

(** ** Queues to run the code on *)

Section examples.

Local Open Scope nat_scope.
Local Open Scope string_scope.

(** The address of the sentinel in the queues below; their elements are at
    1, 2, ... in queue order. *)
Definition q_head : ptr := 100.

Definition queue_ab : mem := mk_ring q_head [(1, "a"); (2, "b")].

(** Two elements with the same payload. *)
Definition queue_aa : mem := mk_ring q_head [(1, "a"); (2, "a")].

(** Two chains of one node each, with the same payload. *)
Definition chains_aa : mem :=
  <[1 := Node NULL NULL (Some "a")]> (<[2 := Node NULL NULL (Some "a")]> ∅).

Definition queue_abc : mem := mk_ring q_head [(1, "a"); (2, "b"); (3, "c")].

Definition queue_baba : mem :=
  mk_ring q_head [(1, "b"); (2, "a"); (3, "b"); (4, "a")].

Definition queue_5342 : mem :=
  mk_ring q_head [(1, "5"); (2, "3"); (3, "4"); (4, "2")].

Definition queue_aabbc : mem :=
  mk_ring q_head [(1, "a"); (2, "a"); (3, "b"); (4, "b"); (5, "c")].

End examples.

Section more_examples.

Local Open Scope nat_scope.
Local Open Scope string_scope.

(** An address that is not in use in the queues above. *)
Definition free_block : ptr := 9.

(** An allocator that succeeds, with [free_block]. *)
Definition alloc_ok : alloc_outcome := AllocOutcome free_block true.

Definition queue_abcde : mem :=
  mk_ring q_head [(1, "a"); (2, "b"); (3, "c"); (4, "d"); (5, "e")].

Definition queue_abab : mem :=
  mk_ring q_head [(1, "a"); (2, "b"); (3, "a"); (4, "b")].

Definition queue_aab : mem := mk_ring q_head [(1, "a"); (2, "a"); (3, "b")].

Definition queue_2313 : mem :=
  mk_ring q_head [(1, "2"); (2, "3"); (3, "1"); (4, "3")].

Definition queue_abba : mem :=
  mk_ring q_head [(1, "a"); (2, "b"); (3, "b"); (4, "a")].

(** Two sorted chains, 1 -> 2 with payloads "a","c" and 3 -> 4 with payloads
    "b","d". *)
Definition chains_ac_bd : mem :=
  <[1 := Node 2 NULL (Some "a")]>
    (<[2 := Node NULL NULL (Some "c")]>
       (<[3 := Node 4 NULL (Some "b")]>
          (<[4 := Node NULL NULL (Some "d")]> ∅))).

(** The two chains of [chains_ac_bd] and a sentinel to hang them on. *)
Definition chains_with_head : mem :=
  <[q_head := Node NULL NULL None]> chains_ac_bd.

(** A caller's buffer of four bytes. *)
Definition buffer4 : buffer := Some ["x"; "x"; "x"; "x"]%char.

End more_examples.

(** * Verification *)

(** ** Reads after writes *)

Lemma load_store m p n m' q :
  store m p n = Some m' →
  load m' q = if decide (q = p) then Some n else load m q.
Proof.
  unfold store, load. intros H.
  destruct (decide (p = NULL)) as [->|Hp]; [done|].
  destruct (m !! p) eqn:E; [|done]. injection H as <-.
  destruct (decide (q = NULL)) as [->|Hq].
  - rewrite decide_False by congruence. done.
  - destruct (decide (q = p)) as [->|Hne].
    + by rewrite lookup_insert_eq.
    + by rewrite lookup_insert_ne.
Qed.

Lemma store_is_Some m p n : is_Some (load m p) → is_Some (store m p n).
Proof. unfold store. intros [x ->]. eauto. Qed.

Definition allocated (m : mem) (p : ptr) : Prop := is_Some (load m p).

Lemma allocated_next m p : allocated m p ↔ is_Some (load_next m p).
Proof. unfold allocated, load_next. by rewrite fmap_is_Some. Qed.

Lemma allocated_prev m p : allocated m p ↔ is_Some (load_prev m p).
Proof. unfold allocated, load_prev. by rewrite fmap_is_Some. Qed.

Lemma load_next_allocated m p q : load_next m p = Some q → allocated m p.
Proof. intros H. apply allocated_next. eauto. Qed.

Lemma load_prev_allocated m p q : load_prev m p = Some q → allocated m p.
Proof. intros H. apply allocated_prev. eauto. Qed.

Lemma load_value_allocated m p s : load_value m p = Some s → allocated m p.
Proof.
  unfold load_value, allocated. destruct (load m p); [eauto|done].
Qed.

Lemma allocated_not_null m p : allocated m p → p ≠ NULL.
Proof.
  unfold allocated, load. intros [x H] ->. by rewrite decide_True in H.
Qed.

(** What a write to [next] changes, and what it leaves alone. *)
Record next_written (m : mem) (p v : ptr) (m' : mem) : Prop := {
  nw_next_eq : load_next m' p = Some v;
  nw_next_ne : ∀ q, q ≠ p → load_next m' q = load_next m q;
  nw_prev : ∀ q, load_prev m' q = load_prev m q;
  nw_value : ∀ q, load_value m' q = load_value m q;
  nw_load_ne : ∀ q, q ≠ p → load m' q = load m q
}.

Record prev_written (m : mem) (p v : ptr) (m' : mem) : Prop := {
  pw_prev_eq : load_prev m' p = Some v;
  pw_prev_ne : ∀ q, q ≠ p → load_prev m' q = load_prev m q;
  pw_next : ∀ q, load_next m' q = load_next m q;
  pw_value : ∀ q, load_value m' q = load_value m q;
  pw_load_ne : ∀ q, q ≠ p → load m' q = load m q
}.

Lemma store_next_spec m p v m' :
  store_next m p v = Some m' → next_written m p v m'.
Proof.
  unfold store_next. intros H.
  destruct (load m p) as [n|] eqn:E; [|done]. simpl in H.
  pose proof (load_store _ _ _ _ p H) as Hp.
  rewrite decide_True in Hp by done.
  split; unfold load_next, load_prev, load_value.
  - by rewrite Hp.
  - intros q Hq. rewrite (load_store _ _ _ _ q H).
    by rewrite decide_False.
  - intros q. rewrite (load_store _ _ _ _ q H).
    destruct (decide (q = p)) as [->|]; [by rewrite E|done].
  - intros q. rewrite (load_store _ _ _ _ q H).
    destruct (decide (q = p)) as [->|]; [by rewrite E|done].
  - intros q Hq. rewrite (load_store _ _ _ _ q H). by rewrite decide_False.
Qed.

Lemma store_prev_spec m p v m' :
  store_prev m p v = Some m' → prev_written m p v m'.
Proof.
  unfold store_prev. intros H.
  destruct (load m p) as [n|] eqn:E; [|done]. simpl in H.
  pose proof (load_store _ _ _ _ p H) as Hp.
  rewrite decide_True in Hp by done.
  split; unfold load_next, load_prev, load_value.
  - by rewrite Hp.
  - intros q Hq. rewrite (load_store _ _ _ _ q H).
    by rewrite decide_False.
  - intros q. rewrite (load_store _ _ _ _ q H).
    destruct (decide (q = p)) as [->|]; [by rewrite E|done].
  - intros q. rewrite (load_store _ _ _ _ q H).
    destruct (decide (q = p)) as [->|]; [by rewrite E|done].
  - intros q Hq. rewrite (load_store _ _ _ _ q H). by rewrite decide_False.
Qed.

Lemma store_next_Some m p v :
  allocated m p → ∃ m', store_next m p v = Some m' ∧ next_written m p v m'.
Proof.
  intros [n Hn]. unfold store_next. rewrite Hn. simpl.
  destruct (store_is_Some m p (Node v (prev n) (value n))) as [m' Hm'];
    [by eexists|].
  exists m'. split; [done|]. apply store_next_spec.
  unfold store_next. by rewrite Hn.
Qed.

Lemma store_prev_Some m p v :
  allocated m p → ∃ m', store_prev m p v = Some m' ∧ prev_written m p v m'.
Proof.
  intros [n Hn]. unfold store_prev. rewrite Hn. simpl.
  destruct (store_is_Some m p (Node (next n) v (value n))) as [m' Hm'];
    [by eexists|].
  exists m'. split; [done|]. apply store_prev_spec.
  unfold store_prev. by rewrite Hn.
Qed.

Lemma next_written_allocated m p v m' q :
  next_written m p v m' → allocated m' q ↔ allocated m q.
Proof. intros H. by rewrite !allocated_prev, (nw_prev _ _ _ _ H). Qed.

Lemma prev_written_allocated m p v m' q :
  prev_written m p v m' → allocated m' q ↔ allocated m q.
Proof. intros H. by rewrite !allocated_next, (pw_next _ _ _ _ H). Qed.

(** ** Segments, chains and rings *)

(** [seg f p l e]: starting at [p] and following the link [f], one meets
    exactly the nodes [l], in order, and then arrives at [e]. *)
Fixpoint seg (f : ptr → option ptr) (p : ptr) (l : list ptr) (e : ptr)
    : Prop :=
  match l with
  | [] => p = e
  | a :: r => p = a ∧ ∃ q, f a = Some q ∧ seg f q r e
  end.

(** A null-terminated chain along [next]. *)
Definition chain (m : mem) (p : ptr) (l : list ptr) : Prop :=
  seg (load_next m) p l NULL ∧ (NULL ∉ l).

(** The ring with sentinel [head] whose elements are, in order, [l]. *)
Definition ring (m : mem) (head : ptr) (l : list ptr) : Prop :=
  head ≠ NULL ∧ (NULL ∉ l) ∧ NoDup (head :: l) ∧
  seg (load_next m) head (head :: l) head ∧
  seg (load_prev m) head (head :: rev l) head.

(** Every element of [l] carries the payload that [val] gives. *)
Definition payloads (m : mem) (val : ptr → string) (l : list ptr) : Prop :=
  ∀ a, a ∈ l → load_value m a = Some (val a).

Lemma seg_ext f g p l e :
  (∀ x, x ∈ l → f x = g x) → seg f p l e → seg g p l e.
Proof.
  revert p. induction l as [|a r IH]; intros p Hfg; simpl; [done|].
  intros [-> (q & Hq & Hs)]. split; [done|]. exists q. split.
  - rewrite <- Hfg; [done|]. set_solver.
  - apply IH; [|done]. intros x Hx. apply Hfg. set_solver.
Qed.

Lemma seg_app f p l1 l2 e :
  seg f p (l1 ++ l2) e ↔ ∃ q, seg f p l1 q ∧ seg f q l2 e.
Proof.
  revert p. induction l1 as [|a r IH]; intros p; simpl.
  - split; [eauto|]. by intros (q & -> & H).
  - split.
    + intros [-> (q & Hq & Hs)]. apply IH in Hs as (q' & H1 & H2).
      exists q'. eauto.
    + intros (q' & [-> (q & Hq & H1)] & H2). split; [done|].
      exists q. split; [done|]. apply IH. eauto.
Qed.

Lemma seg_hd f p l e : seg f p l e → p = hd e l.
Proof. destruct l; simpl; [done|]. by intros [-> _]. Qed.

Lemma seg_snoc f p l a e :
  seg f p (l ++ [a]) e ↔ seg f p l a ∧ f a = Some e.
Proof.
  rewrite seg_app. simpl. split.
  - intros (q & H1 & -> & q' & Hq & ->). done.
  - intros [H1 H2]. exists a. eauto.
Qed.

Lemma seg_functional f p l e1 e2 : seg f p l e1 → seg f p l e2 → e1 = e2.
Proof.
  revert p. induction l as [|a r IH]; intros p; simpl.
  - congruence.
  - intros [-> (q & Hq & H1)] [_ (q' & Hq' & H2)].
    rewrite Hq in Hq'. injection Hq' as <-. eauto.
Qed.

Lemma seg_allocated_next m p l e a :
  seg (load_next m) p l e → a ∈ l → allocated m a.
Proof.
  revert p. induction l as [|b r IH]; intros p; simpl; [set_solver|].
  intros [-> (q & Hq & Hs)] Ha.
  apply elem_of_cons in Ha as [->|Ha]; [by eapply load_next_allocated|eauto].
Qed.

Lemma seg_allocated_prev m p l e a :
  seg (load_prev m) p l e → a ∈ l → allocated m a.
Proof.
  revert p. induction l as [|b r IH]; intros p; simpl; [set_solver|].
  intros [-> (q & Hq & Hs)] Ha.
  apply elem_of_cons in Ha as [->|Ha]; [by eapply load_prev_allocated|eauto].
Qed.

Lemma chain_nil m p : chain m p [] ↔ p = NULL.
Proof. unfold chain. simpl. split; [tauto|]. split; [done|set_solver]. Qed.

Lemma chain_cons m p a l :
  chain m p (a :: l) ↔
  p = a ∧ a ≠ NULL ∧ ∃ q, load_next m a = Some q ∧ chain m q l.
Proof.
  unfold chain. simpl. split.
  - intros [[-> (q & Hq & Hs)] Hn]. split; [done|]. split; [set_solver|].
    exists q. split; [done|]. split; [done|set_solver].
  - intros (-> & Ha & q & Hq & Hs & Hn). split; [eauto|]. set_solver.
Qed.

Lemma chain_null m l : chain m NULL l → l = [].
Proof. destruct l; [done|]. rewrite chain_cons. naive_solver. Qed.

Lemma chain_not_null m p l : chain m p l → p ≠ NULL → l ≠ [].
Proof. intros H Hp ->. apply chain_nil in H. done. Qed.

Lemma chain_hd m p l : chain m p l → p = hd NULL l.
Proof. intros [H _]. by apply seg_hd in H. Qed.

Lemma chain_allocated m p l a : chain m p l → a ∈ l → allocated m a.
Proof. intros [H _]. by eapply seg_allocated_next. Qed.

Lemma chain_ext m m' p l :
  (∀ x, x ∈ l → load_next m x = load_next m' x) → chain m p l → chain m' p l.
Proof. intros Hx [H ?]. split; [|done]. by eapply seg_ext. Qed.

(** ** Frames: what a function may have written *)

(** Only the [next] fields of the nodes in [D] may differ. *)
Record next_frame (D : list ptr) (m m' : mem) : Prop := {
  nf_next : ∀ q, q ∉ D → load_next m' q = load_next m q;
  nf_prev : ∀ q, load_prev m' q = load_prev m q;
  nf_value : ∀ q, load_value m' q = load_value m q
}.

Lemma next_frame_refl D m : next_frame D m m.
Proof. by split. Qed.

Lemma next_frame_trans D m1 m2 m3 :
  next_frame D m1 m2 → next_frame D m2 m3 → next_frame D m1 m3.
Proof.
  intros [A1 B1 C1] [A2 B2 C2]. split; intros q.
  - intros Hq. rewrite A2, A1; done.
  - by rewrite B2, B1.
  - by rewrite C2, C1.
Qed.

Lemma next_frame_mono D D' m m' :
  D ⊆ D' → next_frame D m m' → next_frame D' m m'.
Proof.
  intros Hsub [A B C]. split; [|done..]. intros q Hq. apply A. set_solver.
Qed.

Lemma next_written_frame D m p v m' :
  p ∈ D → next_written m p v m' → next_frame D m m'.
Proof.
  intros Hp [A B C E _]. split; [|done..]. intros q Hq. apply B. set_solver.
Qed.

Lemma next_frame_allocated D m m' q :
  next_frame D m m' → allocated m' q ↔ allocated m q.
Proof. intros H. by rewrite !allocated_prev, (nf_prev _ _ _ H). Qed.

Lemma next_frame_chain D m m' p l :
  next_frame D m m' → (∀ x, x ∈ l → x ∉ D) → chain m p l → chain m' p l.
Proof.
  intros H Hd. apply chain_ext. intros x Hx. symmetry.
  apply (nf_next _ _ _ H). by apply Hd.
Qed.

Lemma next_frame_payloads D m m' val l :
  next_frame D m m' → payloads m val l → payloads m' val l.
Proof. intros H Hp a Ha. rewrite (nf_value _ _ _ H). by apply Hp. Qed.

(** ** strcmp is a total preorder *)

Lemma uchar_range c : 0 <= uchar c < 256.
Proof.
  unfold uchar. pose proof (N_ascii_bounded c) as H. lia.
Qed.

Ltac uchar_ranges :=
  repeat match goal with
  | |- context [uchar ?x] =>
      lazymatch goal with
      | _ : 0 <= uchar x < 256 |- _ => fail
      | _ => pose proof (uchar_range x)
      end
  | _ : context [uchar ?x] |- _ =>
      lazymatch goal with
      | _ : 0 <= uchar x < 256 |- _ => fail
      | _ => pose proof (uchar_range x)
      end
  end.

Lemma strcmp_refl s : strcmp s s = 0.
Proof.
  induction s as [|c r IH]; simpl; [done|].
  rewrite Z.eqb_refl. by destruct (uchar c =? 0).
Qed.

Lemma strcmp_flip_neg a b : strcmp a b < 0 ↔ 0 < strcmp b a.
Proof.
  revert b. induction a as [|c r IH]; intros [|d s]; simpl.
  - lia.
  - uchar_ranges. lia.
  - uchar_ranges. lia.
  - destruct (Z.eqb_spec (uchar c) (uchar d)) as [E|E];
      destruct (Z.eqb_spec (uchar d) (uchar c)) as [E'|E']; try lia.
    rewrite E. destruct (uchar d =? 0); [lia|apply IH].
Qed.

Lemma strcmp_flip_zero a b : strcmp a b = 0 ↔ strcmp b a = 0.
Proof.
  pose proof (strcmp_flip_neg a b). pose proof (strcmp_flip_neg b a). lia.
Qed.

Lemma strcmp_trans a b c :
  strcmp a b <= 0 → strcmp b c <= 0 → strcmp a c <= 0.
Proof.
  revert b c. induction a as [|x a IH]; intros [|y b] [|z c]; simpl;
    intros; uchar_ranges; try lia;
    repeat match goal with
    | H : context [?u =? ?v] |- _ => destruct (Z.eqb_spec u v)
    | |- context [?u =? ?v] => destruct (Z.eqb_spec u v)
    end; try lia; eauto.
Qed.

Lemma strcmp_total a b : strcmp a b <= 0 ∨ strcmp b a <= 0.
Proof. pose proof (strcmp_flip_neg a b). lia. Qed.

(** ** Merging two lists *)

Section merge_lists.

Context {A : Type} (takes_left : A → A → bool).

(** The order in which both merges emit the nodes of two chains:
    [takes_left a b] says that the left head goes first. *)
Fixpoint merge_lists (la : list A) : list A → list A :=
  match la with
  | [] => fun lb => lb
  | a :: la' =>
      fix go (lb : list A) : list A :=
        match lb with
        | [] => a :: la'
        | b :: lb' =>
            if takes_left a b then a :: merge_lists la' (b :: lb')
            else b :: go lb'
        end
  end.

Lemma merge_lists_nil_r la : merge_lists la [] = la.
Proof. by destruct la. Qed.

Lemma merge_lists_cons a la b lb :
  merge_lists (a :: la) (b :: lb) =
  if takes_left a b then a :: merge_lists la (b :: lb)
  else b :: merge_lists (a :: la) lb.
Proof. done. Qed.

Lemma merge_lists_perm la lb : merge_lists la lb ≡ₚ la ++ lb.
Proof.
  revert lb. induction la as [|a la IH]; [done|].
  induction lb as [|b lb IHb].
  - by rewrite merge_lists_nil_r, app_nil_r.
  - rewrite merge_lists_cons. destruct (takes_left a b).
    + simpl. by rewrite IH.
    + rewrite IHb. by rewrite <- Permutation_middle.
Qed.

Lemma merge_lists_length la lb :
  length (merge_lists la lb) = (length la + length lb)%nat.
Proof. by rewrite merge_lists_perm, length_app. Qed.

Lemma merge_lists_not_nil la lb : la ++ lb ≠ [] → merge_lists la lb ≠ [].
Proof.
  intros H E. apply H. apply Permutation_nil_r.
  rewrite <- E. symmetry. apply merge_lists_perm.
Qed.

Section sorted.

Context (R : A → A → Prop).
Hypothesis takes_left_le : ∀ a b, takes_left a b = true → R a b.
Hypothesis takes_right_le : ∀ a b, takes_left a b = false → R b a.

Lemma merge_lists_HdRel x la lb :
  HdRel R x la → HdRel R x lb → HdRel R x (merge_lists la lb).
Proof.
  destruct la as [|a la]; [done|]. destruct lb as [|b lb]; [done|].
  rewrite merge_lists_cons. intros Ha Hb.
  apply HdRel_inv in Ha. apply HdRel_inv in Hb.
  destruct (takes_left a b); by constructor.
Qed.

Lemma merge_lists_Sorted la lb :
  Sorted R la → Sorted R lb → Sorted R (merge_lists la lb).
Proof.
  revert lb. induction la as [|a la IH]; [done|].
  induction lb as [|b lb IHb]; [done|].
  intros Ha Hb. rewrite merge_lists_cons.
  pose proof (Sorted_inv Ha) as [Ha1 Ha2].
  pose proof (Sorted_inv Hb) as [Hb1 Hb2].
  destruct (takes_left a b) eqn:E.
  - constructor; [by apply IH|].
    apply merge_lists_HdRel; [done|]. constructor. by apply takes_left_le.
  - constructor; [by apply IHb|].
    apply merge_lists_HdRel; [|done]. constructor. by apply takes_right_le.
Qed.

End sorted.

(** Stability: a class [C] of elements that always yield to each other
    comes out of the merge in the order left-then-right. *)
Section stable.

Context (R : A → A → Prop) (C : A → bool).
Hypothesis takes_left_iff : ∀ a b, takes_left a b = true ↔ R a b.
Hypothesis R_trans : ∀ a b c, R a b → R b c → R a c.
Hypothesis C_yield : ∀ a b, C a = true → C b = true → R a b.

Lemma merge_lists_filter la lb :
  Sorted R la →
  List.filter C (merge_lists la lb) = List.filter C la ++ List.filter C lb.
Proof.
  revert lb. induction la as [|a la IH]; [done|].
  induction lb as [|b lb IHb]; intros Ha.
  - by rewrite merge_lists_nil_r, app_nil_r.
  - rewrite merge_lists_cons. destruct (takes_left a b) eqn:E.
    + cbn [List.filter]. rewrite IH by (apply Sorted_inv in Ha; tauto).
      simpl. by destruct (C a).
    + assert (∀ x l, List.filter C (x :: l) =
        if C x then x :: List.filter C l else List.filter C l) as Hc by done.
      rewrite (Hc b), IHb, (Hc b lb) by done.
      destruct (C b) eqn:Cb; [|done].
      assert (List.filter C (a :: la) = []) as Hnil; [|by rewrite Hnil].
      assert (StronglySorted R (a :: la)) as Hs
        by (apply Sorted_StronglySorted; [exact R_trans|done]).
      apply StronglySorted_inv in Hs as [_ Hall].
      rewrite List.Forall_forall in Hall.
      assert (∀ x, In x (a :: la) → C x = false) as Hno.
      { intros x Hx. destruct (C x) eqn:Cx; [|done]. exfalso.
        assert (R a b) as Hab.
        { destruct Hx as [<-|Hx]; [by apply C_yield|].
          eapply R_trans; [by apply Hall|by apply C_yield]. }
        apply takes_left_iff in Hab. congruence. }
      clear -Hno. induction (a :: la) as [|x l IHl]; [done|].
      simpl. rewrite Hno by (by left). apply IHl.
      intros y Hy. apply Hno. by right.
Qed.

End stable.

End merge_lists.

(** ** q_sort *)

Arguments merge_lists : simpl never.
Arguments NULL : simpl never.

(** Reduce the binds of the option monad, and nothing else. *)
Ltac sbind := cbn [mbind option_bind mret option_ret fmap option_fmap option_map].

(** Redirecting the last link of a segment. *)
Lemma seg_set_last f g p l z e e' :
  seg f p (l ++ [z]) e →
  (∀ x, x ∈ l → g x = f x) → g z = Some e' →
  seg g p (l ++ [z]) e'.
Proof.
  intros Hs Hg Hgz. apply seg_snoc in Hs as [Hs _]. apply seg_snoc.
  split; [|done]. eapply seg_ext; [|done]. intros x Hx. symmetry.
  by apply Hg.
Qed.

Lemma elem_of_rev (x : ptr) l : x ∈ rev l ↔ x ∈ l.
Proof. by rewrite !list_elem_of_In, <- in_rev. Qed.

Lemma chain_app m p l1 l2 :
  chain m p (l1 ++ l2) ↔
  ∃ q, seg (load_next m) p l1 q ∧ (NULL ∉ l1) ∧ chain m q l2.
Proof.
  unfold chain. rewrite seg_app. split.
  - intros [(q & H1 & H2) Hn]. exists q. set_solver.
  - intros (q & H1 & Hn & H2 & Hn2). split; [eauto|set_solver].
Qed.

Section q_sort_proofs.

Context (val : ptr → string).

(** [mergeTwo] takes the left head when it is strictly smaller. *)
Definition lt_val (a b : ptr) : bool := strcmp (val a) (val b) <? 0.

(** Ascending order of the payloads. *)
Definition le_val (a b : ptr) : Prop := strcmp (val a) (val b) <= 0.

Definition cursor_ok (m : mem) (curr : cursor) (D : list ptr) : Prop :=
  match curr with
  | OnStack => True
  | InHeap c => allocated m c ∧ c ∉ D
  end.

Definition cursor_nodes (curr : cursor) : list ptr :=
  match curr with
  | OnStack => []
  | InHeap c => [c]
  end.

Lemma cur_set_next_spec m hv curr v D :
  cursor_ok m curr D →
  ∃ m1 hd1,
    cur_set_next m hv curr v = Some (m1, hd1) ∧
    cur_get_next m1 hd1 curr = Some v ∧
    next_frame (cursor_nodes curr) m m1 ∧
    (curr ≠ OnStack → hd1 = hv).
Proof.
  destruct curr as [|c]; simpl.
  - intros _. exists m, (Some v). repeat split; try done.
  - intros [Hc _]. destruct (store_next_Some m c v Hc) as (m1 & -> & Hw).
    exists m1, hv. simpl. split; [done|]. split; [apply Hw|].
    split; [|done]. eapply next_written_frame; [|done]. set_solver.
Qed.

Lemma cur_get_next_frame m1 hd1 m2 hd2 curr v D :
  cur_get_next m1 hd1 curr = Some v →
  next_frame D m1 m2 →
  (∀ c, c ∈ cursor_nodes curr → c ∉ D) →
  (curr = OnStack → hd2 = hd1) →
  cur_get_next m2 hd2 curr = Some v.
Proof.
  destruct curr as [|c]; simpl; intros Hg Hf Hc Hhd.
  - by rewrite Hhd.
  - rewrite (nf_next _ _ _ Hf); [done|]. apply Hc. set_solver.
Qed.

Lemma mergeTwo_loop_spec n :
  ∀ la lb fuel m hv curr left right,
    (length la + length lb ≤ n)%nat → (n ≤ fuel)%nat →
    chain m left la → chain m right lb →
    NoDup (la ++ lb) → la ++ lb ≠ [] →
    payloads m val (la ++ lb) →
    cursor_ok m curr (la ++ lb) →
    ∃ m1 hd1 curr1 l1 r1 m2 hd2,
      mergeTwo_loop fuel m hv curr left right = Some (m1, hd1, curr1, l1, r1) ∧
      mergeTwo_finish m1 hd1 curr1 l1 r1 = Some (m2, hd2) ∧
      cur_get_next m2 hd2 curr = Some (hd NULL (merge_lists lt_val la lb)) ∧
      chain m2 (hd NULL (merge_lists lt_val la lb)) (merge_lists lt_val la lb) ∧
      next_frame (cursor_nodes curr ++ la ++ lb) m m2 ∧
      (curr ≠ OnStack → hd2 = hv).
Proof.
  induction n as [|n IH]; intros la lb fuel m hv curr left right Hn Hfuel
    Hla Hlb Hnd Hne Hval Hcur.
  { destruct la, lb; simpl in *; try lia. done. }
  destruct la as [|a la].
  { (* the left chain is empty *)
    apply chain_nil in Hla as ->. simpl in *.
    destruct lb as [|b lb]; [done|].
    pose proof Hlb as Hlb'. apply chain_cons in Hlb' as (-> & Hb & _).
    destruct (cur_set_next_spec m hv curr b (b :: lb) Hcur)
      as (m2 & hd2 & Hset & Hget & Hfr & Hhd).
    exists m, hv, curr, NULL, b, m2, hd2.
    split. { destruct fuel; cbn [mergeTwo_loop]; rewrite decide_True; auto. }
    split. { unfold mergeTwo_finish. rewrite decide_False by auto.
             by rewrite decide_True. }
    split; [done|]. split.
    - eapply next_frame_chain; [done| |done].
      intros x Hx. destruct curr; simpl in *; set_solver.
    - split; [|done]. eapply next_frame_mono; [|done]. set_solver. }
  pose proof Hla as Hla'. apply chain_cons in Hla' as (-> & Ha & a' & Hna & Hla').
  destruct lb as [|b lb].
  { (* the right chain is empty *)
    apply chain_nil in Hlb as ->. rewrite app_nil_r in *.
    destruct (cur_set_next_spec m hv curr a (a :: la) Hcur)
      as (m2 & hd2 & Hset & Hget & Hfr & Hhd).
    exists m, hv, curr, a, NULL, m2, hd2.
    split. { destruct fuel; cbn [mergeTwo_loop]; rewrite decide_True; auto. }
    split. { unfold mergeTwo_finish. by rewrite decide_True. }
    rewrite merge_lists_nil_r. split; [done|]. split.
    - eapply next_frame_chain; [done| |done].
      intros x Hx. destruct curr; simpl in *; set_solver.
    - split; [|done]. eapply next_frame_mono; [|done]. set_solver. }
  pose proof Hlb as Hlb'. apply chain_cons in Hlb' as (-> & Hb & b' & Hnb & Hlb').
  destruct fuel as [|fuel]; [lia|]. cbn [mergeTwo_loop].
  rewrite decide_False by (intros [?|?]; done).
  rewrite (Hval a), (Hval b) by set_solver. simpl.
  rewrite merge_lists_cons. fold (lt_val a b).
  destruct (cur_set_next_spec m hv curr (if lt_val a b then a else b)
              (a :: la ++ b :: lb) Hcur)
    as (m1 & hd1 & Hset & Hget & Hfr & Hhd).
  assert (∀ x, x ∈ a :: la ++ b :: lb → load_next m1 x = load_next m x) as Hsame.
  { intros x Hx. apply (nf_next _ _ _ Hfr).
    destruct curr; simpl in *; set_solver. }
  assert (NoDup (a :: la ++ b :: lb)) as Hnd' by done.
  apply NoDup_cons in Hnd' as [Hanin Hnd'].
  assert ((b ∉ la ++ lb) ∧ NoDup (la ++ lb) ∧ a ≠ b) as (Hbnin & Hnd2 & Hab).
  { apply NoDup_app in Hnd' as (H1 & H2 & H3).
    apply NoDup_cons in H3 as [H3 H4].
    split; [|split]; [|apply NoDup_app|]; set_solver. }
  destruct (lt_val a b) eqn:Elt.
  - (* take the left head *)
    rewrite Hset. simpl. rewrite Hsame, Hna by set_solver. simpl.
    rewrite Hget. simpl.
    destruct (IH la (b :: lb) fuel m1 hd1 (InHeap a) a' b)
      as (m1' & hd1' & curr1 & l1 & r1 & m2 & hd2 & Hloop & Hfin & Hg2 & Hc2
          & Hf2 & Hh2).
    + simpl in *. lia.
    + lia.
    + eapply chain_ext; [|done]. intros x Hx. symmetry. apply Hsame. set_solver.
    + eapply chain_ext; [|done]. intros x Hx. symmetry. apply Hsame. set_solver.
    + done.
    + by destruct la.
    + eapply next_frame_payloads; [done|]. intros x Hx. apply Hval. set_solver.
    + simpl. split; [|done].
      apply (next_frame_allocated _ _ _ _ Hfr). by eapply load_next_allocated.
    + exists m1', hd1', curr1, l1, r1, m2, hd2.
      split; [done|]. split; [done|]. simpl in Hg2, Hf2. simpl List.hd.
      split; [|split; [|split]].
      * eapply cur_get_next_frame; [done..| |].
        -- intros c Hc. destruct curr; simpl in *; set_solver.
        -- intros ->. rewrite Hh2 by done. done.
      * apply chain_cons. split; [done|]. split; [done|]. eauto.
      * eapply next_frame_trans.
        -- eapply next_frame_mono; [|done]. set_solver.
        -- eapply next_frame_mono; [|done]. set_solver.
      * intros Hc. rewrite Hh2 by done. auto.
  - (* take the right head *)
    rewrite Hset. simpl. rewrite Hsame, Hnb by set_solver. simpl.
    rewrite Hget. simpl.
    destruct (IH (a :: la) lb fuel m1 hd1 (InHeap b) a b')
      as (m1' & hd1' & curr1 & l1 & r1 & m2 & hd2 & Hloop & Hfin & Hg2 & Hc2
          & Hf2 & Hh2).
    + simpl in *. lia.
    + lia.
    + eapply chain_ext; [|done]. intros x Hx. symmetry. apply Hsame. set_solver.
    + eapply chain_ext; [|done]. intros x Hx. symmetry. apply Hsame. set_solver.
    + simpl. apply NoDup_cons. split; [set_solver|done].
    + done.
    + eapply next_frame_payloads; [done|]. intros x Hx. apply Hval. set_solver.
    + simpl. split; [|set_solver].
      apply (next_frame_allocated _ _ _ _ Hfr). by eapply load_next_allocated.
    + exists m1', hd1', curr1, l1, r1, m2, hd2.
      split; [done|]. split; [done|]. simpl in Hg2, Hf2. simpl List.hd.
      split; [|split; [|split]].
      * eapply cur_get_next_frame; [done..| |].
        -- intros c Hc. destruct curr; simpl in *; set_solver.
        -- intros ->. rewrite Hh2 by done. done.
      * apply chain_cons. split; [done|]. split; [done|]. eauto.
      * eapply next_frame_trans.
        -- eapply next_frame_mono; [|done]. set_solver.
        -- eapply next_frame_mono; [|done]. set_solver.
      * intros Hc. rewrite Hh2 by done. auto.
Qed.

Lemma mergeTwo_spec fuel m left right la lb :
  chain m left la → chain m right lb →
  NoDup (la ++ lb) → payloads m val (la ++ lb) →
  (length la + length lb ≤ fuel)%nat →
  ∃ m2,
    mergeTwo fuel m left right
      = Some (m2, hd NULL (merge_lists lt_val la lb)) ∧
    chain m2 (hd NULL (merge_lists lt_val la lb)) (merge_lists lt_val la lb) ∧
    next_frame (la ++ lb) m m2.
Proof.
  intros Hla Hlb Hnd Hval Hfuel. unfold mergeTwo.
  destruct (decide (la ++ lb = [])) as [Hnil|Hne].
  - apply app_eq_nil in Hnil as [-> ->].
    apply chain_nil in Hla as ->. apply chain_nil in Hlb as ->.
    rewrite decide_True by done. exists m.
    split; [done|]. split; [by apply chain_nil|apply next_frame_refl].
  - rewrite decide_False.
    2:{ intros [-> ->]. apply chain_null in Hla, Hlb. by subst. }
    destruct (mergeTwo_loop_spec (length la + length lb) la lb fuel m None
                OnStack left right)
      as (m1 & hd1 & curr1 & l1 & r1 & m2 & hd2 & Hloop & Hfin & Hg & Hc & Hf
          & _); try done.
    rewrite Hloop. simpl. rewrite Hfin. simpl. simpl in Hg. rewrite Hg. simpl.
    exists m2. done.
Qed.

Lemma mergeSort_mid_spec n :
  ∀ fl sl fuel m slow fast,
    (length fl ≤ n)%nat → (n ≤ fuel)%nat →
    chain m fast fl → chain m slow sl →
    (length fl < length sl)%nat →
    ∃ l1 s l2,
      mergeSort_mid fuel m slow fast = Some s ∧
      sl = l1 ++ s :: l2 ∧
      (2 * length l1 ≤ length fl ≤ 2 * length l1 + 1)%nat.
Proof.
  induction n as [n IH] using lt_wf_ind.
  intros fl sl fuel m slow fast Hn Hfuel Hfl Hsl Hlen.
  destruct sl as [|s0 sl]; [simpl in Hlen; lia|].
  pose proof Hsl as Hsl'.
  apply chain_cons in Hsl' as (-> & Hs0 & s1 & Hns & Hsl').
  destruct fl as [|x fl].
  { apply chain_nil in Hfl as ->. exists [], s0, sl.
    split; [|split; [done|simpl; lia]].
    destruct fuel; cbn [mergeSort_mid]; by rewrite decide_True. }
  apply chain_cons in Hfl as (-> & Hx & x' & Hnx & Hfl).
  destruct fl as [|y fl].
  { apply chain_nil in Hfl as ->. exists [], s0, sl.
    split; [|split; [done|simpl; lia]].
    destruct fuel; cbn [mergeSort_mid]; rewrite decide_False by done;
      rewrite Hnx; sbind; by rewrite decide_True. }
  apply chain_cons in Hfl as (-> & Hy & y' & Hny & Hfl).
  destruct fuel as [|fuel]; [simpl in *; lia|].
  cbn [mergeSort_mid]. rewrite decide_False by done. rewrite Hnx. sbind.
  rewrite decide_False by done. rewrite Hns, Hny. sbind.
  destruct (IH (length fl) ltac:(simpl in *; lia) fl sl fuel m s1 y')
    as (l1 & s & l2 & Hmid & -> & Hb); try done.
  - simpl in *. lia.
  - simpl in *. lia.
  - exists (s0 :: l1), s, l2. split; [done|]. split; [done|]. simpl in *. lia.
Qed.

Lemma q_mergeSort_spec fuel :
  ∀ m head l,
    chain m head l → l ≠ [] → NoDup l → payloads m val l →
    (length l < fuel)%nat →
    ∃ m' l',
      q_mergeSort fuel m head = Some (m', hd NULL l') ∧
      chain m' (hd NULL l') l' ∧ l' ≡ₚ l ∧ Sorted le_val l' ∧
      next_frame l m m'.
Proof.
  induction fuel as [|fuel IH]; intros m head l Hl Hne Hnd Hval Hlen; [lia|].
  destruct l as [|a l]; [done|].
  pose proof Hl as Hl'. apply chain_cons in Hl' as (-> & Ha & a' & Hna & Hl').
  cbn [q_mergeSort]. rewrite Hna. sbind.
  destruct l as [|b l].
  { apply chain_nil in Hl' as ->. rewrite decide_True by done.
    exists m, [a]. split; [done|]. split; [done|]. split; [done|].
    split; [repeat constructor|apply next_frame_refl]. }
  assert (a' ≠ NULL) as Ha' by (apply chain_cons in Hl'; naive_solver).
  rewrite decide_False by done.
  destruct (mergeSort_mid_spec (length (b :: l)) (b :: l) (a :: b :: l) fuel m
              a a')
    as (l1 & s & l2 & Hmid & Hsplit & Hb); try done.
  { simpl in *. lia. } { simpl. lia. }
  rewrite Hmid. simpl.
  assert (l2 ≠ []) as Hl2.
  { intros ->. apply (f_equal length) in Hsplit.
    rewrite length_app in Hsplit. simpl in *. lia. }
  rewrite Hsplit in Hl, Hnd, Hval, Hlen |- *. clear Hsplit Hl' Hna.
  replace (l1 ++ s :: l2) with ((l1 ++ [s]) ++ l2) in *
    by (by rewrite <- app_assoc).
  apply chain_app in Hl as (mid & Hseg & Hn1 & Hr).
  pose proof Hseg as Hseg'. apply seg_snoc in Hseg' as [_ Hsm].
  rewrite Hsm. simpl.
  destruct (store_next_Some m s NULL) as (m1 & -> & Hw);
    [by eapply load_next_allocated|]. simpl.
  apply NoDup_app in Hnd as (Hnd1 & Hdisj & Hnd2).
  assert (next_frame (l1 ++ [s]) m m1) as Hf1
    by (eapply next_written_frame; [|done]; set_solver).
  assert (chain m1 a (l1 ++ [s])) as Hc1.
  { split; [|done]. eapply seg_set_last; [done| |apply Hw].
    intros x Hx. apply (nw_next_ne _ _ _ _ Hw).
    apply NoDup_app in Hnd1 as (_ & Hd & _). set_solver. }
  assert (chain m1 mid l2) as Hc2.
  { eapply next_frame_chain; [done| |done]. set_solver. }
  rewrite !length_app in Hlen. simpl in Hlen, Hb.
  assert (1 ≤ length l2)%nat as Hlen2 by (destruct l2; [done|simpl; lia]).
  destruct (IH m1 a (l1 ++ [s])) as (m2 & la & Hs1 & Hca & Hpa & Hsa & Hfa).
  { done. } { by destruct l1. } { done. }
  { eapply next_frame_payloads; [done|]. intros x Hx. apply Hval. set_solver. }
  { rewrite length_app. simpl. lia. }
  assert (hd NULL (l1 ++ [s]) = a) as Hhd by (by apply chain_hd in Hc1).
  rewrite Hs1. simpl.
  destruct (IH m2 mid l2) as (m3 & lb & Hs2 & Hcb & Hpb & Hsb & Hfb).
  { eapply next_frame_chain; [done| |done]. set_solver. }
  { done. } { done. }
  { eapply next_frame_payloads; [done|].
    eapply next_frame_payloads; [done|]. intros x Hx. apply Hval. set_solver. }
  { lia. }
  rewrite Hs2. simpl.
  destruct (mergeTwo_spec fuel m3 (hd NULL la) (hd NULL lb) la lb)
    as (m4 & Hm & Hc4 & Hf4).
  { eapply next_frame_chain; [done| |done].
    intros x Hx Hx'. rewrite Hpa in Hx. set_solver. }
  { done. }
  { rewrite Hpa, Hpb. apply NoDup_app. done. }
  { do 3 (eapply next_frame_payloads; [done|]).
    intros x Hx. apply Hval. rewrite Hpa, Hpb in Hx. done. }
  { rewrite Hpa, Hpb, length_app. simpl. lia. }
  rewrite Hm. exists m4, (merge_lists lt_val la lb).
  split; [done|]. split; [done|]. split; [|split].
  - by rewrite merge_lists_perm, Hpa, Hpb.
  - apply merge_lists_Sorted; [| |done..].
    + intros x y. unfold lt_val, le_val. lia.
    + intros x y. unfold lt_val, le_val.
      pose proof (strcmp_flip_neg (val x) (val y)). lia.
  - eapply next_frame_trans; [eapply next_frame_mono; [|exact Hf1]|];
      [set_solver|].
    eapply next_frame_trans; [eapply next_frame_mono; [|exact Hfa]|];
      [set_solver|].
    eapply next_frame_trans; [eapply next_frame_mono; [|exact Hfb]|];
      [set_solver|].
    eapply next_frame_mono; [|exact Hf4].
    intros x Hx. rewrite Hpa, Hpb in Hx. done.
Qed.

End q_sort_proofs.
(** Only the [prev] fields of the nodes in [D] may differ. *)
Record prev_frame (D : list ptr) (m m' : mem) : Prop := {
  pf_prev : ∀ q, q ∉ D → load_prev m' q = load_prev m q;
  pf_next : ∀ q, load_next m' q = load_next m q;
  pf_value : ∀ q, load_value m' q = load_value m q
}.

Lemma prev_frame_refl D m : prev_frame D m m.
Proof. by split. Qed.

Lemma prev_frame_trans D m1 m2 m3 :
  prev_frame D m1 m2 → prev_frame D m2 m3 → prev_frame D m1 m3.
Proof.
  intros [A1 B1 C1] [A2 B2 C2]. split; intros q.
  - intros Hq. rewrite A2, A1; done.
  - by rewrite B2, B1.
  - by rewrite C2, C1.
Qed.

Lemma prev_frame_mono D D' m m' :
  D ⊆ D' → prev_frame D m m' → prev_frame D' m m'.
Proof.
  intros Hsub [A B C]. split; [|done..]. intros q Hq. apply A. set_solver.
Qed.

Lemma prev_written_frame D m p v m' :
  p ∈ D → prev_written m p v m' → prev_frame D m m'.
Proof.
  intros Hp [A B C E _]. split; [|done..]. intros q Hq. apply B. set_solver.
Qed.

Lemma prev_frame_allocated D m m' q :
  prev_frame D m m' → allocated m' q ↔ allocated m q.
Proof. intros H. by rewrite !allocated_next, (pf_next _ _ _ H). Qed.

Lemma last_cons_default (a : ptr) l d : List.last (a :: l) d = List.last l a.
Proof.
  revert a d. induction l as [|b l IH]; intros a d; [done|].
  change (List.last (a :: b :: l) d) with (List.last (b :: l) d).
  by rewrite !IH.
Qed.

Lemma list_snoc_inv (l : list ptr) : l ≠ [] → ∃ l0 z, l = l0 ++ [z].
Proof.
  intros H. destruct l as [|a l] using rev_ind; [done|]. eauto.
Qed.

(** ** Rings *)

Lemma ring_empty m head :
  ring m head [] → load_next m head = Some head ∧ load_prev m head = Some head.
Proof.
  intros (_ & _ & _ & Hn & Hp). simpl in *.
  destruct Hn as (_ & q & Hq & ->). destruct Hp as (_ & q' & Hq' & ->). done.
Qed.

Lemma ring_first m head a l :
  ring m head (a :: l) → load_next m head = Some a ∧ a ≠ head ∧ a ≠ NULL.
Proof.
  intros (_ & Hnull & Hnd & Hn & _). simpl in Hn.
  destruct Hn as (_ & q & Hq & -> & _). split; [done|].
  apply NoDup_cons in Hnd as [Hh _]. set_solver.
Qed.

Lemma ring_last m head l z :
  ring m head (l ++ [z]) → load_prev m head = Some z ∧ z ≠ head ∧ z ≠ NULL.
Proof.
  intros (_ & Hnull & Hnd & _ & Hp). rewrite rev_unit in Hp. simpl in Hp.
  destruct Hp as (_ & q & Hq & -> & _). split; [done|].
  apply NoDup_cons in Hnd as [Hh _]. set_solver.
Qed.

Lemma ring_allocated m head l a : ring m head l → a ∈ head :: l → allocated m a.
Proof. intros (_ & _ & _ & Hn & _) Ha. by eapply seg_allocated_next. Qed.

Lemma ring_list_empty m head l :
  ring m head l → list_empty m head = Some (bool_decide (l = [])).
Proof.
  intros Hr. unfold list_empty. destruct l as [|a l].
  - apply ring_empty in Hr as [-> _]. sbind. by rewrite bool_decide_eq_true_2.
  - apply ring_first in Hr as (-> & Ha & _). sbind.
    by rewrite bool_decide_eq_false_2.
Qed.

Section q_sort_top.

Context (val : ptr → string).

Lemma q_sort_relink_spec l :
  ∀ fuel m curr nex,
    chain m nex l → NoDup l → (length l ≤ fuel)%nat →
    ∃ m',
      q_sort_relink fuel m curr nex = Some (m', List.last l curr) ∧
      seg (load_prev m') (List.last l curr) (rev l) curr ∧
      prev_frame l m m'.
Proof.
  induction l as [|a l IH]; intros fuel m curr nex Hl Hnd Hfuel.
  - apply chain_nil in Hl as ->. exists m.
    split; [|split; [done|apply prev_frame_refl]].
    destruct fuel; cbn [q_sort_relink]; by rewrite decide_True.
  - apply chain_cons in Hl as (-> & Ha & a' & Hna & Hl).
    destruct fuel as [|fuel]; [simpl in Hfuel; lia|].
    cbn [q_sort_relink]. rewrite decide_False by done.
    destruct (store_prev_Some m a curr) as (m1 & -> & Hw);
      [by eapply load_next_allocated|]. sbind.
    rewrite (pw_next _ _ _ _ Hw), Hna. sbind.
    apply NoDup_cons in Hnd as [Hanin Hnd].
    destruct (IH fuel m1 a a') as (m' & Hrun & Hseg & Hfr).
    { eapply chain_ext; [|done]. intros x _. symmetry. apply Hw. }
    { done. } { simpl in Hfuel. lia. }
    exists m'. rewrite last_cons_default. split; [done|]. split.
    + simpl rev. apply seg_snoc. split; [done|].
      rewrite (pf_prev _ _ _ Hfr) by done. apply Hw.
    + eapply prev_frame_trans.
      * eapply prev_written_frame; [|done]. set_solver.
      * eapply prev_frame_mono; [|done]. set_solver.
Qed.

Lemma q_sort_spec fuel m head descend l :
  ring m head l → payloads m val l → (length l < fuel)%nat →
  ∃ m' l',
    q_sort fuel m head descend = Some m' ∧
    ring m' head l' ∧ l' ≡ₚ l ∧ Sorted (le_val val) l' ∧
    (∀ q, load_value m' q = load_value m q).
Proof.
  intros Hr Hval Hfuel. unfold q_sort.
  pose proof Hr as (Hhead & Hnull & Hnd & Hn & Hp).
  rewrite decide_False by done.
  rewrite (ring_list_empty _ _ _ Hr). sbind.
  destruct (decide (l = [])) as [->|Hne].
  { rewrite bool_decide_eq_true_2 by done. exists m, [].
    split; [done|]. split; [done|]. split; [done|]. split; [constructor|done]. }
  rewrite bool_decide_eq_false_2 by done.
  destruct (list_snoc_inv l Hne) as (l0 & z & Hlz).
  pose proof Hr as Hr'. rewrite Hlz in Hr'.
  apply ring_last in Hr' as (-> & Hzh & Hz). sbind.
  destruct (store_next_Some m z NULL) as (m1 & -> & Hw1).
  { eapply ring_allocated; [done|]. rewrite Hlz. set_solver. }
  sbind. rewrite (nw_next_ne _ _ _ _ Hw1) by done.
  simpl in Hn. destruct Hn as (_ & first & Hfirst & Hn).
  rewrite Hfirst. sbind.
  apply NoDup_cons in Hnd as [Hhl Hndl].
  assert (chain m1 first l) as Hc1.
  { split; [|done]. rewrite Hlz in Hn, Hndl |- *.
    eapply seg_set_last; [exact Hn| |apply Hw1].
    intros x Hx. apply (nw_next_ne _ _ _ _ Hw1).
    apply NoDup_app in Hndl as (_ & Hd & _). set_solver. }
  destruct (q_mergeSort_spec val fuel m1 first l)
    as (m2 & l' & Hsort & Hc2 & Hperm & Hsorted & Hf2); try done.
  { intros a Ha. rewrite (nw_value _ _ _ _ Hw1). by apply Hval. }
  rewrite Hsort. sbind.
  assert (allocated m2 head) as Hah2.
  { apply (next_frame_allocated _ _ _ _ Hf2).
    apply (next_written_allocated _ _ _ _ _ Hw1).
    eapply ring_allocated; [done|]. set_solver. }
  destruct (store_next_Some m2 head (hd NULL l') Hah2) as (m3 & -> & Hw3).
  sbind. rewrite (nw_next_eq _ _ _ _ Hw3). sbind.
  assert (head ∉ l') as Hhl' by (by rewrite Hperm).
  assert (NoDup l') as Hndl' by (by rewrite Hperm).
  destruct (q_sort_relink_spec l' fuel m3 head (hd NULL l'))
    as (m4 & Hrel & Hseg4 & Hf4).
  { eapply chain_ext; [|done]. intros x Hx. symmetry.
    apply (nw_next_ne _ _ _ _ Hw3). set_solver. }
  { done. } { rewrite Hperm. lia. }
  rewrite Hrel. sbind.
  assert (l' ≠ []) as Hne'.
  { intros ->. apply Permutation_nil in Hperm. done. }
  destruct (list_snoc_inv l' Hne') as (l0' & z' & Hlz').
  assert (List.last l' head = z') as Hlast by (rewrite Hlz'; apply last_last).
  rewrite Hlast in *.
  assert (z' ∈ l') as Hz'l by (rewrite Hlz'; set_solver).
  assert (allocated m4 z') as Haz4.
  { apply (prev_frame_allocated _ _ _ _ Hf4).
    apply (next_written_allocated _ _ _ _ _ Hw3).
    by eapply chain_allocated. }
  destruct (store_next_Some m4 z' head Haz4) as (m5 & -> & Hw5). sbind.
  assert (allocated m5 head) as Hah5.
  { apply (next_written_allocated _ _ _ _ _ Hw5).
    apply (prev_frame_allocated _ _ _ _ Hf4).
    by apply (next_written_allocated _ _ _ _ _ Hw3). }
  destruct (store_prev_Some m5 head z' Hah5) as (m6 & -> & Hw6).
  exists m6, l'. split; [done|].
  assert (NULL ∉ l') as Hnull' by (by rewrite Hperm).
  split; [|split; [done|split; [done|]]].
  - split; [done|]. split; [done|]. split; [by apply NoDup_cons|].
    split.
    + simpl. split; [done|]. exists (hd NULL l'). split.
      * rewrite (pw_next _ _ _ _ Hw6), (nw_next_ne _ _ _ _ Hw5) by set_solver.
        rewrite (pf_next _ _ _ Hf4). apply Hw3.
      * destruct Hc2 as [Hc2 _]. rewrite Hlz' in Hc2, Hndl' |- *.
        eapply seg_set_last; [exact Hc2| |].
        -- intros x Hx. rewrite (pw_next _ _ _ _ Hw6).
           apply NoDup_app in Hndl' as (_ & Hd & _).
           rewrite (nw_next_ne _ _ _ _ Hw5) by set_solver.
           rewrite (pf_next _ _ _ Hf4).
           apply (nw_next_ne _ _ _ _ Hw3). set_solver.
        -- rewrite (pw_next _ _ _ _ Hw6). apply Hw5.
    + simpl. split; [done|]. exists z'. split; [apply Hw6|].
      eapply seg_ext; [|done]. intros x Hx.
      rewrite (pw_prev_ne _ _ _ _ Hw6); [by rewrite (nw_prev _ _ _ _ Hw5)|].
      intros ->. apply Hhl'. by apply elem_of_rev.
  - intros q. rewrite (pw_value _ _ _ _ Hw6), (nw_value _ _ _ _ Hw5).
    rewrite (pf_value _ _ _ Hf4), (nw_value _ _ _ _ Hw3).
    rewrite (nf_value _ _ _ Hf2). apply Hw1.
Qed.

End q_sort_top.
(** ** q_reverse *)

(** Only the links of the nodes in [D] may differ; payloads stay. *)
Record links_frame (D : list ptr) (m m' : mem) : Prop := {
  lf_next : ∀ q, q ∉ D → load_next m' q = load_next m q;
  lf_prev : ∀ q, q ∉ D → load_prev m' q = load_prev m q;
  lf_value : ∀ q, load_value m' q = load_value m q;
  lf_allocated : ∀ q, allocated m' q ↔ allocated m q
}.

Lemma links_frame_refl D m : links_frame D m m.
Proof. by split. Qed.

Lemma links_frame_trans D m1 m2 m3 :
  links_frame D m1 m2 → links_frame D m2 m3 → links_frame D m1 m3.
Proof.
  intros [A1 B1 C1 E1] [A2 B2 C2 E2]. split; intros q.
  - intros Hq. rewrite A2, A1; done.
  - intros Hq. rewrite B2, B1; done.
  - by rewrite C2, C1.
  - by rewrite E2, E1.
Qed.

Lemma links_frame_mono D D' m m' :
  D ⊆ D' → links_frame D m m' → links_frame D' m m'.
Proof.
  intros Hsub [A B C E]. split; [| |done..]; intros q Hq; [apply A|apply B];
    set_solver.
Qed.

Lemma next_frame_links D m m' : next_frame D m m' → links_frame D m m'.
Proof.
  intros H. split; [apply H| |apply H|].
  - intros q _. apply H.
  - intros q. by eapply next_frame_allocated.
Qed.

Lemma prev_frame_links D m m' : prev_frame D m m' → links_frame D m m'.
Proof.
  intros H. split; [|apply H|apply H|].
  - intros q _. apply H.
  - intros q. by eapply prev_frame_allocated.
Qed.

Lemma next_written_links D m p v m' :
  p ∈ D → next_written m p v m' → links_frame D m m'.
Proof. intros Hp Hw. apply next_frame_links. by eapply next_written_frame. Qed.

Lemma prev_written_links D m p v m' :
  p ∈ D → prev_written m p v m' → links_frame D m m'.
Proof. intros Hp Hw. apply prev_frame_links. by eapply prev_written_frame. Qed.

Lemma q_reverse_loop_spec head cs :
  ∀ fuel m pre curr,
    seg (load_next m) curr cs head → NoDup cs → head ∉ cs →
    (∀ x, x ∈ cs → allocated m x) →
    (length cs ≤ fuel)%nat →
    ∃ m',
      q_reverse_loop fuel m head pre curr curr = Some m' ∧
      seg (load_prev m') curr cs head ∧
      seg (load_next m') (List.last cs pre) (rev cs) pre ∧
      links_frame cs m m'.
Proof.
  induction cs as [|c cs IH]; intros fuel m pre curr Hseg Hnd Hh Hal Hfuel.
  - simpl in Hseg. subst curr. exists m.
    split; [|split; [done|split; [done|apply links_frame_refl]]].
    destruct fuel; cbn [q_reverse_loop]; by rewrite decide_True.
  - simpl in Hseg. destruct Hseg as (-> & c' & Hc' & Hseg).
    destruct fuel as [|fuel]; [simpl in Hfuel; lia|].
    cbn [q_reverse_loop]. rewrite decide_False by set_solver.
    rewrite Hc'. sbind.
    destruct (store_next_Some m c pre) as (m1 & -> & Hw1);
      [apply Hal; set_solver|]. sbind.
    destruct (store_prev_Some m1 c c') as (m2 & -> & Hw2).
    { apply (next_written_allocated _ _ _ _ _ Hw1). apply Hal. set_solver. }
    sbind. apply NoDup_cons in Hnd as [Hc Hnd].
    destruct (IH fuel m2 c c') as (m' & Hrun & Hp & Hn & Hfr).
    { eapply seg_ext; [|done]. intros x Hx.
      rewrite (pw_next _ _ _ _ Hw2), (nw_next_ne _ _ _ _ Hw1); [done|].
      set_solver. }
    { done. } { set_solver. }
    { intros x Hx. apply (prev_written_allocated _ _ _ _ _ Hw2).
      apply (next_written_allocated _ _ _ _ _ Hw1). apply Hal. set_solver. }
    { simpl in Hfuel. lia. }
    exists m'. split; [done|]. rewrite last_cons_default.
    split; [|split].
    + simpl. split; [done|]. exists c'. split; [|done].
      rewrite (lf_prev _ _ _ Hfr) by done. apply Hw2.
    + simpl rev. apply seg_snoc. split; [done|].
      rewrite (lf_next _ _ _ Hfr) by done.
      rewrite (pw_next _ _ _ _ Hw2). apply Hw1.
    + eapply links_frame_trans; [|eapply links_frame_mono; [|exact Hfr]].
      * eapply links_frame_trans.
        -- eapply next_written_links; [|done]. set_solver.
        -- eapply prev_written_links; [|done]. set_solver.
      * set_solver.
Qed.

Lemma q_reverse_spec fuel m head l :
  ring m head l → (length l < fuel)%nat →
  ∃ m',
    q_reverse fuel m head = Some m' ∧ ring m' head (rev l) ∧
    (∀ q, load_value m' q = load_value m q).
Proof.
  intros Hr Hfuel. unfold q_reverse.
  pose proof Hr as (Hhead & Hnull & Hnd & Hn & Hp).
  rewrite decide_False by done.
  rewrite (ring_list_empty _ _ _ Hr). sbind.
  destruct (decide (l = [])) as [->|Hne].
  { rewrite bool_decide_eq_true_2 by done. exists m. done. }
  rewrite bool_decide_eq_false_2 by done.
  destruct (list_snoc_inv l Hne) as (l0 & z & Hlz).
  pose proof Hr as Hr'. rewrite Hlz in Hr'.
  apply ring_last in Hr' as (-> & Hzh & Hz). sbind.
  destruct fuel as [|fuel]; [lia|].
  cbn [q_reverse_loop]. rewrite decide_False by done.
  simpl in Hn. destruct Hn as (_ & first & Hfirst & Hn).
  rewrite Hfirst. sbind.
  assert (allocated m head) as Hah by (by eapply load_next_allocated).
  destruct (store_next_Some m head z Hah) as (m1 & -> & Hw1). sbind.
  destruct (store_prev_Some m1 head first) as (m2 & -> & Hw2).
  { by apply (next_written_allocated _ _ _ _ _ Hw1). }
  sbind. apply NoDup_cons in Hnd as [Hhl Hndl].
  destruct (q_reverse_loop_spec head l fuel m2 head first)
    as (m' & Hrun & Hp' & Hn' & Hfr).
  { eapply seg_ext; [|done]. intros x Hx.
    rewrite (pw_next _ _ _ _ Hw2), (nw_next_ne _ _ _ _ Hw1); [done|].
    set_solver. }
  { done. } { done. }
  { intros x Hx. apply (prev_written_allocated _ _ _ _ _ Hw2).
    apply (next_written_allocated _ _ _ _ _ Hw1).
    eapply ring_allocated; [done|]. set_solver. }
  { lia. }
  exists m'. split; [done|]. split.
  - split; [done|]. split; [by rewrite elem_of_rev|].
    split.
    { apply NoDup_cons. split; [by rewrite elem_of_rev|].
      apply NoDup_ListNoDup, NoDup_rev, NoDup_ListNoDup. done. }
    split.
    + simpl. split; [done|]. exists z. split.
      * rewrite (lf_next _ _ _ Hfr) by done.
        rewrite (pw_next _ _ _ _ Hw2). apply Hw1.
      * replace z with (List.last l head); [done|].
        rewrite Hlz. apply last_last.
    + rewrite rev_involutive. simpl. split; [done|]. exists first.
      split; [|done]. rewrite (lf_prev _ _ _ Hfr) by done. apply Hw2.
  - intros q. rewrite (lf_value _ _ _ Hfr), (pw_value _ _ _ _ Hw2).
    apply Hw1.
Qed.
(** ** Closing a chain into a ring *)

(** Links outside [Dn] keep their [next], links outside [Dp] their [prev]. *)
Record frame (Dn Dp : list ptr) (m m' : mem) : Prop := {
  fr_next : ∀ q, q ∉ Dn → load_next m' q = load_next m q;
  fr_prev : ∀ q, q ∉ Dp → load_prev m' q = load_prev m q;
  fr_value : ∀ q, load_value m' q = load_value m q;
  fr_allocated : ∀ q, allocated m' q ↔ allocated m q
}.

Lemma frame_refl Dn Dp m : frame Dn Dp m m.
Proof. by split. Qed.

Lemma frame_trans Dn Dp m1 m2 m3 :
  frame Dn Dp m1 m2 → frame Dn Dp m2 m3 → frame Dn Dp m1 m3.
Proof.
  intros [A1 B1 C1 E1] [A2 B2 C2 E2]. split; intros q.
  - intros Hq. rewrite A2, A1; done.
  - intros Hq. rewrite B2, B1; done.
  - by rewrite C2, C1.
  - by rewrite E2, E1.
Qed.

Lemma frame_mono Dn Dp Dn' Dp' m m' :
  Dn ⊆ Dn' → Dp ⊆ Dp' → frame Dn Dp m m' → frame Dn' Dp' m m'.
Proof.
  intros Hn Hp [A B C E]. split; [| |done..]; intros q Hq; [apply A|apply B];
    set_solver.
Qed.

Lemma next_frame_frame D Dp m m' : next_frame D m m' → frame D Dp m m'.
Proof.
  intros H. split; [apply H| |apply H|].
  - intros q _. apply H.
  - intros q. by eapply next_frame_allocated.
Qed.

Lemma prev_frame_frame Dn D m m' : prev_frame D m m' → frame Dn D m m'.
Proof.
  intros H. split; [|apply H|apply H|].
  - intros q _. apply H.
  - intros q. by eapply prev_frame_allocated.
Qed.

Lemma next_written_frame2 Dn Dp m p v m' :
  p ∈ Dn → next_written m p v m' → frame Dn Dp m m'.
Proof. intros Hp Hw. apply next_frame_frame. by eapply next_written_frame. Qed.

Lemma prev_written_frame2 Dn Dp m p v m' :
  p ∈ Dp → prev_written m p v m' → frame Dn Dp m m'.
Proof. intros Hp Hw. apply prev_frame_frame. by eapply prev_written_frame. Qed.

Lemma frame_links D m m' : frame D D m m' → links_frame D m m'.
Proof. intros [A B C E]. by split. Qed.

Lemma frame_chain Dn Dp m m' p l :
  frame Dn Dp m m' → (∀ x, x ∈ l → x ∉ Dn) → chain m p l → chain m' p l.
Proof.
  intros H Hd. apply chain_ext. intros x Hx. symmetry.
  apply (fr_next _ _ _ _ H). by apply Hd.
Qed.

Lemma ring_close m head out m4 m5 :
  head ≠ NULL → NoDup (head :: out) → out ≠ [] →
  load_next m head = Some (hd NULL out) →
  chain m (hd NULL out) out →
  seg (load_prev m) (List.last out head) (rev out) head →
  next_written m (List.last out head) head m4 →
  prev_written m4 head (List.last out head) m5 →
  ring m5 head out.
Proof.
  intros Hhead Hnd Hne Hfirst [Hseg Hnull] Hprev Hw4 Hw5.
  destruct (list_snoc_inv out Hne) as (l0 & z & Hlz).
  assert (List.last out head = z) as Hlast by (rewrite Hlz; apply last_last).
  rewrite Hlast in *.
  apply NoDup_cons in Hnd as [Hh Hnd].
  assert (z ≠ head) as Hzh by (rewrite Hlz in Hh; set_solver).
  split; [done|]. split; [done|]. split; [by apply NoDup_cons|]. split.
  - simpl. split; [done|]. exists (hd NULL out). split.
    + by rewrite (pw_next _ _ _ _ Hw5), (nw_next_ne _ _ _ _ Hw4).
    + rewrite Hlz in Hseg, Hnd |- *.
      eapply seg_set_last; [exact Hseg| |].
      * intros x Hx. rewrite (pw_next _ _ _ _ Hw5).
        apply (nw_next_ne _ _ _ _ Hw4).
        apply NoDup_app in Hnd as (_ & Hd & _). set_solver.
      * rewrite (pw_next _ _ _ _ Hw5). apply Hw4.
  - simpl. split; [done|]. exists z. split; [apply Hw5|].
    eapply seg_ext; [|done]. intros x Hx.
    rewrite (pw_prev_ne _ _ _ _ Hw5); [by rewrite (nw_prev _ _ _ _ Hw4)|].
    intros ->. apply Hh. by apply elem_of_rev.
Qed.

(** ** list_sort: the merges *)

Module ListSortProofs.
Import ListSort.

Section proofs.

Context {P : Type} (priv : P) (cmp : P → ptr → ptr → Z).

(** Both merges of list_sort.c take [a] when [cmp(priv, a, b) <= 0]. *)
Definition le_cmp (a b : ptr) : bool := cmp priv a b <=? 0.

Definition slot_ok (m : mem) (s : slot) (D : list ptr) : Prop :=
  match s with
  | Local => True
  | NextOf p => allocated m p ∧ p ∉ D
  | PrevOf p => False
  end.

Definition slot_nodes (s : slot) : list ptr :=
  match s with
  | Local => []
  | NextOf p => [p]
  | PrevOf p => [p]
  end.

Lemma slot_write_next_spec m var s v D :
  slot_ok m s D →
  ∃ m1 var1,
    slot_write m var s v = Some (m1, var1) ∧
    slot_read m1 var1 s = Some v ∧
    next_frame (slot_nodes s) m m1 ∧
    (s ≠ Local → var1 = var).
Proof.
  destruct s as [|p|p]; simpl; [| |done].
  - intros _. exists m, (Some v). repeat split; done.
  - intros [Hp _]. destruct (store_next_Some m p v Hp) as (m1 & -> & Hw).
    exists m1, var. sbind. split; [done|]. split; [apply Hw|].
    split; [|done]. eapply next_written_frame; [|done]. set_solver.
Qed.

Lemma slot_read_next_frame m1 var1 m2 var2 s v D :
  slot_read m1 var1 s = Some v →
  next_frame D m1 m2 →
  (∀ c, c ∈ slot_nodes s → c ∉ D) →
  (s = Local → var2 = var1) →
  slot_read m2 var2 s = Some v.
Proof.
  destruct s as [|p|p]; simpl; intros Hg Hf Hc Hv.
  - by rewrite Hv.
  - rewrite (nf_next _ _ _ Hf); [done|]. apply Hc. set_solver.
  - by rewrite (nf_prev _ _ _ Hf).
Qed.

Lemma merge_loop_spec n :
  ∀ la lb fuel m var tail a b,
    (length la + length lb ≤ n)%nat → (n ≤ fuel)%nat →
    chain m a la → chain m b lb → la ≠ [] → lb ≠ [] →
    NoDup (la ++ lb) → slot_ok m tail (la ++ lb) →
    ∃ m' var',
      merge_loop priv cmp fuel m var tail a b = Some (m', var') ∧
      slot_read m' var' tail = Some (hd NULL (merge_lists le_cmp la lb)) ∧
      chain m' (hd NULL (merge_lists le_cmp la lb)) (merge_lists le_cmp la lb) ∧
      next_frame (slot_nodes tail ++ la ++ lb) m m' ∧
      (tail ≠ Local → var' = var).
Proof.
  induction n as [|n IH]; intros la lb fuel m var tail a b Hn Hfuel
    Hla Hlb Hane Hbne Hnd Hslot.
  { destruct la; [done|]. simpl in Hn. lia. }
  destruct la as [|a0 la]; [done|]. destruct lb as [|b0 lb]; [done|].
  pose proof Hla as Hla'. apply chain_cons in Hla' as (-> & Ha & a' & Hna & Hla').
  pose proof Hlb as Hlb'. apply chain_cons in Hlb' as (-> & Hb & b' & Hnb & Hlb').
  destruct fuel as [|fuel]; [lia|]. cbn [merge_loop].
  rewrite merge_lists_cons. fold (le_cmp a0 b0).
  destruct (slot_write_next_spec m var tail (if le_cmp a0 b0 then a0 else b0)
              (a0 :: la ++ b0 :: lb) Hslot)
    as (m1 & var1 & Hset & Hget & Hfr & Hvar).
  assert (∀ x, x ∈ a0 :: la ++ b0 :: lb → load_next m1 x = load_next m x)
    as Hsame.
  { intros x Hx. apply (nf_next _ _ _ Hfr).
    destruct tail; simpl in *; set_solver. }
  assert (NoDup (a0 :: la ++ b0 :: lb)) as Hnd' by done.
  apply NoDup_cons in Hnd' as [Hanin Hnd'].
  assert ((b0 ∉ la ++ lb) ∧ NoDup (la ++ lb) ∧ a0 ≠ b0) as (Hbnin & Hnd2 & Hab).
  { apply NoDup_app in Hnd' as (H1 & H2 & H3).
    apply NoDup_cons in H3 as [H3 H4].
    split; [|split]; [|apply NoDup_app|]; set_solver. }
  assert (allocated m1 a0 ∧ allocated m1 b0) as [Haa Hab1].
  { split; apply (next_frame_allocated _ _ _ _ Hfr);
      by eapply load_next_allocated. }
  destruct (le_cmp a0 b0) eqn:Ele.
  - (* take [a] *)
    rewrite Hset. sbind. rewrite Hsame, Hna by set_solver. sbind.
    destruct la as [|a1 la].
    + (* the run [a] is exhausted: link [b] behind it *)
      apply chain_nil in Hla' as ->. rewrite decide_True by done.
      destruct (store_next_Some m1 a0 b0 Haa) as (m2 & Hst & Hw).
      exists m2, var1. simpl slot_write. rewrite Hst. sbind.
      split; [done|]. simpl hd.
      assert (next_frame [a0] m1 m2) as Hf2
        by (eapply next_written_frame; [|done]; set_solver).
      split; [|split; [|split]].
      * eapply slot_read_next_frame; [done..| |done].
        intros c Hc. destruct tail; simpl in *; set_solver.
      * apply chain_cons. split; [done|]. split; [done|].
        exists b0. split; [apply Hw|].
        eapply chain_ext; [|done]. intros x Hx. symmetry.
        rewrite (nw_next_ne _ _ _ _ Hw) by set_solver.
        apply Hsame. set_solver.
      * eapply next_frame_trans; eapply next_frame_mono; [|done| |done];
          set_solver.
      * done.
    + assert (a' ≠ NULL) as Ha' by (apply chain_cons in Hla'; naive_solver).
      rewrite decide_False by done.
      destruct (IH (a1 :: la) (b0 :: lb) fuel m1 var1 (NextOf a0) a' b0)
        as (m2 & var2 & Hloop & Hg2 & Hc2 & Hf2 & Hv2).
      { simpl in *. lia. } { lia. }
      { eapply chain_ext; [|done]. intros x Hx. symmetry. apply Hsame.
        set_solver. }
      { eapply chain_ext; [|done]. intros x Hx. symmetry. apply Hsame.
        set_solver. }
      { done. } { done. } { done. } { simpl. done. }
      exists m2, var2. split; [done|]. simpl in Hg2, Hf2. simpl hd.
      split; [|split; [|split]].
      * eapply slot_read_next_frame; [done..| |].
        -- intros c Hc. destruct tail; simpl in *; set_solver.
        -- intros ->. by rewrite Hv2.
      * apply chain_cons. split; [done|]. split; [done|]. eauto.
      * eapply next_frame_trans; eapply next_frame_mono; [|done| |done];
          set_solver.
      * intros Hc. rewrite Hv2 by done. auto.
  - (* take [b] *)
    rewrite Hset. sbind. rewrite Hsame, Hnb by set_solver. sbind.
    destruct lb as [|b1 lb].
    + apply chain_nil in Hlb' as ->. rewrite decide_True by done.
      destruct (store_next_Some m1 b0 a0 Hab1) as (m2 & Hst & Hw).
      exists m2, var1. simpl slot_write. rewrite Hst. sbind.
      split; [done|]. rewrite merge_lists_nil_r. simpl hd.
      assert (next_frame [b0] m1 m2) as Hf2
        by (eapply next_written_frame; [|done]; set_solver).
      split; [|split; [|split]].
      * eapply slot_read_next_frame; [done..| |done].
        intros c Hc. destruct tail; simpl in *; set_solver.
      * apply chain_cons. split; [done|]. split; [done|].
        exists a0. split; [apply Hw|].
        eapply chain_ext; [|done]. intros x Hx. symmetry.
        rewrite (nw_next_ne _ _ _ _ Hw) by set_solver.
        apply Hsame. set_solver.
      * eapply next_frame_trans; eapply next_frame_mono; [|done| |done];
          set_solver.
      * done.
    + assert (b' ≠ NULL) as Hb' by (apply chain_cons in Hlb'; naive_solver).
      rewrite decide_False by done.
      destruct (IH (a0 :: la) (b1 :: lb) fuel m1 var1 (NextOf b0) a0 b')
        as (m2 & var2 & Hloop & Hg2 & Hc2 & Hf2 & Hv2).
      { simpl in *. lia. } { lia. }
      { eapply chain_ext; [|done]. intros x Hx. symmetry. apply Hsame.
        set_solver. }
      { eapply chain_ext; [|done]. intros x Hx. symmetry. apply Hsame.
        set_solver. }
      { done. } { done. }
      { simpl. apply NoDup_cons. split; [set_solver|done]. }
      { simpl. split; [done|set_solver]. }
      exists m2, var2. split; [done|]. simpl in Hg2, Hf2. simpl hd.
      split; [|split; [|split]].
      * eapply slot_read_next_frame; [done..| |].
        -- intros c Hc. destruct tail; simpl in *; set_solver.
        -- intros ->. by rewrite Hv2.
      * apply chain_cons. split; [done|]. split; [done|]. eauto.
      * eapply next_frame_trans; eapply next_frame_mono; [|done| |done];
          set_solver.
      * intros Hc. rewrite Hv2 by done. auto.
Qed.

Lemma merge_spec fuel m a b la lb :
  chain m a la → chain m b lb → la ≠ [] → lb ≠ [] →
  NoDup (la ++ lb) → (length la + length lb ≤ fuel)%nat →
  ∃ m',
    merge priv cmp fuel m a b
      = Some (m', hd NULL (merge_lists le_cmp la lb)) ∧
    chain m' (hd NULL (merge_lists le_cmp la lb)) (merge_lists le_cmp la lb) ∧
    next_frame (la ++ lb) m m'.
Proof.
  intros Hla Hlb Hane Hbne Hnd Hfuel. unfold merge.
  destruct (merge_loop_spec (length la + length lb) la lb fuel m None Local
              a b) as (m' & var' & Hloop & Hg & Hc & Hf & _); try done.
  rewrite Hloop. sbind. simpl in Hg. rewrite Hg. sbind. exists m'. done.
Qed.

Lemma merge_final_rest_spec rest :
  ∀ fuel m tail b count,
    chain m b rest → rest ≠ [] → NoDup rest → (length rest ≤ fuel)%nat →
    ∃ m',
      merge_final_rest priv cmp fuel m tail b count
        = Some (m', List.last rest tail) ∧
      seg (load_prev m') (List.last rest tail) (rev rest) tail ∧
      prev_frame rest m m'.
Proof.
  induction rest as [|b0 rest IH]; intros fuel m tail b count Hc Hne Hnd Hfuel;
    [done|].
  apply chain_cons in Hc as (-> & Hb & b' & Hnb & Hc).
  destruct fuel as [|fuel]; [simpl in Hfuel; lia|].
  cbn [merge_final_rest]. cbv zeta.
  destruct (store_prev_Some m b0 tail) as (m1 & -> & Hw);
    [by eapply load_next_allocated|]. sbind.
  rewrite (pw_next _ _ _ _ Hw), Hnb. sbind.
  apply NoDup_cons in Hnd as [Hbnin Hnd].
  assert (prev_frame (b0 :: rest) m m1) as Hf1
    by (eapply prev_written_frame; [|done]; set_solver).
  destruct rest as [|b1 rest].
  - apply chain_nil in Hc as ->. rewrite decide_True by done.
    exists m1. split; [done|]. split; [|done].
    simpl. split; [done|]. exists tail. split; [apply Hw|done].
  - assert (b' ≠ NULL) as Hb' by (apply chain_cons in Hc; naive_solver).
    rewrite decide_False by done.
    destruct (IH fuel m1 b0 b' (u8_incr count)) as (m' & Hrun & Hseg & Hfr).
    { eapply chain_ext; [|done]. intros x _. symmetry. apply Hw. }
    { done. } { done. } { simpl in Hfuel |- *. lia. }
    exists m'. rewrite last_cons_default. split; [done|]. split.
    + simpl rev in *. apply seg_snoc. split; [done|].
      rewrite (pf_prev _ _ _ Hfr) by done. apply Hw.
    + eapply prev_frame_trans; [done|].
      eapply prev_frame_mono; [|done]. set_solver.
Qed.

Lemma merge_final_link_spec n :
  ∀ la lb lf rf m tail a b,
    (length la + length lb ≤ n)%nat → (n ≤ lf)%nat → (n ≤ rf)%nat →
    chain m a la → chain m b lb → la ≠ [] → lb ≠ [] →
    NoDup (tail :: la ++ lb) → allocated m tail →
    ∃ m1 tail1 b1 m2 m3,
      merge_final_loop priv cmp lf m tail a b = Some (m1, tail1, b1) ∧
      store_next m1 tail1 b1 = Some m2 ∧
      merge_final_rest priv cmp rf m2 tail1 b1 0
        = Some (m3, List.last (merge_lists le_cmp la lb) tail) ∧
      load_next m3 tail = Some (hd NULL (merge_lists le_cmp la lb)) ∧
      chain m3 (hd NULL (merge_lists le_cmp la lb)) (merge_lists le_cmp la lb) ∧
      seg (load_prev m3) (List.last (merge_lists le_cmp la lb) tail)
        (rev (merge_lists le_cmp la lb)) tail ∧
      frame (tail :: la ++ lb) (la ++ lb) m m3.
Proof.
  induction n as [|n IH]; intros la lb lf rf m tail a b Hn Hlf Hrf
    Hla Hlb Hane Hbne Hnd Htail.
  { destruct la; [done|]. simpl in Hn. lia. }
  destruct la as [|a0 la]; [done|]. destruct lb as [|b0 lb]; [done|].
  pose proof Hla as Hla'. apply chain_cons in Hla' as (-> & Ha & a' & Hna & Hla').
  pose proof Hlb as Hlb'. apply chain_cons in Hlb' as (-> & Hb & b' & Hnb & Hlb').
  destruct lf as [|lf]; [lia|]. cbn [merge_final_loop].
  rewrite merge_lists_cons. fold (le_cmp a0 b0).
  apply NoDup_cons in Hnd as [Htnin Hnd'].
  assert (NoDup (a0 :: la ++ b0 :: lb)) as Hnd0 by done.
  apply NoDup_cons in Hnd' as [Hanin Hnd'].
  assert ((b0 ∉ la ++ lb) ∧ NoDup (la ++ lb) ∧ a0 ≠ b0) as (Hbnin & Hnd2 & Hab).
  { apply NoDup_app in Hnd' as (H1 & H2 & H3).
    apply NoDup_cons in H3 as [H3 H4].
    split; [|split]; [|apply NoDup_app|]; set_solver. }
  set (x := if le_cmp a0 b0 then a0 else b0).
  assert (x ∈ [a0; b0]) as Hx by (unfold x; destruct (le_cmp a0 b0); set_solver).
  destruct (store_next_Some m tail x Htail) as (m1 & Hst1 & Hw1).
  assert (allocated m1 x) as Hax.
  { apply (next_written_allocated _ _ _ _ _ Hw1).
    assert (x = a0 ∨ x = b0) as [->| ->] by set_solver;
      by eapply load_next_allocated. }
  destruct (store_prev_Some m1 x tail Hax) as (m2 & Hst2 & Hw2).
  assert (frame (tail :: a0 :: la ++ b0 :: lb) (a0 :: la ++ b0 :: lb) m m2)
    as Hf12.
  { eapply frame_trans.
    - eapply next_written_frame2; [|done]. set_solver.
    - eapply prev_written_frame2; [|done]. set_solver. }
  assert (∀ y, y ∈ a0 :: la ++ b0 :: lb → load_next m2 y = load_next m y)
    as Hsame.
  { intros y Hy. rewrite (pw_next _ _ _ _ Hw2).
    apply (nw_next_ne _ _ _ _ Hw1). set_solver. }
  assert (allocated m2 a0 ∧ allocated m2 b0) as [Haa Hab2].
  { split; apply (fr_allocated _ _ _ _ Hf12); by eapply load_next_allocated. }
  assert (load_next m2 tail = Some x) as Htx
    by (rewrite (pw_next _ _ _ _ Hw2); apply Hw1).
  assert (load_prev m2 x = Some tail) as Hxt by apply Hw2.
  destruct (le_cmp a0 b0) eqn:Ele; subst x.
  - rewrite Hst1. sbind. rewrite Hst2. sbind.
    rewrite Hsame, Hna by set_solver. sbind.
    destruct la as [|a1 la].
    + apply chain_nil in Hla' as ->. rewrite decide_True by done.
      destruct (store_next_Some m2 a0 b0 Haa) as (m3 & Hst3 & Hw3).
      destruct (merge_final_rest_spec (b0 :: lb) rf m3 a0 b0 0)
        as (m4 & Hrest & Hseg & Hfr).
      { eapply chain_ext; [|done]. intros y Hy. symmetry.
        rewrite (nw_next_ne _ _ _ _ Hw3) by set_solver.
        apply Hsame. set_solver. }
      { done. }
      { by apply NoDup_cons in Hnd0 as [_ ?]. }
      { simpl in *. lia. }
      exists m2, a0, b0, m3, m4. split; [done|]. split; [done|].
      rewrite last_cons_default. simpl hd. split; [done|].
      split; [|split; [|split]].
      * rewrite (pf_next _ _ _ Hfr), (nw_next_ne _ _ _ _ Hw3) by set_solver.
        done.
      * apply chain_cons. split; [done|]. split; [done|]. exists b0.
        split; [rewrite (pf_next _ _ _ Hfr); apply Hw3|].
        eapply chain_ext; [|done]. intros y Hy. symmetry.
        rewrite (pf_next _ _ _ Hfr), (nw_next_ne _ _ _ _ Hw3) by set_solver.
        apply Hsame. set_solver.
      * simpl rev. apply seg_snoc. split; [done|].
        rewrite (pf_prev _ _ _ Hfr) by set_solver.
        by rewrite (nw_prev _ _ _ _ Hw3).
      * eapply frame_trans; [done|]. eapply frame_trans.
        -- eapply next_written_frame2; [|done]. set_solver.
        -- eapply prev_frame_frame. eapply prev_frame_mono; [|done].
           set_solver.
    + assert (a' ≠ NULL) as Ha' by (apply chain_cons in Hla'; naive_solver).
      rewrite decide_False by done.
      destruct (IH (a1 :: la) (b0 :: lb) lf rf m2 a0 a' b0)
        as (m1' & tail1 & b1 & m2' & m3 & Hloop & Hst & Hrest & Hn3 & Hc3 & Hp3
            & Hf3).
      { simpl in *. lia. } { lia. } { lia. }
      { eapply chain_ext; [|done]. intros y Hy. symmetry. apply Hsame.
        set_solver. }
      { eapply chain_ext; [|done]. intros y Hy. symmetry. apply Hsame.
        set_solver. }
      { done. } { done. } { done. } { done. }
      exists m1', tail1, b1, m2', m3. split; [done|]. split; [done|].
      rewrite last_cons_default. simpl hd. split; [done|].
      split; [|split; [|split]].
      * rewrite (fr_next _ _ _ _ Hf3) by set_solver. done.
      * apply chain_cons. split; [done|]. split; [done|]. eauto.
      * simpl rev. apply seg_snoc. split; [done|].
        rewrite (fr_prev _ _ _ _ Hf3) by set_solver. done.
      * eapply frame_trans; [done|]. eapply frame_mono; [| |done]; set_solver.
  - rewrite Hst1. sbind. rewrite Hst2. sbind.
    rewrite Hsame, Hnb by set_solver. sbind.
    destruct lb as [|b1 lb].
    + apply chain_nil in Hlb' as ->. rewrite decide_True by done.
      destruct (store_next_Some m2 b0 a0 Hab2) as (m3 & Hst3 & Hw3).
      destruct (merge_final_rest_spec (a0 :: la) rf m3 b0 a0 0)
        as (m4 & Hrest & Hseg & Hfr).
      { eapply chain_ext; [|done]. intros y Hy. symmetry.
        rewrite (nw_next_ne _ _ _ _ Hw3) by set_solver.
        apply Hsame. set_solver. }
      { done. }
      { change (NoDup ((a0 :: la) ++ [b0])) in Hnd0.
        by apply NoDup_app in Hnd0 as (H1 & _ & _). }
      { simpl in *. lia. }
      exists m2, b0, a0, m3, m4. split; [done|]. split; [done|].
      rewrite merge_lists_nil_r.
      rewrite last_cons_default. simpl hd. split; [done|].
      split; [|split; [|split]].
      * rewrite (pf_next _ _ _ Hfr), (nw_next_ne _ _ _ _ Hw3) by set_solver.
        done.
      * apply chain_cons. split; [done|]. split; [done|]. exists a0.
        split; [rewrite (pf_next _ _ _ Hfr); apply Hw3|].
        eapply chain_ext; [|done]. intros y Hy. symmetry.
        rewrite (pf_next _ _ _ Hfr), (nw_next_ne _ _ _ _ Hw3) by set_solver.
        apply Hsame. set_solver.
      * simpl rev. apply seg_snoc. split; [done|].
        rewrite (pf_prev _ _ _ Hfr) by set_solver.
        by rewrite (nw_prev _ _ _ _ Hw3).
      * eapply frame_trans; [done|]. eapply frame_trans.
        -- eapply next_written_frame2; [|done]. set_solver.
        -- eapply prev_frame_frame. eapply prev_frame_mono; [|done].
           set_solver.
    + assert (b' ≠ NULL) as Hb' by (apply chain_cons in Hlb'; naive_solver).
      rewrite decide_False by done.
      destruct (IH (a0 :: la) (b1 :: lb) lf rf m2 b0 a0 b')
        as (m1' & tail1 & b1' & m2' & m3 & Hloop & Hst & Hrest & Hn3 & Hc3
            & Hp3 & Hf3).
      { simpl in *. lia. } { lia. } { lia. }
      { eapply chain_ext; [|done]. intros y Hy. symmetry. apply Hsame.
        set_solver. }
      { eapply chain_ext; [|done]. intros y Hy. symmetry. apply Hsame.
        set_solver. }
      { done. } { done. }
      { apply NoDup_cons. split; [set_solver|].
        simpl. apply NoDup_cons. split; [set_solver|done]. }
      { done. }
      exists m1', tail1, b1', m2', m3. split; [done|]. split; [done|].
      rewrite last_cons_default. simpl hd. split; [done|].
      split; [|split; [|split]].
      * rewrite (fr_next _ _ _ _ Hf3) by set_solver. done.
      * apply chain_cons. split; [done|]. split; [done|]. eauto.
      * simpl rev. apply seg_snoc. split; [done|].
        rewrite (fr_prev _ _ _ _ Hf3) by set_solver. done.
      * eapply frame_trans; [done|]. eapply frame_mono; [| |done]; set_solver.
Qed.

Lemma merge_final_spec fuel m head a b la lb :
  chain m a la → chain m b lb → la ≠ [] → lb ≠ [] →
  NoDup (head :: la ++ lb) → allocated m head →
  (length la + length lb ≤ fuel)%nat →
  ∃ m',
    merge_final priv cmp fuel m head a b = Some m' ∧
    ring m' head (merge_lists le_cmp la lb) ∧
    links_frame (head :: la ++ lb) m m'.
Proof.
  intros Hla Hlb Hane Hbne Hnd Hhead Hfuel. unfold merge_final.
  destruct (merge_final_link_spec (length la + length lb) la lb fuel fuel m
              head a b)
    as (m1 & tail1 & b1 & m2 & m3 & Hloop & Hst & Hrest & Hn3 & Hc3 & Hp3
        & Hf3); try done.
  rewrite Hloop. sbind. rewrite Hst. sbind. rewrite Hrest. sbind.
  set (out := merge_lists le_cmp la lb) in *.
  assert (out ≠ []) as Hone by (apply merge_lists_not_nil; by destruct la).
  assert (List.last out head ∈ out) as Hlast.
  { destruct (list_snoc_inv out Hone) as (l0 & z & ->).
    rewrite last_last. set_solver. }
  destruct (store_next_Some m3 (List.last out head) head)
    as (m4 & -> & Hw4); [by eapply chain_allocated|]. sbind.
  destruct (store_prev_Some m4 head (List.last out head))
    as (m5 & -> & Hw5).
  { apply (next_written_allocated _ _ _ _ _ Hw4).
    by apply (fr_allocated _ _ _ _ Hf3). }
  exists m5. split; [done|].
  assert (out ≡ₚ la ++ lb) as Hperm by apply merge_lists_perm.
  assert (∀ y, y ∈ out → y ∈ la ++ lb) as Hsub
    by (intros y Hy; by rewrite <- Hperm).
  split.
  - eapply (ring_close m3); try done.
    + by apply allocated_not_null in Hhead.
    + by rewrite Hperm.
  - apply frame_links. eapply frame_trans.
    + eapply frame_mono; [| |done]; set_solver.
    + eapply frame_trans.
      * eapply next_written_frame2; [|done].
        apply Hsub in Hlast. set_solver.
      * eapply prev_written_frame2; [|done]. set_solver.
Qed.

End proofs.
End ListSortProofs.
(** ** list_sort: the pending stack *)

Module ListSortLoop.
Import ListSort ListSortProofs.

(** The pending stack: the runs [runs], newest first; each run is a chain
    along [next], and the [prev] field of the first node of a run leads to
    the next run. *)
Fixpoint pending_rep (m : mem) (p : ptr) (runs : list (list ptr)) : Prop :=
  match runs with
  | [] => p = NULL
  | r :: rs =>
      r ≠ [] ∧ chain m p r ∧ ∃ q, load_prev m p = Some q ∧ pending_rep m q rs
  end.

Lemma pending_rep_frame Dn Dp m m' p runs :
  frame Dn Dp m m' →
  (∀ x, x ∈ concat runs → x ∉ Dn) →
  (∀ x, x ∈ concat runs → x ∉ Dp) →
  pending_rep m p runs → pending_rep m' p runs.
Proof.
  intros Hf. revert p. induction runs as [|r rs IH]; intros p Hn Hp; [done|].
  simpl in *. intros (Hr & Hc & q & Hq & Hrest).
  split; [done|]. split.
  { eapply frame_chain; [done| |done]. intros x Hx. apply Hn. set_solver. }
  exists q. split.
  - rewrite (fr_prev _ _ _ _ Hf); [done|]. apply Hp.
    apply chain_hd in Hc. destruct r; [done|]. simpl in Hc. set_solver.
  - apply IH; [| |done]; intros x Hx; [apply Hn|apply Hp]; set_solver.
Qed.

Lemma pending_rep_not_nil m p runs :
  pending_rep m p runs → Forall (λ r, r ≠ []) runs.
Proof.
  revert p. induction runs as [|r rs IH]; intros p; [constructor|].
  simpl. intros (Hr & _ & q & _ & Hrest). constructor; eauto.
Qed.

(** *** The counter and the run sizes *)

Lemma land_1 a : Z.land a 1 = a mod 2.
Proof. change 1 with (Z.ones 1) at 1. by rewrite Z.land_ones. Qed.

Lemma shiftr_1 a : Z.shiftr a 1 = a / 2.
Proof. by rewrite Z.shiftr_div_pow2. Qed.

Lemma odd_bits e : (Z.land (2 * e + 1) 1 =? 0) = false.
Proof. rewrite land_1. apply Z.eqb_neq. Z.div_mod_to_equations. lia. Qed.

Lemma even_bits e : (Z.land (2 * e) 1 =? 0) = true.
Proof. rewrite land_1. apply Z.eqb_eq. Z.div_mod_to_equations. lia. Qed.

Lemma odd_shiftr e : Z.shiftr (2 * e + 1) 1 = e.
Proof. rewrite shiftr_1. Z.div_mod_to_equations. lia. Qed.

(** [run_sizes s d L]: [L] lists the run sizes for [d], read as a number in
    the binary numeration whose digits are 1 and 2, least significant digit
    first, the first digit weighing [s]: a digit 1 of weight [w] is a run of
    size [w], a digit 2 a run of size [2 * w]. *)
Inductive run_sizes : nat → Z → list nat → Prop :=
  | run_sizes_zero s : run_sizes s 0 []
  | run_sizes_one s d L :
      0 <= d → run_sizes (2 * s)%nat d L → run_sizes s (2 * d + 1) (s :: L)
  | run_sizes_two s d L :
      0 <= d → run_sizes (2 * s)%nat d L →
      run_sizes s (2 * d + 2) ((2 * s)%nat :: L).

(** The sizes of the pending runs when [count] elements are pending: a run
    of size 1 in front, the rest as [run_sizes] has it for [count - 1]. *)
Definition pending_sizes (count : Z) (L : list nat) : Prop :=
  match L with
  | [] => count = 0
  | s :: L' => s = 1%nat ∧ run_sizes 1 (count - 1) L'
  end.

Lemma run_sizes_nonneg s d L : run_sizes s d L → 0 <= d.
Proof. induction 1; lia. Qed.

Lemma run_sizes_sum s d L :
  run_sizes s d L → Z.of_nat (list_sum L) = Z.of_nat s * d.
Proof. induction 1; simpl; nia. Qed.

Definition is_pow2 (n : nat) : Prop := ∃ k : nat, n = (2 ^ k)%nat.

Lemma run_sizes_pow2 s d L :
  run_sizes s d L → is_pow2 s → Forall is_pow2 L.
Proof.
  induction 1 as [s|s d L Hd HL IH|s d L Hd HL IH]; intros [k Hk].
  - constructor.
  - assert (is_pow2 (2 * s)%nat) as H2 by (exists (S k); subst s; simpl; lia).
    constructor; [by exists k|auto].
  - assert (is_pow2 (2 * s)%nat) as H2 by (exists (S k); subst s; simpl; lia).
    constructor; auto.
Qed.

Lemma run_sizes_lower s d L : run_sizes s d L → Forall (λ x, s ≤ x)%nat L.
Proof.
  induction 1 as [s|s d L Hd HL IH|s d L Hd HL IH]; constructor; try lia.
  - eapply Forall_impl; [exact IH|]. simpl. lia.
  - eapply Forall_impl; [exact IH|]. simpl. lia.
Qed.

Lemma run_sizes_sorted s d L : run_sizes s d L → Sorted le (s :: L).
Proof.
  induction 1 as [s|s d L Hd HL IH|s d L Hd HL IH].
  - repeat constructor.
  - constructor; [|constructor; lia]. apply Sorted_inv in IH as [IH1 IH2].
    constructor; [done|]. destruct IH2; constructor. lia.
  - constructor; [done|]. constructor. lia.
Qed.

Lemma count_occ_lower (L : list nat) s n :
  Forall (λ x, s ≤ x)%nat L → (n < s)%nat → count_occ Nat.eq_dec L n = 0%nat.
Proof.
  intros HL Hn. apply count_occ_not_In. intros Hin.
  rewrite List.Forall_forall in HL. apply HL in Hin. lia.
Qed.

Lemma run_sizes_twice s d L :
  run_sizes s d L → (0 < s)%nat →
  (∀ n, count_occ Nat.eq_dec L n ≤ 2)%nat ∧
  (count_occ Nat.eq_dec L s ≤ 1)%nat.
Proof.
  induction 1 as [s|s d L Hd HL IH|s d L Hd HL IH]; intros Hs.
  - simpl. split; [intros n|]; lia.
  - destruct IH as [IH2 IH1]; [lia|].
    pose proof (run_sizes_lower _ _ _ HL) as Hlow.
    assert (count_occ Nat.eq_dec L s = 0%nat) as H0
      by (eapply count_occ_lower; [done|lia]).
    split.
    + intros n. destruct (Nat.eq_dec s n) as [E|E].
      * rewrite count_occ_cons_eq by done. subst n. lia.
      * rewrite count_occ_cons_neq by done. apply IH2.
    + rewrite count_occ_cons_eq by done. lia.
  - destruct IH as [IH2 IH1]; [lia|].
    pose proof (run_sizes_lower _ _ _ HL) as Hlow.
    assert (count_occ Nat.eq_dec L s = 0%nat) as H0
      by (eapply count_occ_lower; [done|lia]).
    split.
    + intros n. destruct (Nat.eq_dec (2 * s)%nat n) as [E|E].
      * rewrite count_occ_cons_eq by done. subst n. lia.
      * rewrite count_occ_cons_neq by done. apply IH2.
    + rewrite count_occ_cons_neq by lia. lia.
Qed.

Section proofs.

Context {P : Type} (priv : P) (cmp : P → ptr → ptr → Z).

Abbreviation le_cmp := (le_cmp priv cmp).

(** What one round does to the runs: walk down one run for every set low
    bit of [bits]; at the first clear bit, unless nothing is left of
    [bits], merge the two runs found there, the older one on the left. *)
Fixpoint merge_depth (fuel : nat) (bits : Z) (runs : list (list ptr))
    : option (list (list ptr)) :=
  if Z.land bits 1 =? 0 then
    if bits =? 0 then Some runs
    else match runs with
         | a :: b :: rest => Some (merge_lists le_cmp b a :: rest)
         | _ => None
         end
  else match fuel, runs with
       | S f, r :: rs =>
           rs' ← merge_depth f (Z.shiftr bits 1) rs; Some (r :: rs')
       | _, _ => None
       end.

Definition slot_ok_prev (m : mem) (s : slot) (D : list ptr) : Prop :=
  match s with
  | Local => True
  | NextOf p => False
  | PrevOf p => allocated m p ∧ p ∉ D
  end.

Lemma slot_write_prev_spec m var s v D :
  slot_ok_prev m s D →
  ∃ m1 var1,
    slot_write m var s v = Some (m1, var1) ∧
    slot_read m1 var1 s = Some v ∧
    prev_frame (slot_nodes s) m m1 ∧
    (s ≠ Local → var1 = var).
Proof.
  destruct s as [|p|p]; simpl; [|done|].
  - intros _. exists m, (Some v). repeat split; done.
  - intros [Hp _]. destruct (store_prev_Some m p v Hp) as (m1 & -> & Hw).
    exists m1, var. sbind. split; [done|]. split; [apply Hw|].
    split; [|done]. eapply prev_written_frame; [|done]. set_solver.
Qed.

Lemma hd_elem_of (l : list ptr) d : l ≠ [] → hd d l ∈ l.
Proof. destruct l; [done|]. set_solver. Qed.

Lemma merge_indicated_spec mfuel pending m tail p bits ra rb rest :
  bits ≠ 0 →
  slot_read m (Some pending) tail = Some p →
  pending_rep m p (ra :: rb :: rest) →
  NoDup (concat (ra :: rb :: rest)) →
  slot_ok_prev m tail (concat (ra :: rb :: rest)) →
  (length (concat (ra :: rb :: rest)) ≤ mfuel)%nat →
  ∃ m' var' p',
    merge_indicated priv cmp mfuel m pending tail bits = Some (m', var') ∧
    slot_read m' var' tail = Some p' ∧
    pending_rep m' p' (merge_lists le_cmp rb ra :: rest) ∧
    frame (concat (ra :: rb :: rest))
      (slot_nodes tail ++ concat (ra :: rb :: rest)) m m' ∧
    (tail ≠ Local → var' = Some pending).
Proof.
  intros Hbits Hread Hrep Hnd Hslot Hmfuel. unfold merge_indicated.
  rewrite (proj2 (Z.eqb_neq _ _) Hbits). rewrite Hread. sbind.
  simpl in Hrep. destruct Hrep as (Hane & Hca & q & Hq & Hbne & Hcb & q2 & Hq2
                                   & Hrest).
  rewrite Hq. sbind. simpl concat in *.
  assert (NoDup (rb ++ ra) ∧ (∀ x, x ∈ concat rest → x ∉ ra ++ rb))
    as [Hndba Hdisj].
  { rewrite app_assoc in Hnd. apply NoDup_app in Hnd as (H1 & H2 & H3).
    split; [|set_solver]. apply NoDup_app in H1 as (H4 & H5 & H6).
    apply NoDup_app. set_solver. }
  destruct (merge_spec priv cmp mfuel m q p rb ra)
    as (m1 & Hmerge & Hc1 & Hf1); try done.
  { rewrite !length_app in Hmfuel. lia. }
  rewrite Hmerge. sbind.
  set (out := merge_lists le_cmp rb ra) in *.
  assert (out ≠ []) as Hone by (apply merge_lists_not_nil; by destruct rb).
  assert (∀ y, y ∈ out → y ∈ ra ++ rb) as Hsub.
  { intros y Hy. unfold out in Hy. rewrite merge_lists_perm in Hy. set_solver. }
  pose proof (hd_elem_of out NULL Hone) as Hhd.
  rewrite (nf_prev _ _ _ Hf1), Hq2. sbind.
  destruct (store_prev_Some m1 (hd NULL out) q2) as (m2 & -> & Hw2);
    [by eapply chain_allocated|]. sbind.
  destruct (slot_write_prev_spec m2 (Some pending) tail (hd NULL out)
              (ra ++ rb ++ concat rest))
    as (m3 & var3 & Hwr & Hrd & Hf3 & Hvar).
  { destruct tail as [|t|t]; simpl in *; [done..|].
    destruct Hslot as [Ht ?]. split; [|done].
    apply (prev_written_allocated _ _ _ _ _ Hw2).
    by apply (next_frame_allocated _ _ _ _ Hf1). }
  rewrite Hwr. exists m3, var3, (hd NULL out). split; [done|]. split; [done|].
  assert (frame (ra ++ rb) (hd NULL out :: slot_nodes tail) m m3) as Hfr.
  { eapply frame_trans; [|eapply frame_trans].
    - eapply next_frame_frame. eapply next_frame_mono; [|done]. set_solver.
    - eapply prev_written_frame2; [|done]. set_solver.
    - eapply prev_frame_frame. eapply prev_frame_mono; [|done]. set_solver. }
  assert (∀ x, x ∈ slot_nodes tail → x ∉ ra ++ rb ++ concat rest) as Htail.
  { intros x Hx. destruct tail; simpl in *; set_solver. }
  split; [|split; [|done]].
  - simpl. split; [done|]. split.
    { eapply chain_ext; [|done]. intros x Hx.
      by rewrite (pf_next _ _ _ Hf3), (pw_next _ _ _ _ Hw2). }
    exists q2. split.
    + rewrite (pf_prev _ _ _ Hf3); [apply Hw2|].
      intros Hin. apply Htail in Hin. apply Hsub in Hhd. set_solver.
    + eapply pending_rep_frame; [done| | |done].
      * done.
      * intros x Hx Hin. apply elem_of_cons in Hin as [->|Hin].
        -- apply Hsub in Hhd. by apply Hdisj in Hx.
        -- apply Htail in Hin. set_solver.
  - eapply frame_mono; [| |done]; [set_solver|].
    intros x Hx. apply elem_of_cons in Hx as [->|Hx]; [|set_solver].
    apply Hsub in Hhd. set_solver.
Qed.

Lemma find_merge_spec mfuel pending fuel :
  ∀ bits runs runs' m tail p,
    merge_depth fuel bits runs = Some runs' →
    slot_read m (Some pending) tail = Some p →
    pending_rep m p runs →
    NoDup (concat runs) → slot_ok_prev m tail (concat runs) →
    (length (concat runs) ≤ mfuel)%nat →
    ∃ tail' bits' m' var' p',
      find_tail fuel m pending tail bits = Some (tail', bits') ∧
      merge_indicated priv cmp mfuel m pending tail' bits' = Some (m', var') ∧
      slot_read m' var' tail = Some p' ∧
      pending_rep m' p' runs' ∧
      frame (concat runs) (slot_nodes tail ++ concat runs) m m' ∧
      (tail ≠ Local → var' = Some pending).
Proof.
  assert (∀ fuel bits runs runs' m tail p,
    (Z.land bits 1 =? 0) = true →
    merge_depth fuel bits runs = Some runs' →
    slot_read m (Some pending) tail = Some p →
    pending_rep m p runs →
    NoDup (concat runs) → slot_ok_prev m tail (concat runs) →
    (length (concat runs) ≤ mfuel)%nat →
    ∃ tail' bits' m' var' p',
      find_tail fuel m pending tail bits = Some (tail', bits') ∧
      merge_indicated priv cmp mfuel m pending tail' bits' = Some (m', var') ∧
      slot_read m' var' tail = Some p' ∧
      pending_rep m' p' runs' ∧
      frame (concat runs) (slot_nodes tail ++ concat runs) m m' ∧
      (tail ≠ Local → var' = Some pending)) as Heven.
  { intros fuel' bits runs runs' m tail p Eland Hpure Hread Hrep Hnd Hslot
      Hmfuel.
    exists tail, bits.
    assert (find_tail fuel' m pending tail bits = Some (tail, bits)) as ->
      by (destruct fuel'; cbn [find_tail]; by rewrite Eland).
    assert ((if bits =? 0 then Some runs
             else match runs with
                  | a :: b :: rest => Some (merge_lists le_cmp b a :: rest)
                  | _ => None
                  end) = Some runs') as Hpure'
      by (destruct fuel'; cbn [merge_depth] in Hpure; by rewrite Eland in Hpure).
    destruct (Z.eqb_spec bits 0) as [->|Hbits].
    - injection Hpure' as <-. exists m, (Some pending), p.
      split; [done|]. split; [done|]. split; [done|]. split; [done|].
      split; [apply frame_refl|done].
    - destruct runs as [|ra [|rb rest]]; [done..|]. injection Hpure' as <-.
      destruct (merge_indicated_spec mfuel pending m tail p bits ra rb rest)
        as (m' & var' & p' & H1 & H2 & H3 & H4 & H5); try done.
      exists m', var', p'. done. }
  induction fuel as [|fuel IH];
    intros bits runs runs' m tail p Hpure Hread Hrep Hnd Hslot Hmfuel;
    (destruct (Z.land bits 1 =? 0) eqn:Eland; [by eapply Heven|]).
  { cbn [merge_depth] in Hpure. rewrite Eland in Hpure. by destruct runs. }
  cbn [merge_depth] in Hpure. rewrite Eland in Hpure.
  destruct runs as [|r rs]; [done|].
  destruct (merge_depth fuel (Z.shiftr bits 1) rs) as [rs'|] eqn:Hrec; [|done].
  injection Hpure as <-.
  cbn [find_tail]. rewrite Eland, Hread. sbind.
  simpl in Hrep. destruct Hrep as (Hr & Hc & q & Hq & Hrest).
  simpl concat in *. apply NoDup_app in Hnd as (Hnd1 & Hdisj & Hnd2).
  assert (p ∈ r) as Hpr.
  { apply chain_hd in Hc. rewrite Hc. by apply hd_elem_of. }
  destruct (IH (Z.shiftr bits 1) rs rs' m (PrevOf p) q)
    as (tail' & bits' & m' & var' & p' & Hfind & Hmerge & Hread' & Hrep' & Hfr
        & Hvar); try done.
  { simpl. split; [by eapply load_prev_allocated|]. set_solver. }
  { rewrite length_app in Hmfuel. lia. }
  exists tail', bits', m', var', p. split; [done|]. split; [done|].
  simpl in Hread', Hfr.
  rewrite Hvar in * by done.
  split; [|split; [|split; [|done]]].
  - destruct tail as [|t|t]; simpl in *; [done..|].
    rewrite (fr_prev _ _ _ _ Hfr); [done|]. set_solver.
  - simpl. split; [done|]. split.
    + eapply frame_chain; [done| |done]. set_solver.
    + eauto.
  - eapply frame_mono; [| |done]; set_solver.
Qed.

Lemma merge_depth_perm fuel :
  ∀ bits runs runs',
    merge_depth fuel bits runs = Some runs' → concat runs' ≡ₚ concat runs.
Proof.
  assert (∀ bits runs runs',
    (if bits =? 0 then Some runs
     else match runs with
          | a :: b :: rest => Some (merge_lists le_cmp b a :: rest)
          | _ => None
          end) = Some runs' → concat runs' ≡ₚ concat runs) as Heven.
  { intros bits runs runs' H. destruct (bits =? 0); [by injection H as <-|].
    destruct runs as [|a [|b rest]]; [done..|]. injection H as <-.
    simpl. rewrite merge_lists_perm, !app_assoc.
    apply Permutation_app_tail, Permutation_app_comm. }
  induction fuel as [|fuel IH]; intros bits runs runs' H; cbn [merge_depth] in H;
    (destruct (Z.land bits 1 =? 0); [by eapply Heven|]).
  { by destruct runs. }
  destruct runs as [|r rs]; [done|].
  destruct (merge_depth fuel (Z.shiftr bits 1) rs) as [rs'|] eqn:Hrec; [|done].
  injection H as <-. simpl. by rewrite (IH _ _ _ Hrec).
Qed.

Lemma list_sort_body_spec mfuel m list pending count runs runs' x rest :
  pending_rep m pending runs → chain m list (x :: rest) →
  NoDup (concat runs ++ x :: rest) →
  merge_depth 64 count runs = Some runs' →
  (length (concat runs) ≤ mfuel)%nat →
  ∃ m',
    list_sort_body priv cmp mfuel (LsState m list pending count)
      = Some (LsState m' (hd NULL rest) x (size_add count 1)) ∧
    pending_rep m' x ([x] :: runs') ∧
    chain m' (hd NULL rest) rest ∧
    frame (x :: concat runs) (x :: concat runs) m m'.
Proof.
  intros Hrep Hchain Hnd Hpure Hmfuel. unfold list_sort_body. cbn [ls_mem
    ls_pending ls_count ls_list].
  apply NoDup_app in Hnd as (Hnd1 & Hdisj & Hnd2).
  destruct (find_merge_spec mfuel pending 64 count runs runs' m Local pending
              Hpure eq_refl Hrep Hnd1 I Hmfuel)
    as (tail' & bits' & m1 & var' & p' & Hfind & Hmerge & Hread & Hrep1 & Hf1
        & _).
  rewrite Hfind. sbind. rewrite Hmerge. sbind.
  assert (concat runs' ≡ₚ concat runs) as Hperm by (by eapply merge_depth_perm).
  clear Hfind Hmerge Hpure.
  simpl in Hread, Hf1. rewrite Hread. sbind.
  apply chain_cons in Hchain as (-> & Hx & q & Hq & Hrest).
  assert (q = hd NULL rest) as -> by (by apply chain_hd in Hrest).
  apply NoDup_cons in Hnd2 as [Hxrest Hnd2].
  assert (x ∉ concat runs) as Hxruns
    by (intros Hin; apply (Hdisj _ Hin); by left).
  destruct (store_prev_Some m1 x p') as (m2 & -> & Hw2).
  { apply (fr_allocated _ _ _ _ Hf1). by eapply load_next_allocated. }
  sbind. rewrite (pw_next _ _ _ _ Hw2), (fr_next _ _ _ _ Hf1), Hq by done.
  sbind.
  destruct (store_next_Some m2 x NULL) as (m3 & -> & Hw3).
  { apply (prev_written_allocated _ _ _ _ _ Hw2).
    apply (fr_allocated _ _ _ _ Hf1). by eapply load_next_allocated. }
  sbind. exists m3. split; [done|].
  assert (frame [x] [x] m1 m3) as Hf3.
  { eapply frame_trans.
    - eapply prev_written_frame2; [|done]. set_solver.
    - eapply next_written_frame2; [|done]. set_solver. }
  split; [|split].
  - simpl. split; [done|]. split.
    { apply chain_cons. split; [done|]. split; [done|]. exists NULL.
      split; [apply Hw3|by apply chain_nil]. }
    exists p'. split.
    + rewrite (nw_prev _ _ _ _ Hw3). apply Hw2.
    + eapply pending_rep_frame; [done| | |done];
        intros y Hy; rewrite Hperm in Hy; set_solver.
  - eapply frame_chain; [exact Hf3|set_solver|].
    eapply frame_chain; [exact Hf1| |done]. set_solver.
  - eapply frame_trans; eapply frame_mono; [| |exact Hf1| | |exact Hf3];
      set_solver.
Qed.

Lemma merge_depth_sizes s d L :
  run_sizes s d L →
  ∀ fuel runs,
    map length runs = s :: L → d + 1 < 2 ^ Z.of_nat fuel →
    ∃ runs',
      merge_depth fuel (d + 1) runs = Some runs' ∧
      run_sizes s (d + 1) (map length runs').
Proof.
  induction 1 as [s|s d L Hd HL IH|s d L Hd HL IH]; intros fuel runs Hmap Hfuel.
  - (* nothing behind the front run *)
    destruct runs as [|r [|? ?]]; try done. simpl in Hmap.
    destruct fuel as [|fuel]; [simpl in Hfuel; lia|].
    exists [r]. split; [by destruct fuel|]. simpl. injection Hmap as ->.
    apply (run_sizes_one _ 0); [done|constructor].
  - (* two runs of size [s] in front: they are merged *)
    destruct runs as [|r0 [|r1 rs]]; try done. simpl in Hmap.
    injection Hmap as H0 H1 Hrs.
    exists (merge_lists le_cmp r1 r0 :: rs). split.
    + replace (2 * d + 1 + 1) with (2 * (d + 1)) by lia.
      destruct fuel; cbn [merge_depth]; rewrite even_bits;
        by rewrite (proj2 (Z.eqb_neq _ 0)) by lia.
    + replace (2 * d + 1 + 1) with (2 * d + 2) by lia.
      simpl. rewrite merge_lists_length, H0, H1, Hrs.
      replace (s + s)%nat with (2 * s)%nat by lia. by constructor.
  - (* one run of size [s], then the runs of the next weight *)
    destruct runs as [|r0 rs]; try done. simpl in Hmap.
    injection Hmap as H0 Hrs.
    destruct fuel as [|fuel]; [simpl in Hfuel; lia|].
    destruct (IH fuel rs Hrs) as (rs' & Hrec & Hsz).
    { rewrite Nat2Z.inj_succ, Z.pow_succ_r in Hfuel by lia. lia. }
    exists (r0 :: rs'). split.
    + replace (2 * d + 2 + 1) with (2 * (d + 1) + 1) by lia.
      cbn [merge_depth]. rewrite odd_bits, odd_shiftr, Hrec. done.
    + replace (2 * d + 2 + 1) with (2 * (d + 1) + 1) by lia.
      simpl. rewrite H0. constructor; [lia|done].
Qed.

Lemma merge_depth_pending count runs :
  pending_sizes count (map length runs) → 0 <= count < 2 ^ 64 →
  ∃ runs',
    merge_depth 64 count runs = Some runs' ∧
    run_sizes 1 count (map length runs').
Proof.
  intros Hsz Hc. destruct runs as [|r rs].
  - simpl in Hsz. subst count. exists []. split; [done|constructor].
  - simpl in Hsz. destruct Hsz as [Hr Hsz].
    destruct (merge_depth_sizes 1 (count - 1) _ Hsz 64%nat (r :: rs))
      as (runs' & Hrun & Hsz').
    + simpl. by rewrite Hr.
    + replace (count - 1 + 1) with count by lia. exact (proj2 Hc).
    + replace (count - 1 + 1) with count in * by lia. eauto.
Qed.

(** The three shapes of what a round does to the runs. *)
Inductive merge_step : list (list ptr) → list (list ptr) → Prop :=
  | merge_step_none runs : merge_step runs runs
  | merge_step_here a b rest :
      merge_step (a :: b :: rest) (merge_lists le_cmp b a :: rest)
  | merge_step_deeper r rs rs' :
      merge_step rs rs' → merge_step (r :: rs) (r :: rs').

Lemma merge_depth_step fuel :
  ∀ bits runs runs',
    merge_depth fuel bits runs = Some runs' → merge_step runs runs'.
Proof.
  assert (∀ bits runs runs',
    (if bits =? 0 then Some runs
     else match runs with
          | a :: b :: rest => Some (merge_lists le_cmp b a :: rest)
          | _ => None
          end) = Some runs' → merge_step runs runs') as Heven.
  { intros bits runs runs' H. destruct (bits =? 0).
    - injection H as <-. constructor.
    - destruct runs as [|a [|b rest]]; [done..|]. injection H as <-.
      constructor. }
  induction fuel as [|fuel IH]; intros bits runs runs' H; cbn [merge_depth] in H;
    (destruct (Z.land bits 1 =? 0); [by eapply Heven|]).
  { by destruct runs. }
  destruct runs as [|r rs]; [done|].
  destruct (merge_depth fuel (Z.shiftr bits 1) rs) as [rs'|] eqn:Hrec; [|done].
  injection H as <-. constructor. eauto.
Qed.

(** Each run holds the nodes of one stretch of the input; the stretches
    [segs], oldest last, make up the input consumed so far. *)
Lemma merge_step_segs runs runs' :
  merge_step runs runs' →
  ∀ segs, Forall2 (≡ₚ) runs segs →
    ∃ segs', Forall2 (≡ₚ) runs' segs' ∧ concat (rev segs') = concat (rev segs).
Proof.
  induction 1 as [runs|a b rest|r rs rs' Hstep IH]; intros segs Hsegs.
  - eauto.
  - apply Forall2_cons_inv_l in Hsegs as (sa & segs1 & Ha & Hsegs & ->).
    apply Forall2_cons_inv_l in Hsegs as (sb & srest & Hb & Hsegs & ->).
    exists ((sb ++ sa) :: srest). split.
    + constructor; [|done]. by rewrite merge_lists_perm, Ha, Hb.
    + simpl. rewrite !concat_app. simpl. by rewrite !app_nil_r, app_assoc.
  - apply Forall2_cons_inv_l in Hsegs as (s & ss & Hs & Hsegs & ->).
    destruct (IH ss Hsegs) as (ss' & Hss' & Hcat).
    exists (s :: ss'). split; [by constructor|].
    simpl. by rewrite !concat_app, Hcat.
Qed.

(** The order that [cmp] stands for. *)
Definition cmp_le (a b : ptr) : Prop := cmp priv a b <= 0.

(** Whenever [cmp] says that [a] sorts after [b], it does not say the same
    of [b] and [a]. *)
Definition cmp_total : Prop :=
  ∀ a b, 0 < cmp priv a b → cmp priv b a <= 0.

Definition cmp_trans : Prop :=
  ∀ a b c, cmp priv a b <= 0 → cmp priv b c <= 0 → cmp priv a c <= 0.

Lemma le_cmp_true a b : le_cmp a b = true ↔ cmp_le a b.
Proof. unfold le_cmp, ListSortProofs.le_cmp, cmp_le. lia. Qed.

Lemma merge_cmp_Sorted la lb :
  cmp_total → Sorted cmp_le la → Sorted cmp_le lb →
  Sorted cmp_le (merge_lists le_cmp la lb).
Proof.
  intros Htot. apply merge_lists_Sorted.
  - intros a b. apply le_cmp_true.
  - intros a b Hf. apply Htot.
    destruct (Z.leb_spec (cmp priv a b) 0) as [Hle|Hlt]; [|done].
    apply le_cmp_true in Hle. congruence.
Qed.

Lemma merge_step_sorted runs runs' :
  cmp_total → merge_step runs runs' →
  Forall (Sorted cmp_le) runs → Forall (Sorted cmp_le) runs'.
Proof.
  intros Htot. induction 1 as [runs|a b rest|r rs rs' Hstep IH]; intros Hs.
  - done.
  - apply Forall_cons in Hs as [Ha Hs]. apply Forall_cons in Hs as [Hb Hs].
    constructor; [|done]. by apply merge_cmp_Sorted.
  - apply Forall_cons in Hs as [Hr Hs]. constructor; auto.
Qed.

(** A class of nodes that [cmp] lets stand in any order. *)
Definition tie_class (C : ptr → bool) : Prop :=
  ∀ a b, C a = true → C b = true → cmp priv a b <= 0.

Lemma merge_step_stable C runs runs' :
  cmp_trans → tie_class C → merge_step runs runs' →
  Forall (Sorted cmp_le) runs →
  List.filter C (concat (rev runs')) = List.filter C (concat (rev runs)).
Proof.
  intros Htr HC. induction 1 as [runs|a b rest|r rs rs' Hstep IH]; intros Hs.
  - done.
  - apply Forall_cons in Hs as [Ha Hs]. apply Forall_cons in Hs as [Hb Hs].
    simpl. rewrite !concat_app. simpl. rewrite !app_nil_r, <- app_assoc.
    rewrite !List.filter_app. f_equal.
    apply (merge_lists_filter le_cmp cmp_le C); try done.
    apply le_cmp_true.
  - apply Forall_cons in Hs as [Hr Hs]. simpl.
    rewrite !concat_app, !List.filter_app, IH; done.
Qed.

(** *** The main loop *)

(** What holds between the rounds of the loop, [k] elements of the list
    [l] being consumed; [m0] is the memory in which the loop started. *)
Definition ls_inv (m0 : mem) (l : list ptr) (k : nat) (st : ls_state)
    (runs : list (list ptr)) : Prop :=
  pending_rep (ls_mem st) (ls_pending st) runs ∧
  chain (ls_mem st) (ls_list st) (drop k l) ∧
  ls_count st = Z.of_nat k ∧
  pending_sizes (Z.of_nat k) (map length runs) ∧
  (∃ segs, Forall2 (≡ₚ) runs segs ∧ concat (rev segs) = take k l) ∧
  (cmp_total → Forall (Sorted cmp_le) runs) ∧
  (cmp_total → cmp_trans → ∀ C, tie_class C →
     List.filter C (concat (rev runs)) = List.filter C (take k l)) ∧
  frame l l m0 (ls_mem st).

Lemma concat_Forall2_perm (runs segs : list (list ptr)) :
  Forall2 (≡ₚ) runs segs → concat runs ≡ₚ concat segs.
Proof. induction 1 as [|r s rs ss Hr _ IH]; [done|]. simpl. by rewrite Hr, IH. Qed.

Lemma concat_rev_perm (segs : list (list ptr)) :
  concat (rev segs) ≡ₚ concat segs.
Proof.
  induction segs as [|s ss IH]; [done|]. simpl.
  rewrite concat_app. simpl. rewrite app_nil_r, IH. apply Permutation_app_comm.
Qed.

Lemma ls_inv_runs_perm m0 l k st runs :
  ls_inv m0 l k st runs → concat runs ≡ₚ take k l.
Proof.
  intros (_ & _ & _ & _ & (segs & Hsegs & Hcat) & _).
  by rewrite (concat_Forall2_perm _ _ Hsegs), <- concat_rev_perm, Hcat.
Qed.

Lemma elem_of_take_drop (l : list ptr) k x :
  x ∈ l ↔ x ∈ take k l ∨ x ∈ drop k l.
Proof. rewrite <- (take_drop k l) at 1. set_solver. Qed.

Lemma ls_body_inv mfuel m0 l k st runs :
  ls_inv m0 l k st runs → NoDup l →
  (k < length l)%nat → Z.of_nat (length l) < 2 ^ 64 →
  (length l ≤ mfuel)%nat →
  ∃ st' runs',
    list_sort_body priv cmp mfuel st = Some st' ∧
    ls_inv m0 l (S k) st' runs' ∧
    ls_list st' = hd NULL (drop (S k) l).
Proof.
  intros Hinv Hnd Hk Hlen Hmfuel.
  pose proof (ls_inv_runs_perm _ _ _ _ _ Hinv) as Hperm.
  destruct Hinv as (Hrep & Hchain & Hcount & Hsizes & (segs & Hsegs & Hcat)
                    & Hsorted & Hstable & Hframe).
  destruct st as [m list pending count]. cbn [ls_mem ls_list ls_pending
    ls_count] in *. subst count.
  destruct (lookup_lt_is_Some_2 l k Hk) as [x Hx].
  rewrite (drop_S _ _ _ Hx) in Hchain.
  destruct (merge_depth_pending (Z.of_nat k) runs Hsizes) as (runs1 & Hpure
                                                              & Hsz1); [lia|].
  pose proof (merge_depth_step _ _ _ _ Hpure) as Hstep.
  assert (NoDup (concat runs ++ x :: drop (S k) l)) as Hnd'.
  { rewrite Hperm, <- (drop_S _ _ _ Hx), take_drop. done. }
  destruct (list_sort_body_spec mfuel m list pending (Z.of_nat k) runs runs1 x
              (drop (S k) l) Hrep Hchain Hnd' Hpure)
    as (m' & Hbody & Hrep' & Hchain' & Hf').
  { rewrite Hperm, length_take. lia. }
  clear Hpure.
  exists (LsState m' (hd NULL (drop (S k) l)) x (size_add (Z.of_nat k) 1)),
    ([x] :: runs1).
  split; [done|]. split; [|done]. unfold ls_inv. cbn [ls_mem ls_list
    ls_pending ls_count].
  destruct (merge_step_segs _ _ Hstep segs Hsegs) as (segs1 & Hsegs1 & Hcat1).
  assert (take (S k) l = take k l ++ [x]) as Htake by (by apply take_S_r).
  split; [done|]. split; [done|]. split.
  { unfold size_add, SIZE_MOD. rewrite Z.mod_small; lia. }
  split.
  { simpl. split; [done|]. by replace (Z.of_nat (S k) - 1) with (Z.of_nat k)
      by lia. }
  split.
  { exists ([x] :: segs1). split; [by constructor|].
    simpl. rewrite concat_app. simpl. by rewrite Hcat1, Hcat, Htake. }
  split.
  { intros Htot. constructor; [repeat constructor|].
    eapply merge_step_sorted; eauto. }
  split.
  { intros Htot Htr C HC. simpl. rewrite concat_app. simpl.
    rewrite ?app_nil_r, Htake, !List.filter_app. f_equal.
    rewrite (merge_step_stable C _ _ Htr HC Hstep) by auto.
    by apply Hstable. }
  eapply frame_trans; [done|]. eapply frame_mono; [| |done];
    intros y Hy; apply elem_of_cons in Hy as [->|Hy];
    try (by eapply list_elem_of_lookup_2);
    rewrite Hperm in Hy; apply (elem_of_take_drop l k); by left.
Qed.

Lemma list_sort_rounds_inv mfuel m0 l st0 :
  ls_inv m0 l 0 st0 [] → NoDup l → Z.of_nat (length l) < 2 ^ 64 →
  (length l ≤ mfuel)%nat →
  ∀ k, (k ≤ length l)%nat →
    ∃ st runs,
      list_sort_rounds priv cmp mfuel k st0 = Some st ∧ ls_inv m0 l k st runs.
Proof.
  intros H0 Hnd Hlen Hmfuel. induction k as [|k IH]; intros Hk.
  - exists st0, []. done.
  - destruct IH as (st & runs & Hrounds & Hinv); [lia|].
    destruct (ls_body_inv mfuel m0 l k st runs) as (st' & runs' & Hbody & Hinv'
                                                     & _); try done.
    exists st', runs'. cbn [list_sort_rounds]. rewrite Hrounds. sbind. done.
Qed.

Lemma list_sort_loop_inv mfuel m0 l fuel :
  ∀ k st runs,
    ls_inv m0 l k st runs → NoDup l → Z.of_nat (length l) < 2 ^ 64 →
    (length l ≤ mfuel)%nat → (k < length l)%nat →
    (length l - k ≤ fuel)%nat →
    ∃ st' runs',
      list_sort_loop priv cmp mfuel fuel st = Some st' ∧
      ls_inv m0 l (length l) st' runs'.
Proof.
  induction fuel as [|fuel IH]; intros k st runs Hinv Hnd Hlen Hmfuel Hk Hfuel;
    [lia|].
  destruct (ls_body_inv mfuel m0 l k st runs) as (st' & runs' & Hbody & Hinv'
                                                   & Hlist); try done.
  cbn [list_sort_loop]. rewrite Hbody. sbind.
  destruct (decide (S k = length l)) as [Heq|Hne].
  - rewrite Hlist, drop_ge by lia. simpl hd. rewrite decide_True by done.
    rewrite Heq in Hinv'. eauto.
  - assert (ls_list st' ≠ NULL) as Hnn.
    { rewrite Hlist. destruct Hinv' as (_ & [_ Hnull] & _).
      destruct (drop (S k) l) as [|y r] eqn:Hd.
      - apply (f_equal length) in Hd. rewrite length_drop in Hd. simpl in Hd.
        lia.
      - simpl. set_solver. }
    rewrite decide_False by done.
    eapply IH; [done..| |]; lia.
Qed.

(** *** The final merges *)

(** The order in which the runs are merged once the input is exhausted:
    each older run goes to the left of what has been merged so far. *)
Definition final_order (acc : list ptr) (rs : list (list ptr)) : list ptr :=
  fold_left (λ acc r, merge_lists le_cmp r acc) rs acc.

Lemma final_order_perm rs : ∀ acc, final_order acc rs ≡ₚ acc ++ concat rs.
Proof.
  induction rs as [|r rs IH]; intros acc; simpl.
  - by rewrite app_nil_r.
  - unfold final_order in *. simpl. rewrite IH, merge_lists_perm.
    rewrite <- !app_assoc. apply Permutation_app_swap_app.
Qed.

Lemma final_order_sorted rs :
  cmp_total → ∀ acc,
    Sorted cmp_le acc → Forall (Sorted cmp_le) rs →
    Sorted cmp_le (final_order acc rs).
Proof.
  intros Htot. induction rs as [|r rs IH]; intros acc Hacc Hrs; [done|].
  apply Forall_cons in Hrs as [Hr Hrs]. unfold final_order in *. simpl.
  apply IH; [|done]. by apply merge_cmp_Sorted.
Qed.

Lemma final_order_stable C rs :
  cmp_trans → tie_class C → ∀ acc,
    Forall (Sorted cmp_le) rs →
    List.filter C (final_order acc rs)
      = List.filter C (concat (rev rs) ++ acc).
Proof.
  intros Htr HC. induction rs as [|r rs IH]; intros acc Hrs; [done|].
  apply Forall_cons in Hrs as [Hr Hrs]. unfold final_order in *. simpl.
  rewrite IH by done. rewrite concat_app. simpl.
  rewrite app_nil_r, <- app_assoc, !List.filter_app. f_equal.
  apply (merge_lists_filter le_cmp cmp_le C); try done.
  apply le_cmp_true.
Qed.

Lemma merge_pending_spec mfuel fuel :
  ∀ rs acc m pending list,
    pending_rep m pending rs → rs ≠ [] →
    chain m list acc → acc ≠ [] →
    NoDup (acc ++ concat rs) →
    (length rs ≤ S fuel)%nat → (length (acc ++ concat rs) ≤ mfuel)%nat →
    ∃ m' rlast acc',
      merge_pending priv cmp mfuel fuel m pending list
        = Some (m', hd NULL rlast, hd NULL acc') ∧
      chain m' (hd NULL rlast) rlast ∧ chain m' (hd NULL acc') acc' ∧
      rlast ≠ [] ∧ acc' ≠ [] ∧
      merge_lists le_cmp rlast acc' = final_order acc rs ∧
      rlast ++ acc' ≡ₚ acc ++ concat rs ∧
      (∃ rs0, rs = rs0 ++ [rlast] ∧ acc' = final_order acc rs0) ∧
      frame (acc ++ concat rs) [] m m'.
Proof.
  induction fuel as [|fuel IH];
    intros rs acc m pending list Hrep Hne Hacc Hane Hnd Hfuel Hmfuel.
  - destruct rs as [|r [|r2 rs]]; [done| |simpl in Hfuel; lia].
    simpl in Hrep. destruct Hrep as (Hr & Hc & q & Hq & ->).
    cbn [merge_pending]. rewrite Hq. sbind. rewrite decide_True by done.
    exists m, r, acc. pose proof (chain_hd _ _ _ Hc) as ->.
    pose proof (chain_hd _ _ _ Hacc) as ->.
    split; [done|]. split; [done|]. split; [done|]. split; [done|].
    split; [done|]. split; [done|]. split.
    { simpl. rewrite app_nil_r. apply Permutation_app_comm. }
    split; [by exists []|apply frame_refl].
  - destruct rs as [|r rs]; [done|].
    simpl in Hrep. destruct Hrep as (Hr & Hc & q & Hq & Hrest).
    cbn [merge_pending]. rewrite Hq. sbind.
    destruct rs as [|r2 rs].
    { simpl in Hrest. subst q. rewrite decide_True by done.
      exists m, r, acc. pose proof (chain_hd _ _ _ Hc) as ->.
      pose proof (chain_hd _ _ _ Hacc) as ->.
      split; [done|]. split; [done|]. split; [done|]. split; [done|].
      split; [done|]. split; [done|]. split.
      { simpl. rewrite app_nil_r. apply Permutation_app_comm. }
      split; [by exists []|apply frame_refl]. }
    assert (q ≠ NULL) as Hqn.
    { simpl in Hrest. destruct Hrest as (Hr2 & Hc2 & _).
      destruct r2; [done|]. apply chain_cons in Hc2. naive_solver. }
    rewrite decide_False by done.
    simpl concat in *.
    assert (NoDup (r ++ acc) ∧
            (∀ x, x ∈ concat (r2 :: rs) → x ∉ r ++ acc) ∧
            NoDup (concat (r2 :: rs))) as (Hnd1 & Hdisj & Hnd2).
    { apply NoDup_app in Hnd as (H1 & H2 & H3).
      apply NoDup_app in H3 as (H4 & H5 & H6).
      split; [apply NoDup_app; set_solver|]. split; [set_solver|done]. }
    destruct (merge_spec priv cmp mfuel m pending list r acc)
      as (m1 & Hmerge & Hc1 & Hf1); try done.
    { rewrite !length_app in Hmfuel. lia. }
    rewrite Hmerge. sbind.
    set (out := merge_lists le_cmp r acc) in *.
    assert (out ≡ₚ r ++ acc) as Hperm by apply merge_lists_perm.
    assert (out ≠ []) as Hone by (apply merge_lists_not_nil; by destruct r).
    destruct (IH (r2 :: rs) out m1 q (hd NULL out))
      as (m' & rlast & acc' & Hrun & Hcl & Hca & Hlne & Hane' & Hfin & Hperm'
          & (rs0 & Hrs0 & Hacc') & Hf'); try done.
    { eapply pending_rep_frame; [by apply next_frame_frame| |set_solver|done].
      intros x Hx. by apply Hdisj. }
    { rewrite Hperm. apply NoDup_app. split; [done|]. split; [|done].
      intros x Hx Hin. by apply Hdisj in Hin. }
    { simpl in Hfuel |- *. lia. }
    { simpl concat. rewrite !length_app, Hperm, !length_app.
      rewrite !length_app in Hmfuel. lia. }
    exists m', rlast, acc'. split; [done|]. split; [done|]. split; [done|].
    split; [done|]. split; [done|]. split; [done|]. split.
    { rewrite Hperm', Hperm. rewrite <- !app_assoc.
      apply Permutation_app_swap_app. }
    split.
    { exists (r :: rs0). rewrite Hrs0. split; [done|]. done. }
    eapply frame_trans.
    + apply next_frame_frame. eapply next_frame_mono; [|done]. set_solver.
    + eapply frame_mono; [| |done]; [|done].
      intros x Hx. rewrite Hperm in Hx. set_solver.
Qed.

(** *** list_sort as a whole *)

Lemma ring_chain_open m head l0 z m1 :
  ring m head (l0 ++ [z]) → next_written m z NULL m1 →
  chain m1 (hd NULL (l0 ++ [z])) (l0 ++ [z]).
Proof.
  intros (Hhead & Hnull & Hnd & Hn & _) Hw. split; [|done].
  simpl in Hn. destruct Hn as (_ & first & Hfirst & Hn).
  pose proof (seg_hd _ _ _ _ Hn) as Hhd.
  replace (hd NULL (l0 ++ [z])) with first
    by (rewrite Hhd; by destruct l0).
  eapply seg_set_last; [exact Hn| |apply Hw].
  intros x Hx. apply (nw_next_ne _ _ _ _ Hw).
  apply NoDup_cons in Hnd as [_ Hnd].
  apply NoDup_app in Hnd as (_ & Hd & _). set_solver.
Qed.

Lemma list_sort_init_inv m head l :
  ring m head l → (2 ≤ length l)%nat →
  ∃ st0,
    list_sort_init m head = Some st0 ∧ ls_inv m l 0 st0 [].
Proof.
  intros Hr Hlen.
  assert (l ≠ []) as Hne by (intros ->; simpl in Hlen; lia).
  destruct (list_snoc_inv l Hne) as (l0 & z & ->).
  pose proof (ring_last _ _ _ _ Hr) as (Hlast & Hzh & Hz).
  destruct l0 as [|a l0]; [simpl in Hlen; lia|].
  pose proof (ring_first _ _ _ _ Hr) as (Hfirst & Hah & Ha).
  unfold list_sort_init. rewrite Hfirst, Hlast. sbind.
  destruct (store_next_Some m z NULL) as (m1 & -> & Hw).
  { eapply ring_allocated; [done|]. set_solver. }
  sbind. eexists. split; [done|]. unfold ls_inv. cbn [ls_mem ls_list
    ls_pending ls_count].
  split; [done|]. split.
  { rewrite drop_0. by apply (ring_chain_open m head (a :: l0) z). }
  split; [done|]. split; [done|]. split; [by exists []|].
  split; [constructor|]. split; [done|].
  eapply next_written_frame2; [|done]. set_solver.
Qed.

Lemma run_sizes_not_nil s d L : run_sizes s d L → 0 < d → L ≠ [].
Proof. destruct 1; [lia|done..]. Qed.

Lemma length_concat_ge (rs : list (list ptr)) :
  Forall (λ r, r ≠ []) rs → (length rs ≤ length (concat rs))%nat.
Proof.
  induction 1 as [|r rs Hr _ IH]; [done|]. simpl. rewrite length_app.
  destruct r; [done|]. simpl. lia.
Qed.

Theorem list_sort_spec fuel m head l :
  ring m head l → Z.of_nat (length l) < 2 ^ 64 → (length l < fuel)%nat →
  ∃ m' out,
    list_sort priv cmp fuel m head = Some m' ∧
    ring m' head out ∧ out ≡ₚ l ∧
    (∀ q, load_value m' q = load_value m q) ∧
    (cmp_total → Sorted cmp_le out) ∧
    (cmp_total → cmp_trans → ∀ C, tie_class C →
       List.filter C out = List.filter C l).
Proof.
  intros Hr Hlen Hfuel. unfold list_sort.
  destruct l as [|a [|b l]].
  - (* empty ring *)
    destruct (ring_empty _ _ Hr) as [-> ->]. sbind.
    rewrite decide_True by done. exists m, [].
    repeat split; try done; try apply Hr; intros; constructor.
  - (* one element *)
    pose proof (ring_first _ _ _ _ Hr) as (-> & _).
    pose proof (ring_last m head [] a Hr) as (-> & _). sbind.
    rewrite decide_True by done. exists m, [a].
    repeat split; try done; try apply Hr; intros; repeat constructor.
  - set (l0 := a :: b :: l) in *.
    assert (2 ≤ length l0)%nat as Hlen2 by (simpl; lia).
    pose proof Hr as (Hhead & Hnull & Hnd & _).
    apply NoDup_cons in Hnd as [Hhl Hnd].
    pose proof (ring_first _ _ _ _ Hr) as (Hfirst & _).
    destruct (list_snoc_inv (b :: l) ltac:(done)) as (l1 & z & Hlz).
    assert (l0 = (a :: l1) ++ [z]) as Hl0 by (unfold l0; by rewrite Hlz).
    pose proof Hr as Hr'. rewrite Hl0 in Hr'.
    pose proof (ring_last _ _ _ _ Hr') as (Hlast & _).
    rewrite Hfirst, Hlast. sbind.
    assert (a ≠ z) as Haz.
    { rewrite Hl0 in Hnd. simpl in Hnd. apply NoDup_cons in Hnd as [Ha _].
      set_solver. }
    rewrite decide_False by done.
    destruct (list_sort_init_inv m head l0 Hr Hlen2) as (st0 & Hinit & Hinv0).
    rewrite Hinit. sbind.
    destruct (list_sort_loop_inv fuel m l0 fuel 0 st0 [] Hinv0 Hnd Hlen)
      as (st & runs & Hloop & Hinv); [lia..|].
    rewrite Hloop. sbind.
    pose proof (ls_inv_runs_perm _ _ _ _ _ Hinv) as Hperm.
    rewrite firstn_all in Hperm.
    destruct Hinv as (Hrep & _ & _ & Hsizes & _ & Hsorted & Hstable & Hframe).
    rewrite firstn_all in Hstable.
    destruct runs as [|r0 rs]; [simpl in Hsizes; lia|].
    simpl in Hsizes. destruct Hsizes as [Hr0 Hsizes].
    assert (rs ≠ []) as Hrs.
    { intros ->. by apply run_sizes_not_nil in Hsizes; [|lia]. }
    pose proof (pending_rep_not_nil _ _ _ Hrep) as Hnn.
    apply Forall_cons in Hnn as [_ Hnn].
    simpl in Hrep. destruct Hrep as (Hr0ne & Hc0 & q & Hq & Hrest).
    rewrite Hq. sbind. simpl concat in Hperm.
    assert (NoDup (r0 ++ concat rs)) as Hnd0 by (by rewrite Hperm).
    destruct (merge_pending_spec fuel fuel rs r0 (ls_mem st) q (ls_pending st))
      as (m2 & rlast & acc' & Hmp & Hcl & Hca & Hlne & Hane & Hfin & Hperm2
          & _ & Hf2); try done.
    { pose proof (length_concat_ge rs Hnn). 
      assert (length (r0 ++ concat rs) = length l0) as Hl by (by rewrite Hperm).
      rewrite length_app in Hl. lia. }
    { rewrite Hperm. lia. }
    rewrite Hmp. sbind.
    assert (allocated m2 head) as Hah.
    { apply (fr_allocated _ _ _ _ Hf2), (fr_allocated _ _ _ _ Hframe).
      eapply ring_allocated; [done|]. set_solver. }
    destruct (merge_final_spec priv cmp fuel m2 head (hd NULL rlast)
                (hd NULL acc') rlast acc')
      as (m' & Hmf & Hring & Hf3); try done.
    { apply NoDup_cons. rewrite Hperm2, Hperm. done. }
    { rewrite <- length_app, Hperm2, Hperm. lia. }
    exists m', (final_order r0 rs). rewrite Hmf, <- Hfin.
    split; [done|]. split; [done|]. split.
    { by rewrite merge_lists_perm, Hperm2. }
    split.
    { intros x. rewrite (lf_value _ _ _ Hf3), (fr_value _ _ _ _ Hf2).
      apply Hframe. }
    rewrite Hfin. split.
    + intros Htot. specialize (Hsorted Htot).
      apply Forall_cons in Hsorted as [H0 Hs]. by apply final_order_sorted.
    + intros Htot Htr C HC. specialize (Hsorted Htot).
      apply Forall_cons in Hsorted as [H0 Hs].
      rewrite final_order_stable by done.
      rewrite <- (Hstable Htot Htr C HC). simpl.
      by rewrite concat_app; simpl; rewrite app_nil_r.
Qed.

End proofs.
End ListSortLoop.
(** ** Unlinking a node *)

Lemma free_spec m p m' :
  free m p = Some m' →
  load m' p = None ∧ ∀ q, q ≠ p → load m' q = load m q.
Proof.
  unfold free. destruct (load m p) eqn:E; [|done]. intros [= <-].
  unfold load. split.
  - destruct (decide (p = NULL)); [done|]. apply lookup_delete_eq.
  - intros q Hq. destruct (decide (q = NULL)); [done|].
    by apply lookup_delete_ne.
Qed.

Lemma hd_rev_last (l : list ptr) d : hd d (rev l) = List.last l d.
Proof.
  destruct l as [|a l] using rev_ind; [done|].
  by rewrite rev_unit, last_last.
Qed.

Lemma rev_mid (l1 : list ptr) x l2 :
  rev (l1 ++ x :: l2) = rev l2 ++ x :: rev l1.
Proof. rewrite rev_app_distr. simpl. by rewrite <- app_assoc. Qed.

Lemma last_rev_hd (l : list ptr) d : List.last (rev l) d = hd d l.
Proof. by rewrite <- hd_rev_last, rev_involutive. Qed.

(** In a segment, the successor of a node is the next node of the list, or
    the end of the segment. *)
Lemma seg_succ f p A x B e :
  seg f p (A ++ x :: B) e → f x = Some (hd e B).
Proof.
  rewrite seg_app. intros (q & _ & Hs). simpl in Hs.
  destruct Hs as (_ & q' & Hq' & Hs). apply seg_hd in Hs. by subst q'.
Qed.

(** Taking [x] out of a segment: its predecessor gets the successor of [x]
    as its successor. *)
Lemma seg_delete f g p A a x B e :
  seg f p ((A ++ [a]) ++ x :: B) e →
  a ∉ A → a ∉ B →
  g a = Some (hd e B) →
  (∀ y, y ∈ A ++ B → g y = f y) →
  seg g p ((A ++ [a]) ++ B) e.
Proof.
  intros Hs HaA HaB Hga Hg.
  apply seg_app in Hs as (q & H1 & H2).
  pose proof (seg_hd _ _ _ _ H1) as Hq.
  simpl in H2. destruct H2 as (-> & q' & Hq' & H2).
  apply seg_app. exists (hd e B). split.
  - eapply seg_set_last; [exact H1| |done].
    intros y Hy. apply Hg. set_solver.
  - pose proof (seg_hd _ _ _ _ H2) as ->.
    eapply seg_ext; [|done]. intros y Hy. symmetry. apply Hg. set_solver.
Qed.

Lemma ring_next_of m head l1 x l2 :
  ring m head (l1 ++ x :: l2) → load_next m x = Some (hd head l2).
Proof.
  intros (_ & _ & _ & Hn & _).
  change (head :: l1 ++ x :: l2) with ((head :: l1) ++ x :: l2) in Hn.
  by apply seg_succ in Hn.
Qed.

Lemma ring_prev_of m head l1 x l2 :
  ring m head (l1 ++ x :: l2) → load_prev m x = Some (List.last l1 head).
Proof.
  intros (_ & _ & _ & _ & Hp).
  rewrite rev_mid in Hp.
  change (head :: rev l2 ++ x :: rev l1)
    with ((head :: rev l2) ++ x :: rev l1) in Hp.
  apply seg_succ in Hp. by rewrite hd_rev_last in Hp.
Qed.

Lemma ring_mid_distinct m head l1 x l2 :
  ring m head (l1 ++ x :: l2) →
  x ≠ head ∧ x ≠ NULL ∧ (x ∉ l1) ∧ (x ∉ l2) ∧ List.last l1 head ≠ x ∧
  hd head l2 ≠ x.
Proof.
  intros (Hhead & Hnull & Hnd & _).
  apply NoDup_cons in Hnd as [Hh Hnd].
  apply NoDup_app in Hnd as (H1 & H2 & H3).
  apply NoDup_cons in H3 as [H3 H4].
  assert (x ∉ l1) as Hx1 by (intros Hin; apply (H2 _ Hin); by left).
  split; [set_solver|]. split; [set_solver|]. split; [done|].
  split; [done|]. split.
  - destruct l1 as [|a l1] using rev_ind; [simpl; set_solver|].
    rewrite last_last. set_solver.
  - destruct l2; simpl; set_solver.
Qed.

(** [list_del] on a node of a ring. *)
Lemma list_del_ring m head l1 x l2 :
  ring m head (l1 ++ x :: l2) →
  ∃ m',
    list_del m x = Some m' ∧
    ring m' head (l1 ++ l2) ∧
    (∀ q, load_value m' q = load_value m q) ∧
    (∀ q, allocated m' q ↔ allocated m q) ∧
    load m' x = load m x.
Proof.
  intros Hr.
  pose proof (ring_next_of _ _ _ _ _ Hr) as Hnx.
  pose proof (ring_prev_of _ _ _ _ _ Hr) as Hpv.
  pose proof (ring_mid_distinct _ _ _ _ _ Hr) as (Hxh & Hxn & Hx1 & Hx2 & Hpx
                                                  & Hnxx).
  set (nx := hd head l2) in *. set (pv := List.last l1 head) in *.
  assert (nx ∈ head :: l1 ++ x :: l2) as Hnxin.
  { unfold nx. destruct l2; simpl; set_solver. }
  assert (pv ∈ head :: l1 ++ x :: l2) as Hpvin.
  { unfold pv. destruct l1 as [|a l1] using rev_ind; [simpl; set_solver|].
    rewrite last_last. set_solver. }
  unfold list_del. rewrite Hnx, Hpv. sbind.
  destruct (store_prev_Some m nx pv) as (m1 & -> & Hw1);
    [by eapply ring_allocated|]. sbind.
  destruct (store_next_Some m1 pv nx) as (m2 & -> & Hw2).
  { apply (prev_written_allocated _ _ _ _ _ Hw1). by eapply ring_allocated. }
  exists m2. split; [done|].
  destruct Hr as (Hhead & Hnull & Hnd & Hn & Hp).
  assert (NoDup (head :: l1 ++ l2)) as Hnd'.
  { apply NoDup_cons in Hnd as [Hh Hnd].
    apply NoDup_app in Hnd as (H1 & H2 & H3).
    apply NoDup_cons in H3 as [H3 H4].
    apply NoDup_cons. split; [set_solver|]. apply NoDup_app. set_solver. }
  split; [|split; [|split]].
  - split; [done|]. split; [set_solver|]. split; [done|].
    apply NoDup_cons in Hnd' as [Hh' Hnd'].
    apply NoDup_app in Hnd' as (H1 & H2 & H3).
    split.
    + (* the [next] links *)
      destruct (list_snoc_inv (head :: l1) ltac:(done)) as (A & a & HA).
      assert (a = pv) as ->.
      { unfold pv. destruct l1 as [|b l1 _] using rev_ind.
        - destruct A as [|? [|? ?]]; simpl in HA; by simplify_eq.
        - rewrite last_last. rewrite app_comm_cons in HA.
          by apply app_inj_tail in HA as [_ ->]. }
      change (head :: l1 ++ x :: l2) with ((head :: l1) ++ x :: l2) in Hn.
      change (head :: l1 ++ l2) with ((head :: l1) ++ l2).
      rewrite HA in Hn |- *.
      assert (NoDup (A ++ [pv]) ∧ (∀ y, y ∈ l2 → y ∉ A ++ [pv]))
        as [HndA HdisjA].
      { rewrite <- HA. split; [apply NoDup_cons; split; [set_solver|done]|].
        intros y Hy. set_solver. }
      apply NoDup_app in HndA as (_ & HdA & _).
      eapply seg_delete; [exact Hn| | | |].
      * set_solver.
      * set_solver.
      * apply Hw2.
      * intros y Hy. rewrite (nw_next_ne _ _ _ _ Hw2) by set_solver.
        apply Hw1.
    + (* the [prev] links *)
      rewrite rev_mid in Hp. rewrite rev_app_distr.
      destruct (list_snoc_inv (head :: rev l2) ltac:(done)) as (A & a & HA).
      assert (a = nx) as ->.
      { unfold nx. rewrite <- last_rev_hd.
        destruct (rev l2) as [|b r _] using rev_ind.
        - destruct A as [|? [|? ?]]; simpl in HA; by simplify_eq.
        - rewrite last_last. rewrite app_comm_cons in HA.
          by apply app_inj_tail in HA as [_ ->]. }
      change (head :: rev l2 ++ x :: rev l1)
        with ((head :: rev l2) ++ x :: rev l1) in Hp.
      change (head :: rev l2 ++ rev l1) with ((head :: rev l2) ++ rev l1).
      rewrite HA in Hp |- *.
      assert (NoDup (A ++ [nx]) ∧ (∀ y, y ∈ rev l1 → y ∉ A ++ [nx]))
        as [HndA HdisjA].
      { rewrite <- HA. split.
        - apply NoDup_cons. split; [rewrite elem_of_rev; set_solver|].
          apply NoDup_ListNoDup, NoDup_rev, NoDup_ListNoDup. done.
        - intros y Hy Hin. rewrite elem_of_rev in Hy.
          apply elem_of_cons in Hin as [->|Hin].
          + apply Hh'. apply elem_of_app. by left.
          + rewrite elem_of_rev in Hin. by apply (H2 y). }
      apply NoDup_app in HndA as (_ & HdA & _).
      eapply seg_delete; [exact Hp| | | |].
      * set_solver.
      * intros Hin. apply (HdisjA _ Hin). set_solver.
      * rewrite hd_rev_last. fold pv.
        rewrite (nw_prev _ _ _ _ Hw2). apply Hw1.
      * intros y Hy. rewrite (nw_prev _ _ _ _ Hw2).
        apply (pw_prev_ne _ _ _ _ Hw1). intros ->.
        apply elem_of_app in Hy as [Hy|Hy]; [set_solver|].
        apply (HdisjA _ Hy). set_solver.
  - intros q. by rewrite (nw_value _ _ _ _ Hw2), (pw_value _ _ _ _ Hw1).
  - intros q. rewrite (next_written_allocated _ _ _ _ _ Hw2).
    by apply (prev_written_allocated _ _ _ _ _ Hw1).
  - rewrite (nw_load_ne _ _ _ _ Hw2) by done.
    by apply (pw_load_ne _ _ _ _ Hw1).
Qed.

(** A heap that agrees with [m] on all nodes of a ring holds the same
    ring. *)
Lemma ring_ext m m' head l :
  (∀ q, q ∈ head :: l → load m' q = load m q) →
  ring m head l → ring m' head l.
Proof.
  intros Hext (Hhead & Hnull & Hnd & Hn & Hp).
  split; [done|]. split; [done|]. split; [done|]. split.
  - eapply seg_ext; [|done]. intros y Hy. unfold load_next.
    by rewrite Hext.
  - eapply seg_ext; [|done]. intros y Hy. unfold load_prev.
    rewrite Hext; [done|]. apply elem_of_cons in Hy as [->|Hy]; [by left|].
    right. by rewrite elem_of_rev in Hy.
Qed.

(** [list_del] followed by [q_release_element], as the filters do it. *)
Lemma delete_node_ring m head l1 x l2 :
  ring m head (l1 ++ x :: l2) → is_Some (load_value m x) →
  ∃ m1 m',
    list_del m x = Some m1 ∧ q_release_element m1 x = Some m' ∧
    ring m' head (l1 ++ l2) ∧
    load m' x = None ∧
    (∀ q, q ≠ x → load_value m' q = load_value m q) ∧
    (∀ q, q ≠ x → allocated m' q ↔ allocated m q).
Proof.
  intros Hr [v Hv].
  pose proof (ring_mid_distinct _ _ _ _ _ Hr) as (Hxh & Hxn & Hx1 & Hx2 & _).
  destruct (list_del_ring _ _ _ _ _ Hr) as (m1 & Hdel & Hr1 & Hval & Hal & Hx).
  exists m1. unfold q_release_element. rewrite Hval, Hv. sbind.
  assert (is_Some (load m1 x)) as [n Hn].
  { apply Hal. by eapply load_value_allocated. }
  unfold free. rewrite Hn. eexists. split; [done|]. split; [done|].
  assert (free m1 x = Some (delete x m1)) as Hfree
    by (unfold free; by rewrite Hn).
  destruct (free_spec _ _ _ Hfree) as [Hgone Hother].
  split; [|split; [done|split]].
  - eapply ring_ext; [|done]. intros q Hq. apply Hother. set_solver.
  - intros q Hq. unfold load_value. rewrite Hother by done. apply Hval.
  - intros q Hq. unfold allocated. rewrite Hother by done. apply Hal.
Qed.

(** ** q_ascend and q_descend *)

(** The common shape of the two loops; [test] is applied to
    [strcmp(curr_ele->value, prev_ele->value)]. *)
Fixpoint monotone_loop (test : Z → bool) (fuel : nat) (m : mem)
    (head nd : ptr) : option mem :=
  pv ← load_prev m nd;
  if decide (pv = head) then Some m
  else match fuel with
       | O => None
       | S f =>
           vc ← load_value m nd;
           vp ← load_value m pv;
           if test (strcmp vc vp) then
             m1 ← list_del m pv;
             m2 ← q_release_element m1 pv;
             monotone_loop test f m2 head nd
           else monotone_loop test f m head pv
       end.

Lemma q_ascend_loop_eq fuel :
  ∀ m head nd,
    q_ascend_loop fuel m head nd = monotone_loop (λ c, c <? 0) fuel m head nd.
Proof.
  induction fuel as [|fuel IH]; intros m head nd; [done|].
  cbn [q_ascend_loop monotone_loop].
  destruct (load_prev m nd) as [pv|]; [|done]. sbind.
  destruct (decide (pv = head)); [done|].
  destruct (load_value m nd) as [vc|]; [|done]. sbind.
  destruct (load_value m pv) as [vp|]; [|done]. sbind.
  destruct (strcmp vc vp <? 0); [|apply IH].
  destruct (list_del m pv) as [m1|]; [|done]. sbind.
  destruct (q_release_element m1 pv) as [m2|]; [|done]. sbind. apply IH.
Qed.

Lemma q_descend_loop_eq fuel :
  ∀ m head nd,
    q_descend_loop fuel m head nd = monotone_loop (λ c, 0 <? c) fuel m head nd.
Proof.
  induction fuel as [|fuel IH]; intros m head nd; [done|].
  cbn [q_descend_loop monotone_loop].
  destruct (load_prev m nd) as [pv|]; [|done]. sbind.
  destruct (decide (pv = head)); [done|].
  destruct (load_value m nd) as [vc|]; [|done]. sbind.
  destruct (load_value m pv) as [vp|]; [|done]. sbind.
  destruct (0 <? strcmp vc vp); [|apply IH].
  destruct (list_del m pv) as [m1|]; [|done]. sbind.
  destruct (q_release_element m1 pv) as [m2|]; [|done]. sbind. apply IH.
Qed.

Section monotone.

Context (val : ptr → string) (test : Z → bool).

(** What the backward walk keeps: [rp] are the nodes in front of [nd],
    nearest first, [post] the nodes already kept behind it. *)
Fixpoint monotone_pure (rp : list ptr) (nd : ptr) (post : list ptr)
    : list ptr :=
  match rp with
  | [] => nd :: post
  | p :: rp' =>
      if test (strcmp (val nd) (val p)) then monotone_pure rp' nd post
      else monotone_pure rp' p (nd :: post)
  end.

Lemma monotone_pure_sublist rp :
  ∀ nd post, monotone_pure rp nd post `sublist_of` rev rp ++ nd :: post.
Proof.
  induction rp as [|p rp IH]; intros nd post; [done|]. simpl.
  rewrite <- app_assoc. simpl.
  destruct (test (strcmp (val nd) (val p))); [|apply IH].
  etrans; [apply IH|]. apply sublist_app; [done|]. by apply sublist_cons.
Qed.

Lemma monotone_pure_Sorted (R : ptr → ptr → Prop) rp :
  (∀ a b, test (strcmp (val a) (val b)) = false → R b a) →
  ∀ nd post, Sorted R (nd :: post) → Sorted R (monotone_pure rp nd post).
Proof.
  intros HR. induction rp as [|p rp IH]; intros nd post Hs; [done|]. simpl.
  destruct (test (strcmp (val nd) (val p))) eqn:E; [by apply IH|].
  apply IH. constructor; [done|]. constructor. by apply HR.
Qed.

Lemma monotone_loop_spec head rp :
  ∀ nd post fuel m,
    ring m head (rev rp ++ nd :: post) →
    payloads m val (rev rp ++ nd :: post) →
    (length rp ≤ fuel)%nat →
    ∃ m',
      monotone_loop test fuel m head nd = Some m' ∧
      ring m' head (monotone_pure rp nd post) ∧
      payloads m' val (monotone_pure rp nd post) ∧
      (∀ q, q ∈ rev rp ++ nd :: post → q ∉ monotone_pure rp nd post →
            load m' q = None) ∧
      (∀ q, q ∉ rp →
            load_value m' q = load_value m q ∧
            (allocated m' q ↔ allocated m q)).
Proof.
  induction rp as [|p rp IH]; intros nd post fuel m Hr Hval Hfuel.
  - simpl in *. exists m.
    pose proof (ring_prev_of m head [] nd post Hr) as Hpv. simpl in Hpv.
    split; [|split; [done|split; [done|split; [done|done]]]].
    destruct fuel; cbn [monotone_loop]; rewrite Hpv; sbind;
      by rewrite decide_True.
  - simpl rev in *. rewrite <- app_assoc in Hr, Hval. simpl in Hr, Hval.
    pose proof Hr as Hr0.
    change (rev rp ++ p :: nd :: post) with (rev rp ++ [p] ++ nd :: post) in Hr0.
    rewrite app_assoc in Hr0.
    pose proof (ring_prev_of _ _ _ _ _ Hr0) as Hpv.
    rewrite last_last in Hpv.
    pose proof (ring_mid_distinct _ _ _ _ _ Hr) as (Hph & _).
    destruct fuel as [|fuel]; [simpl in Hfuel; lia|].
    cbn [monotone_loop]. rewrite Hpv. sbind. rewrite decide_False by done.
    rewrite (Hval nd), (Hval p) by set_solver. sbind.
    cbn [monotone_pure].
    destruct (test (strcmp (val nd) (val p))) eqn:E.
    + destruct (delete_node_ring m head (rev rp) p (nd :: post) Hr)
        as (m1 & m2 & Hdel & Hrel & Hr2 & Hgone & Hval2 & Hal2).
      { rewrite (Hval p) by set_solver. eauto. }
      rewrite Hdel. sbind. rewrite Hrel. sbind.
      pose proof (ring_mid_distinct _ _ _ _ _ Hr) as (_ & _ & Hp1 & Hp2 & _).
      destruct (IH nd post fuel m2 Hr2) as (m' & Hrun & Hr' & Hval' & Hfreed
                                            & Hother).
      { intros q Hq. rewrite Hval2 by set_solver. apply Hval. set_solver. }
      { simpl in Hfuel. lia. }
      exists m'. split; [done|]. split; [done|]. split; [done|].
      pose proof (monotone_pure_sublist rp nd post) as Hsub.
      split.
      * intros q Hq Hnot. rewrite <- app_assoc in Hq. simpl in Hq.
        destruct (decide (q = p)) as [->|Hqp].
        -- assert (p ∉ rp) as Hprp by (by rewrite <- elem_of_rev).
           destruct (Hother p Hprp) as [_ Hal'].
           destruct (load m' p) eqn:El; [|done].
           assert (allocated m2 p) as [? Hc] by (apply Hal'; by eexists).
           congruence.
        -- apply Hfreed; [set_solver|done].
      * intros q Hq. destruct (Hother q) as [-> ->]; [set_solver|].
        split; [apply Hval2|apply Hal2]; set_solver.
    + destruct (IH p (nd :: post) fuel m Hr) as (m' & Hrun & Hr' & Hval' & Hfreed
                                                 & Hother); [done| |].
      { simpl in Hfuel. lia. }
      exists m'. split; [done|]. split; [done|]. split; [done|]. split.
      * intros q Hq Hnot. rewrite <- app_assoc in Hq. by apply Hfreed.
      * intros q Hq. apply Hother. set_solver.
Qed.

End monotone.

Section ascend_descend.

Context (val : ptr → string).

(** Non-decreasing payloads: no node is followed, anywhere later, by a node
    with a strictly smaller payload. *)
Definition no_smaller_later (a b : ptr) : Prop :=
  ¬ strcmp (val b) (val a) < 0.

(** Non-increasing payloads. *)
Definition no_greater_later (a b : ptr) : Prop :=
  ¬ 0 < strcmp (val b) (val a).

Lemma no_smaller_later_trans a b c :
  no_smaller_later a b → no_smaller_later b c → no_smaller_later a c.
Proof.
  unfold no_smaller_later. intros H1 H2.
  pose proof (strcmp_flip_neg (val b) (val a)).
  pose proof (strcmp_flip_neg (val c) (val b)).
  pose proof (strcmp_flip_neg (val c) (val a)).
  pose proof (strcmp_trans (val a) (val b) (val c)). lia.
Qed.

Lemma no_greater_later_trans a b c :
  no_greater_later a b → no_greater_later b c → no_greater_later a c.
Proof.
  unfold no_greater_later. intros H1 H2.
  pose proof (strcmp_trans (val c) (val b) (val a)). lia.
Qed.

Lemma monotone_top test fuel m head l (R : ptr → ptr → Prop) loop :
  (∀ fuel m nd, loop fuel m head nd = monotone_loop test fuel m head nd) →
  (∀ a b, test (strcmp (val a) (val b)) = false → R b a) →
  (∀ a b c, R a b → R b c → R a c) →
  ring m head l → payloads m val l → (length l ≤ fuel)%nat →
  ∃ m' out,
    (if decide (head = NULL) then Some (m, 0)
     else e ← list_empty m head;
          if e : bool then Some (m, 0)
          else nd ← load_prev m head;
               m1 ← loop fuel m head nd;
               Some (m1, 0)) = Some (m', 0) ∧
    ring m' head out ∧ out `sublist_of` l ∧ StronglySorted R out ∧
    payloads m' val out ∧
    (∀ q, q ∈ l → q ∉ out → load m' q = None) ∧
    (∀ q, q ∉ l →
       load_value m' q = load_value m q ∧ (allocated m' q ↔ allocated m q)).
Proof.
  intros Hloop HR Htr Hr Hval Hfuel.
  pose proof Hr as (Hhead & _).
  rewrite decide_False by done.
  rewrite (ring_list_empty _ _ _ Hr). sbind.
  destruct (decide (l = [])) as [->|Hne].
  { rewrite bool_decide_eq_true_2 by done. exists m, [].
    split; [done|]. split; [done|]. split; [done|]. split; [constructor|].
    split; [done|]. split; [set_solver|done]. }
  rewrite bool_decide_eq_false_2 by done.
  destruct (list_snoc_inv l Hne) as (l0 & z & ->).
  pose proof (ring_last _ _ _ _ Hr) as (-> & _). sbind.
  rewrite Hloop.
  destruct (monotone_loop_spec val test head (rev l0) z [] fuel m)
    as (m' & Hrun & Hr' & Hval' & Hfreed & Hother).
  { by rewrite rev_involutive. } { by rewrite rev_involutive. }
  { rewrite length_rev. rewrite length_app in Hfuel. simpl in Hfuel. lia. }
  rewrite Hrun. sbind. exists m', (monotone_pure val test (rev l0) z []).
  split; [done|]. split; [done|]. split.
  { pose proof (monotone_pure_sublist val test (rev l0) z []) as Hs.
    by rewrite rev_involutive in Hs. }
  split.
  { apply Sorted_StronglySorted; [exact Htr|].
    apply monotone_pure_Sorted; [done|]. repeat constructor. }
  split; [done|]. split.
  - intros q Hq. apply Hfreed. by rewrite rev_involutive.
  - intros q Hq. apply Hother. rewrite elem_of_rev. set_solver.
Qed.

Theorem q_ascend_spec fuel m head l :
  ring m head l → payloads m val l → (length l ≤ fuel)%nat →
  ∃ m' out,
    q_ascend fuel m head = Some (m', 0) ∧
    ring m' head out ∧ out `sublist_of` l ∧
    StronglySorted no_smaller_later out ∧
    payloads m' val out ∧
    (∀ q, q ∈ l → q ∉ out → load m' q = None) ∧
    (∀ q, q ∉ l →
       load_value m' q = load_value m q ∧ (allocated m' q ↔ allocated m q)).
Proof.
  intros Hr Hval Hfuel. unfold q_ascend.
  apply (monotone_top (λ c, c <? 0) fuel m head l no_smaller_later
           q_ascend_loop); try done.
  - intros. apply q_ascend_loop_eq.
  - intros a b. unfold no_smaller_later. lia.
  - apply no_smaller_later_trans.
Qed.

Theorem q_descend_spec fuel m head l :
  ring m head l → payloads m val l → (length l ≤ fuel)%nat →
  ∃ m' out,
    q_descend fuel m head = Some (m', 0) ∧
    ring m' head out ∧ out `sublist_of` l ∧
    StronglySorted no_greater_later out ∧
    payloads m' val out ∧
    (∀ q, q ∈ l → q ∉ out → load m' q = None) ∧
    (∀ q, q ∉ l →
       load_value m' q = load_value m q ∧ (allocated m' q ↔ allocated m q)).
Proof.
  intros Hr Hval Hfuel. unfold q_descend.
  apply (monotone_top (λ c, 0 <? c) fuel m head l no_greater_later
           q_descend_loop); try done.
  - intros. apply q_descend_loop_eq.
  - intros a b. unfold no_greater_later. lia.
  - apply no_greater_later_trans.
Qed.

End ascend_descend.
(** ** q_delete_dup *)

Section delete_dup.

Context (val : ptr → string).

(** Equal payloads. *)
Definition same_val (a b : ptr) : Prop := strcmp (val a) (val b) = 0.

(** What the forward pass keeps of the nodes [rest] still ahead. *)
Fixpoint delete_dup_pure (is_dup : bool) (rest : list ptr) : list ptr :=
  match rest with
  | [] => []
  | c :: rest' =>
      let same := match rest' with
                  | n :: _ => strcmp (val c) (val n) =? 0
                  | [] => false
                  end in
      if same then delete_dup_pure true rest'
      else if is_dup then delete_dup_pure false rest'
      else c :: delete_dup_pure false rest'
  end.

Lemma delete_dup_pure_sublist rest :
  ∀ d, delete_dup_pure d rest `sublist_of` rest.
Proof.
  induction rest as [|c rest IH]; intros d; [done|]. cbn [delete_dup_pure].
  cbv zeta.
  destruct (match rest with n :: _ => strcmp (val c) (val n) =? 0
            | [] => false end); [by apply sublist_cons|].
  destruct d; [by apply sublist_cons|by apply sublist_skip].
Qed.

Lemma delete_dup_loop_spec head rest :
  ∀ kept fuel m is_dup curr safe,
    ring m head (kept ++ rest) → payloads m val (kept ++ rest) →
    curr = hd head rest → (rest ≠ [] → safe = hd head (tl rest)) →
    (length rest ≤ fuel)%nat →
    ∃ m',
      delete_dup_loop fuel m head curr safe is_dup = Some m' ∧
      ring m' head (kept ++ delete_dup_pure is_dup rest) ∧
      payloads m' val (kept ++ delete_dup_pure is_dup rest) ∧
      (∀ q, q ∈ rest → q ∉ delete_dup_pure is_dup rest → load m' q = None) ∧
      (∀ q, q ∉ rest →
         load_value m' q = load_value m q ∧ (allocated m' q ↔ allocated m q)).
Proof.
  induction rest as [|c rest IH];
    intros kept fuel m is_dup curr safe Hr Hval -> Hsafe Hfuel.
  - simpl. exists m. split; [|by rewrite app_nil_r in *].
    destruct fuel; cbn [delete_dup_loop]; by rewrite decide_True.
  - specialize (Hsafe ltac:(done)). simpl in Hsafe. subst safe. simpl hd.
    pose proof (ring_mid_distinct _ _ _ _ _ Hr) as (Hch & Hcn & Hc1 & Hc2 & _
                                                    & Hnc).
    pose proof (ring_next_of _ _ _ _ _ Hr) as Hnx.
    destruct fuel as [|fuel]; [simpl in Hfuel; lia|].
    cbn [delete_dup_loop]. rewrite decide_False by done. rewrite Hnx. sbind.
    cbn [delete_dup_pure]. cbv zeta.
    set (same := match rest with n :: _ => strcmp (val c) (val n) =? 0
                 | [] => false end).
    assert ((if decide (hd head rest = head) then Some false
             else vc ← load_value m c; vn ← load_value m (hd head rest);
                  Some (strcmp vc vn =? 0)) = Some same) as ->.
    { destruct rest as [|n rest]; [simpl; by rewrite decide_True|].
      simpl hd. rewrite decide_False.
      - rewrite (Hval c), (Hval n) by set_solver. done.
      - destruct Hr as (_ & _ & Hnd & _).
        apply NoDup_cons in Hnd as [Hh _]. set_solver. }
    sbind.
    assert (∀ m1 dup1,
      ring m1 head (kept ++ rest) → payloads m1 val (kept ++ rest) →
      load m1 c = None →
      (∀ q, q ≠ c → load_value m1 q = load_value m q) →
      (∀ q, q ≠ c → allocated m1 q ↔ allocated m q) →
      ∃ m', (sn ← load_next m1 (hd head rest);
             delete_dup_loop fuel m1 head (hd head rest) sn dup1) = Some m' ∧
        ring m' head (kept ++ delete_dup_pure dup1 rest) ∧
        payloads m' val (kept ++ delete_dup_pure dup1 rest) ∧
        (∀ q, q ∈ c :: rest → q ∉ delete_dup_pure dup1 rest →
              load m' q = None) ∧
        (∀ q, q ∉ c :: rest →
           load_value m' q = load_value m q ∧
           (allocated m' q ↔ allocated m q))) as Hdeleted.
    { intros m1 dup1 Hr1 Hval1 Hgone Hv1 Ha1.
      assert (is_Some (load_next m1 (hd head rest))) as [sn Hsn].
      { apply allocated_next. eapply ring_allocated; [done|].
        destruct rest; simpl; set_solver. }
      rewrite Hsn. sbind.
      destruct (IH kept fuel m1 dup1 (hd head rest) sn Hr1 Hval1 eq_refl)
        as (m' & Hrun & Hr' & Hval' & Hfreed & Hother).
      { intros Hne. destruct rest as [|n rest]; [done|]. simpl in *.
        pose proof (ring_next_of _ _ _ _ _ Hr1) as Hn. congruence. }
      { simpl in Hfuel. lia. }
      exists m'. split; [done|]. split; [done|]. split; [done|]. split.
      - intros q Hq Hnot. apply elem_of_cons in Hq as [->|Hq]; [|by apply Hfreed].
        destruct (Hother c Hc2) as [_ Hal].
        destruct (load m' c) eqn:El; [|done].
        assert (allocated m1 c) as [? Hc] by (apply Hal; by eexists).
        congruence.
      - intros q Hq. destruct (Hother q) as [-> ->]; [set_solver|].
        split; [apply Hv1|apply Ha1]; set_solver. }
    assert (∃ m1 m2,
      list_del m c = Some m1 ∧ q_release_element m1 c = Some m2 ∧
      ring m2 head (kept ++ rest) ∧ payloads m2 val (kept ++ rest) ∧
      load m2 c = None ∧
      (∀ q, q ≠ c → load_value m2 q = load_value m q) ∧
      (∀ q, q ≠ c → allocated m2 q ↔ allocated m q)) as Hdel.
    { destruct (delete_node_ring m head kept c rest Hr)
        as (m1 & m2 & Hdel & Hrel & Hr2 & Hgone & Hval2 & Hal2).
      { rewrite (Hval c) by set_solver. eauto. }
      exists m1, m2. split; [done|]. split; [done|]. split; [done|].
      split; [|done].
      intros q Hq. rewrite Hval2 by set_solver. apply Hval. set_solver. }
    destruct same eqn:Esame; [|destruct is_dup].
    + destruct Hdel as (m1 & m2 & -> & Hrel & Hr2 & Hval2 & Hgone & Hv2 & Ha2).
      sbind. rewrite Hrel. sbind. by apply Hdeleted.
    + destruct Hdel as (m1 & m2 & -> & Hrel & Hr2 & Hval2 & Hgone & Hv2 & Ha2).
      sbind. rewrite Hrel. sbind. by apply Hdeleted.
    + sbind.
      assert (is_Some (load_next m (hd head rest))) as [sn Hsn].
      { apply allocated_next. eapply ring_allocated; [done|].
        destruct rest; simpl; set_solver. }
      rewrite Hsn. sbind.
      replace (kept ++ c :: rest) with ((kept ++ [c]) ++ rest) in Hr, Hval
        by (by rewrite <- app_assoc).
      destruct (IH (kept ++ [c]) fuel m false (hd head rest) sn Hr Hval eq_refl)
        as (m' & Hrun & Hr' & Hval' & Hfreed & Hother).
      { intros Hne. destruct rest as [|n rest]; [done|]. simpl in *.
        pose proof (ring_next_of _ _ _ _ _ Hr) as Hn. congruence. }
      { simpl in Hfuel. lia. }
      rewrite <- !app_assoc in Hr', Hval'. simpl in Hr', Hval'.
      exists m'. split; [done|]. split; [done|]. split; [done|]. split.
      * intros q Hq Hnot. apply Hfreed; set_solver.
      * intros q Hq. apply Hother. set_solver.
Qed.

Lemma same_val_sandwich a b c :
  le_val val a b → le_val val b c → same_val a c →
  same_val a b ∧ same_val b c.
Proof.
  unfold le_val, same_val. intros Hab Hbc Hac.
  pose proof (strcmp_flip_zero (val a) (val c)).
  pose proof (strcmp_trans (val b) (val c) (val a)).
  pose proof (strcmp_trans (val c) (val a) (val b)).
  pose proof (strcmp_flip_neg (val a) (val b)).
  pose proof (strcmp_flip_neg (val b) (val c)).
  pose proof (strcmp_flip_neg (val b) (val a)).
  pose proof (strcmp_flip_neg (val c) (val b)). lia.
Qed.

Lemma StronglySorted_app_le (R : ptr → ptr → Prop) l1 l2 :
  StronglySorted R (l1 ++ l2) → ∀ a b, a ∈ l1 → b ∈ l2 → R a b.
Proof.
  induction l1 as [|x l1 IH]; intros Hs a b Ha Hb; [set_solver|].
  simpl in Hs. apply StronglySorted_inv in Hs as [Hs Hall].
  apply elem_of_cons in Ha as [->|Ha]; [|by apply IH].
  rewrite List.Forall_forall in Hall. apply Hall.
  apply list_elem_of_In. set_solver.
Qed.

Lemma StronglySorted_app_r (R : ptr → ptr → Prop) l1 l2 :
  StronglySorted R (l1 ++ l2) → StronglySorted R l2.
Proof.
  induction l1 as [|x l1 IH]; [done|]. simpl. intros Hs.
  apply StronglySorted_inv in Hs as [Hs _]. auto.
Qed.

(** [x] is the only node of [l] with its payload. *)
Definition only_one (l : list ptr) (x : ptr) : Prop :=
  ∀ y, y ∈ l → y ≠ x → ¬ same_val x y.

Lemma delete_dup_pure_char rest :
  ∀ pre d,
    StronglySorted (le_val val) (pre ++ rest) → NoDup (pre ++ rest) →
    (d = true ↔ ∃ p c, last pre = Some p ∧ head rest = Some c ∧ same_val p c) →
    ∀ x, x ∈ delete_dup_pure d rest ↔ x ∈ rest ∧ only_one (pre ++ rest) x.
Proof.
  induction rest as [|c rest IH]; intros pre d Hs Hnd Hd x; [set_solver|].
  cbn [delete_dup_pure]. cbv zeta.
  set (same := match rest with n :: _ => strcmp (val c) (val n) =? 0
               | [] => false end).
  assert (same = true ↔ ∃ n, head rest = Some n ∧ same_val c n) as Hsame.
  { unfold same, same_val. destruct rest as [|n rest]; simpl.
    - split; [done|]. by intros (n & ? & _).
    - rewrite Z.eqb_eq. split; [eauto|]. by intros (n' & [= <-] & ?). }
  assert (pre ++ c :: rest = (pre ++ [c]) ++ rest) as Happ
    by (by rewrite <- app_assoc).
  assert (∀ d', (d' = true ↔ same = true) →
            (x ∈ delete_dup_pure d' rest ↔
             x ∈ rest ∧ only_one (pre ++ c :: rest) x)) as HIH.
  { intros d' Hd'. rewrite Happ. apply IH; [by rewrite <- Happ..|].
    rewrite Hd', Hsame, last_snoc. split.
    - intros (n & Hn & Hcn). eauto.
    - intros (p & n & [= <-] & Hn & Hcn). eauto. }
  assert (c ∉ rest) as Hcrest.
  { apply NoDup_app in Hnd as (_ & _ & Hnd).
    by apply NoDup_cons in Hnd as [? _]. }
  destruct same eqn:Esame.
  - (* [c] has the payload of its successor: it goes *)
    rewrite (HIH true) by done. split; [set_solver|].
    intros [Hx Hone]. split; [|done].
    apply elem_of_cons in Hx as [->|Hx]; [|done]. exfalso.
    destruct (proj1 Hsame eq_refl) as (n & Hn & Hcn).
    assert (n ∈ rest) as Hnin by (destruct rest; simplify_eq/=; by left).
    apply (Hone n); [set_solver| |done]. by intros ->.
  - assert (¬ ∃ n, head rest = Some n ∧ same_val c n) as Hno
      by (rewrite <- Hsame; congruence).
    destruct d.
    + (* [c] is the last member of a run of equal payloads: it goes *)
      rewrite (HIH false) by done. split; [set_solver|].
      intros [Hx Hone]. split; [|done].
      apply elem_of_cons in Hx as [->|Hx]; [|done]. exfalso.
      destruct (proj1 Hd eq_refl) as (p & c' & Hp & [= <-] & Hpc).
      assert (p ∈ pre) as Hpin.
      { destruct pre as [|? ? _] using rev_ind; [done|].
        rewrite last_snoc in Hp. set_solver. }
      apply (Hone p); [set_solver| |].
      * intros ->. apply NoDup_app in Hnd as (_ & Hdisj & _).
        apply (Hdisj _ Hpin). by left.
      * unfold same_val in *. by apply strcmp_flip_zero.
    + (* [c] stays *)
      rewrite elem_of_cons, (HIH false) by done.
      split; [intros [->|[? ?]]|].
      * split; [by left|]. intros y Hy Hyc Hcy.
        apply elem_of_app in Hy as [Hy|Hy].
        -- (* an equal payload in front of [c] *)
           destruct pre as [|p pre _] using rev_ind; [set_solver|].
           assert (true = true) as _ by done.
           assert (same_val p c) as Hpc.
           { rewrite <- app_assoc in Hs. simpl in Hs.
             apply elem_of_app in Hy as [Hy|Hy].
             - pose proof (StronglySorted_app_le _ _ _ Hs y p Hy
                             ltac:(by left)) as Hyp.
               apply StronglySorted_app_r in Hs.
               apply StronglySorted_inv in Hs as [_ Hall].
               rewrite List.Forall_forall in Hall.
               assert (le_val val p c) as Hpc by (apply Hall; by left).
               apply (same_val_sandwich y p c); [done..|].
               unfold same_val in *. by apply strcmp_flip_zero.
             - apply list_elem_of_singleton in Hy as ->.
               unfold same_val in *. by apply strcmp_flip_zero. }
           assert (false = true) as Habs; [|done].
           apply Hd. exists p, c. by rewrite last_snoc.
        -- apply elem_of_cons in Hy as [->|Hy]; [done|].
           destruct rest as [|n rest]; [set_solver|].
           apply Hno. exists n. split; [done|].
           apply StronglySorted_app_r in Hs.
           apply StronglySorted_inv in Hs as [Hs Hall].
           rewrite List.Forall_forall in Hall.
           assert (le_val val c n) as Hcn by (apply Hall; by left).
           apply elem_of_cons in Hy as [->|Hy]; [done|].
           apply StronglySorted_inv in Hs as [_ Hall'].
           rewrite List.Forall_forall in Hall'.
           assert (le_val val n y) as Hny
             by (apply Hall'; by apply list_elem_of_In).
           by apply (same_val_sandwich c n y).
      * split; [by right|done].
      * intros [Hx Hone]. apply elem_of_cons in Hx as [->|Hx]; [by left|].
        right. done.
Qed.

Theorem q_delete_dup_spec fuel m head l :
  ring m head l → l ≠ [] → payloads m val l →
  Sorted (le_val val) l → (length l ≤ fuel)%nat →
  ∃ m' out,
    q_delete_dup fuel m head = Some (m', true) ∧
    ring m' head out ∧ out `sublist_of` l ∧
    (∀ x, x ∈ out ↔ x ∈ l ∧ only_one l x) ∧
    payloads m' val out ∧
    (∀ q, q ∈ l → q ∉ out → load m' q = None).
Proof.
  intros Hr Hne Hval Hs Hfuel. unfold q_delete_dup.
  pose proof Hr as (Hhead & _ & Hnd & _).
  rewrite decide_False by done.
  rewrite (ring_list_empty _ _ _ Hr). sbind.
  rewrite bool_decide_eq_false_2 by done.
  destruct l as [|c rest]; [done|].
  pose proof (ring_first _ _ _ _ Hr) as (-> & _). sbind.
  pose proof (ring_next_of m head [] c rest Hr) as ->. sbind.
  destruct (delete_dup_loop_spec head (c :: rest) [] fuel m false c
              (hd head rest) Hr Hval eq_refl)
    as (m' & Hrun & Hr' & Hval' & Hfreed & _); [done..|].
  rewrite Hrun. sbind. exists m', (delete_dup_pure false (c :: rest)).
  split; [done|]. split; [done|]. split; [apply delete_dup_pure_sublist|].
  split; [|done].
  apply (delete_dup_pure_char (c :: rest) [] false).
  - apply Sorted_StronglySorted; [|done].
    intros x y z. apply strcmp_trans.
  - by apply NoDup_cons in Hnd as [_ ?].
  - split; [done|]. by intros (p & ? & ? & _).
Qed.

End delete_dup.
(** ** q_remove_head and q_remove_tail *)

(** What [copy_out] leaves in a buffer [b] for the payload [v]: the first
    [bufsize - 1] bytes are the bytes of [v], cut or padded with NUL to that
    length; byte [bufsize - 1] is NUL; the rest of [b] is as it was. *)
Definition copied (v : string) (bufsize : Z) (b : list ascii) : list ascii :=
  let k := Z.to_nat (bufsize - 1) in
  take k (cstring v ++ replicate k NUL) ++ NUL :: drop (S k) b.

Lemma copy_out_Some v bufsize b :
  1 <= bufsize < 2 ^ 64 → bufsize <= Z.of_nat (length b) →
  copy_out (Some b) v bufsize = Some (Some (copied v bufsize b)).
Proof.
  intros Hb Hlen. unfold copy_out, strncpy, buf_set, copied.
  assert (size_sub bufsize 1 = bufsize - 1) as ->
    by (unfold size_sub, SIZE_MOD; rewrite Z.mod_small; lia).
  set (k := Z.to_nat (bufsize - 1)).
  assert ((Z.of_nat (length b) <? bufsize - 1) = false) as ->
    by (apply Z.ltb_ge; lia).
  sbind.
  assert (length (take k (cstring v ++ replicate k NUL)) = k) as Hk.
  { rewrite length_take, length_app, length_replicate. unfold k. lia. }
  assert ((0 <=? bufsize - 1) &&
          (bufsize - 1 <?
             Z.of_nat (length (take k (cstring v ++ replicate k NUL)
                               ++ drop k b))) = true) as ->.
  { rewrite length_app, Hk, length_drop. apply andb_true_iff.
    split; [apply Z.leb_le|apply Z.ltb_lt]; unfold k; lia. }
  sbind. do 2 f_equal. fold k.
  rewrite insert_app_r_alt by (rewrite Hk; unfold k; lia).
  rewrite Hk, Nat.sub_diag.
  f_equal. destruct (drop k b) as [|c r] eqn:Hd.
  - apply (f_equal length) in Hd. rewrite length_drop in Hd. simpl in Hd.
    unfold k in Hd. lia.
  - simpl. f_equal.
    replace (S k) with (k + 1)%nat by lia. rewrite <- drop_drop, Hd. done.
Qed.

Theorem q_remove_head_spec m head a l sp bufsize :
  ring m head (a :: l) → is_Some (load_value m a) →
  1 <= bufsize < 2 ^ 64 →
  (∀ b, sp = Some b → bufsize <= Z.of_nat (length b)) →
  ∃ m' v,
    load_value m a = Some v ∧
    q_remove_head m head sp bufsize
      = Some (m', copied v bufsize <$> sp, a) ∧
    ring m' head l ∧ load m' a = load m a.
Proof.
  intros Hr [v Hv] Hb Hsp. unfold q_remove_head.
  pose proof Hr as (Hhead & _).
  rewrite decide_False by done.
  rewrite (ring_list_empty _ _ _ Hr). sbind.
  rewrite bool_decide_eq_false_2 by done.
  pose proof (ring_first _ _ _ _ Hr) as (-> & _). sbind.
  destruct (list_del_ring m head [] a l Hr) as (m' & Hdel & Hr' & _ & _ & Ha).
  exists m', v. split; [done|]. split; [|done].
  destruct sp as [b|].
  - rewrite Hv. sbind. rewrite copy_out_Some by auto. sbind. by rewrite Hdel.
  - simpl. by rewrite Hdel.
Qed.

Theorem q_remove_tail_spec m head l z sp bufsize :
  ring m head (l ++ [z]) → is_Some (load_value m z) →
  1 <= bufsize < 2 ^ 64 →
  (∀ b, sp = Some b → bufsize <= Z.of_nat (length b)) →
  ∃ m' v,
    load_value m z = Some v ∧
    q_remove_tail m head sp bufsize
      = Some (m', copied v bufsize <$> sp, z) ∧
    ring m' head l ∧ load m' z = load m z.
Proof.
  intros Hr [v Hv] Hb Hsp. unfold q_remove_tail.
  pose proof Hr as (Hhead & _).
  rewrite decide_False by done.
  rewrite (ring_list_empty _ _ _ Hr). sbind.
  rewrite bool_decide_eq_false_2 by (by destruct l).
  pose proof (ring_last _ _ _ _ Hr) as (-> & _). sbind.
  destruct (list_del_ring m head l z [] Hr) as (m' & Hdel & Hr' & _ & _ & Ha).
  rewrite app_nil_r in Hr'.
  exists m', v. split; [done|]. split; [|done].
  destruct sp as [b|].
  - rewrite Hv. sbind. rewrite copy_out_Some by auto. sbind. by rewrite Hdel.
  - simpl. by rewrite Hdel.
Qed.

(** ** The ring invariant, node by node *)

(** For every node [n] of the ring, the sentinel included: [n.next.prev] and
    [n.prev.next] are [n], and the sentinel is reached from [n] along
    [next]. *)
Definition ring_invariant (m : mem) (head : ptr) (l : list ptr) : Prop :=
  ∀ n, n ∈ head :: l →
    (∃ nx, load_next m n = Some nx ∧ load_prev m nx = Some n) ∧
    (∃ pv, load_prev m n = Some pv ∧ load_next m pv = Some n) ∧
    (∃ path, seg (load_next m) n path head).

Lemma ring_head_links m head l :
  ring m head l →
  load_next m head = Some (hd head l) ∧
  load_prev m head = Some (List.last l head).
Proof.
  intros Hr. split.
  - destruct l as [|a l]; [by apply ring_empty in Hr as [? ?]|].
    by apply ring_first in Hr as (? & _).
  - destruct l as [|a l _] using rev_ind; [by apply ring_empty in Hr as [? ?]|].
    rewrite last_last. by apply ring_last in Hr as (? & _).
Qed.

Lemma ring_ring_invariant m head l : ring m head l → ring_invariant m head l.
Proof.
  intros Hr n Hn.
  pose proof (ring_head_links _ _ _ Hr) as [Hhn Hhp].
  apply elem_of_cons in Hn as [->|Hn].
  - split; [|split].
    + exists (hd head l). split; [done|].
      destruct l as [|a l]; [done|]. apply (ring_prev_of m head [] a l Hr).
    + exists (List.last l head). split; [done|].
      destruct l as [|z l _] using rev_ind; [done|].
      rewrite last_last. apply (ring_next_of m head l z [] Hr).
    + by exists [].
  - apply list_elem_of_split in Hn as (l1 & l2 & ->).
    pose proof (ring_next_of _ _ _ _ _ Hr) as Hnx.
    pose proof (ring_prev_of _ _ _ _ _ Hr) as Hpv.
    split; [|split].
    + exists (hd head l2). split; [done|].
      destruct l2 as [|y l2].
      * simpl. rewrite Hhp. by rewrite last_last.
      * simpl. replace (l1 ++ n :: y :: l2) with ((l1 ++ [n]) ++ y :: l2) in Hr
          by (by rewrite <- app_assoc).
        rewrite (ring_prev_of _ _ _ _ _ Hr). by rewrite last_last.
    + exists (List.last l1 head). split; [done|].
      destruct l1 as [|p l1 _] using rev_ind.
      * simpl. by rewrite Hhn.
      * rewrite last_last. rewrite <- app_assoc in Hr. simpl in Hr.
        by rewrite (ring_next_of _ _ _ _ _ Hr).
    + destruct Hr as (_ & _ & _ & Hseg & _).
      change (head :: l1 ++ n :: l2) with ((head :: l1) ++ n :: l2) in Hseg.
      apply seg_app in Hseg as (q & H1 & H2).
      pose proof (seg_hd _ _ _ _ H2) as ->. eauto.
Qed.

Lemma ring_invariant_perm m head l l' :
  l' ≡ₚ l → ring_invariant m head l' → ring_invariant m head l.
Proof. intros Hp H n Hn. apply H. by rewrite Hp. Qed.

(** ** Relative order *)

(** [a] comes before [b] in [l]. *)
Definition before (l : list ptr) (a b : ptr) : Prop :=
  ∃ l1 l2 l3, l = l1 ++ a :: l2 ++ b :: l3.

Lemma before_sublist l' l a b :
  l' `sublist_of` l → before l' a b → before l a b.
Proof.
  induction 1 as [|x l' l Hsub IH|x l' l Hsub IH]; intros (l1 & l2 & l3 & Hl).
  - by destruct l1.
  - destruct l1 as [|y l1]; simplify_eq/=.
    + assert (b ∈ l) as Hb by (eapply elem_of_sublist; [|done]; set_solver).
      apply list_elem_of_split in Hb as (k1 & k2 & ->).
      by exists [], k1, k2.
    + destruct IH as (k1 & k2 & k3 & ->); [by exists l1, l2, l3|].
      by exists (y :: k1), k2, k3.
  - destruct IH as (k1 & k2 & k3 & ->); [by exists l1, l2, l3|].
    by exists (x :: k1), k2, k3.
Qed.

Lemma filter_sublist (C : ptr → bool) l : List.filter C l `sublist_of` l.
Proof.
  induction l as [|x l IH]; [done|]. simpl.
  destruct (C x); [by apply sublist_skip|by apply sublist_cons].
Qed.

Lemma before_filter (C : ptr → bool) l a b :
  C a = true → C b = true → before l a b → before (List.filter C l) a b.
Proof.
  intros Ha Hb (l1 & l2 & l3 & ->).
  exists (List.filter C l1), (List.filter C l2), (List.filter C l3).
  rewrite List.filter_app. simpl. rewrite Ha, List.filter_app. simpl.
  by rewrite Hb.
Qed.
(** ** Deciding well-formedness of a concrete heap *)

#[global] Instance seg_dec f p l e : Decision (seg f p l e).
Proof.
  revert p. induction l as [|a r IH]; intros p; simpl.
  - apply _.
  - destruct (decide (p = a)) as [->|Hne]; [|right; by intros [? _]].
    destruct (f a) as [q|] eqn:E.
    + destruct (IH q) as [Hs|Hs].
      * left. eauto.
      * right. intros (_ & q' & [= <-] & ?). done.
    + right. intros (_ & q' & ? & _). done.
Defined.

#[global] Instance chain_dec m p l : Decision (chain m p l).
Proof. unfold chain. apply _. Defined.

#[global] Instance ring_dec m head l : Decision (ring m head l).
Proof. unfold ring. apply _. Defined.

(** The payload of a node, the empty string where there is none. *)
Definition payload_of (m : mem) (a : ptr) : string :=
  default EmptyString (load_value m a).

(** Every node of [l] embeds in an element and so has a payload. *)
Definition elements (m : mem) (l : list ptr) : Prop :=
  Forall (λ a, is_Some (load_value m a)) l.

#[global] Instance elements_dec m l : Decision (elements m l).
Proof. unfold elements. apply _. Defined.

Lemma elements_payloads m l : elements m l → payloads m (payload_of m) l.
Proof.
  unfold elements. rewrite Forall_forall. intros H a Ha.
  destruct (H a Ha) as [v Hv]. unfold payload_of. by rewrite Hv.
Qed.

(** A comparison callback for [list_sort] that orders the nodes by the
    payloads they have in [m], with [strcmp]. *)
Definition payload_cmp (m : mem) (_ : unit) (a b : ptr) : Z :=
  strcmp (payload_of m a) (payload_of m b).

Lemma payload_cmp_total m : ListSortLoop.cmp_total tt (payload_cmp m).
Proof.
  intros a b. unfold payload_cmp.
  pose proof (strcmp_flip_neg (payload_of m b) (payload_of m a)). lia.
Qed.

Lemma payload_cmp_trans m : ListSortLoop.cmp_trans tt (payload_cmp m).
Proof. intros a b c. apply strcmp_trans. Qed.

(** ** The pending stack is determined by the heap *)

Lemma chain_functional m p l1 l2 : chain m p l1 → chain m p l2 → l1 = l2.
Proof.
  revert p l2. induction l1 as [|a l1 IH]; intros p l2 H1 H2.
  - apply chain_nil in H1 as ->. symmetry. by eapply chain_null.
  - apply chain_cons in H1 as (-> & Ha & q & Hq & H1).
    destruct l2 as [|b l2]; [by apply chain_nil in H2|].
    apply chain_cons in H2 as (<- & _ & q' & Hq' & H2).
    rewrite Hq in Hq'. injection Hq' as <-. f_equal. eauto.
Qed.

Lemma pending_rep_functional m p r1 r2 :
  ListSortLoop.pending_rep m p r1 → ListSortLoop.pending_rep m p r2 → r1 = r2.
Proof.
  revert p r2. induction r1 as [|a r1 IH]; intros p r2 H1 H2.
  - simpl in H1. subst p. destruct r2 as [|b r2]; [done|].
    simpl in H2. destruct H2 as (Hb & Hc & _).
    apply chain_null in Hc. done.
  - simpl in H1. destruct H1 as (Ha & Hc & q & Hq & H1).
    destruct r2 as [|b r2].
    + simpl in H2. subst p. apply chain_null in Hc. done.
    + simpl in H2. destruct H2 as (Hb & Hc' & q' & Hq' & H2).
      rewrite Hq in Hq'. injection Hq' as <-.
      f_equal; [by eapply chain_functional|eauto].
Qed.

#[global] Instance pending_rep_dec m p runs :
  Decision (ListSortLoop.pending_rep m p runs).
Proof.
  revert p. induction runs as [|r rs IH]; intros p; simpl.
  - apply _.
  - destruct (decide (r ≠ [])) as [Hr|Hr]; [|right; by intros [? _]].
    destruct (decide (chain m p r)) as [Hc|Hc]; [|right; by intros (_ & ? & _)].
    destruct (load_prev m p) as [q|] eqn:E.
    + destruct (IH q) as [Hs|Hs].
      * left. eauto.
      * right. intros (_ & _ & q' & [= <-] & ?). done.
    + right. intros (_ & _ & q' & ? & _). done.
Defined.

(** * The specification, claim by claim *)

(** A decidable proposition holds when its decision procedure says so. *)
Ltac by_evaluation :=
  match goal with
  | |- ?P => apply (bool_decide_eq_true_1 P); vm_compute; reflexivity
  end.

(** ** Sorting *)

(** C1: [q_sort] does not sort in non-increasing order when [descend] is
    true.  Its result does not depend on [descend] at all, and on the queue
    "a","b" the call with [descend = true] leaves "a","b", where the first
    payload is strictly smaller than the second. *)
Theorem q_sort_descend_not_honoured :
  (∀ fuel m head, q_sort fuel m head true = q_sort fuel m head false) ∧
  ring queue_ab q_head [1; 2]%nat ∧
  ring_values 3 queue_ab q_head = Some ["a"; "b"]%string ∧
  (∃ m',
     q_sort 3 queue_ab q_head true = Some m' ∧
     ring m' q_head [1; 2]%nat ∧
     ring_values 3 m' q_head = Some ["a"; "b"]%string) ∧
  strcmp "a" "b" < 0.
Proof.
  split; [done|]. split; [by_evaluation|]. split; [by vm_compute|].
  split; [|by vm_compute].
  eexists. split; [vm_compute; reflexivity|].
  split; [by_evaluation|by vm_compute].
Qed.

(** C3: [q_sort] is not stable.  [mergeTwo] takes the head of the left
    chain only when it compares strictly smaller, so of two heads with equal
    payloads the right one comes first; on the queue of the two elements 1
    and 2, both with payload "a", [q_sort] leaves 2 before 1. *)
Theorem q_sort_not_stable :
  (chain chains_aa 1%nat [1%nat] ∧ chain chains_aa 2%nat [2%nat] ∧
   ∃ m',
     mergeTwo 2 chains_aa 1%nat 2%nat = Some (m', 2%nat) ∧
     chain m' 2%nat [2; 1]%nat) ∧
  ring queue_aa q_head [1; 2]%nat ∧
  ring_values 3 queue_aa q_head = Some ["a"; "a"]%string ∧
  ∃ m',
    q_sort 3 queue_aa q_head false = Some m' ∧
    ring m' q_head [2; 1]%nat ∧
    ring_values 3 m' q_head = Some ["a"; "a"]%string.
Proof.
  split.
  { split; [by_evaluation|]. split; [by_evaluation|].
    eexists. split; [vm_compute; reflexivity|by_evaluation]. }
  split; [by_evaluation|]. split; [by vm_compute|].
  eexists. split; [vm_compute; reflexivity|].
  split; [by_evaluation|by vm_compute].
Qed.

(** ** A NULL queue *)

(** C8: given a NULL [head], every operation returns at once and leaves the
    heap and the caller's buffer as they were: [q_insert_head] and
    [q_insert_tail] return false, [q_remove_head] and [q_remove_tail] return
    NULL, [q_size] returns 0, and [q_delete_mid], [q_delete_dup], [q_ascend],
    [q_descend], [q_swap], [q_reverse] and [q_sort] change nothing. *)
Theorem null_head_is_absence fuel m s al sp bufsize descend :
  q_insert_head m NULL s al = Some (m, false) ∧
  q_insert_tail m NULL s al = Some (m, false) ∧
  q_remove_head m NULL sp bufsize = Some (m, sp, NULL) ∧
  q_remove_tail m NULL sp bufsize = Some (m, sp, NULL) ∧
  q_size fuel m NULL = Some 0 ∧
  q_delete_mid fuel m NULL = Some (m, false) ∧
  q_delete_dup fuel m NULL = Some (m, false) ∧
  q_ascend fuel m NULL = Some (m, 0) ∧
  q_descend fuel m NULL = Some (m, 0) ∧
  q_swap fuel m NULL = Some m ∧
  q_reverse fuel m NULL = Some m ∧
  q_sort fuel m NULL descend = Some m.
Proof.
  unfold q_insert_head, q_insert_tail, q_remove_head, q_remove_tail, q_size,
    q_delete_mid, q_delete_dup, q_ascend, q_descend, q_swap, q_reverse,
    q_sort.
  rewrite !decide_True by done. done.
Qed.

(** ** q_ascend and q_descend *)

Lemma StronglySorted_before (R : ptr → ptr → Prop) l a b :
  StronglySorted R l → before l a b → R a b.
Proof.
  intros Hs (l1 & l2 & l3 & ->).
  induction l1 as [|x l1 IH]; simpl in Hs.
  - apply StronglySorted_inv in Hs as [_ Hall].
    rewrite List.Forall_forall in Hall. apply Hall.
    apply in_or_app. right. by left.
  - apply StronglySorted_inv in Hs as [Hs _]. auto.
Qed.

(** The value that either function returns, whenever it returns. *)
Lemma q_ascend_result fuel m head r : q_ascend fuel m head = Some r → r.2 = 0.
Proof.
  unfold q_ascend. intros H. case_decide; [by simplify_eq|].
  destruct (list_empty m head) as [[|]|]; simplify_option_eq; done.
Qed.

Lemma q_descend_result fuel m head r :
  q_descend fuel m head = Some r → r.2 = 0.
Proof.
  unfold q_descend. intros H. case_decide; [by simplify_eq|].
  destruct (list_empty m head) as [[|]|]; simplify_option_eq; done.
Qed.

(** C9: on every ring of elements, empty or not, [q_ascend] and [q_descend]
    return, and the integer they return is 0; no call of either returns
    anything else. *)
Theorem q_ascend_q_descend_return_zero fuel m head l :
  ring m head l → elements m l → (length l ≤ fuel)%nat →
  (∃ m', q_ascend fuel m head = Some (m', 0)) ∧
  (∃ m', q_descend fuel m head = Some (m', 0)) ∧
  (∀ f m0 h r, q_ascend f m0 h = Some r → r.2 = 0) ∧
  (∀ f m0 h r, q_descend f m0 h = Some r → r.2 = 0).
Proof.
  intros Hr He Hfuel. apply elements_payloads in He.
  destruct (q_ascend_spec _ fuel m head l Hr He Hfuel) as (ma & ? & Ha & _).
  destruct (q_descend_spec _ fuel m head l Hr He Hfuel) as (md & ? & Hd & _).
  split; [by exists ma|]. split; [by exists md|].
  split; [apply q_ascend_result|apply q_descend_result].
Qed.

Lemma q_ascend_q_descend_return_zero_witness :
  (∃ m', q_ascend 4 queue_5342 q_head = Some (m', 0)) ∧
  (∃ m', q_descend 4 queue_5342 q_head = Some (m', 0)) ∧
  (∀ f m0 h r, q_ascend f m0 h = Some r → r.2 = 0) ∧
  (∀ f m0 h r, q_descend f m0 h = Some r → r.2 = 0).
Proof.
  apply (q_ascend_q_descend_return_zero 4 queue_5342 q_head [1; 2; 3; 4]%nat);
    [by_evaluation|by_evaluation|simpl; lia].
Defined.

(** C6: on a ring of elements, empty or not, [q_ascend] leaves a ring in which
    no node is followed, anywhere later, by a node with a strictly smaller
    payload, and [q_descend] one in which no node is followed by a node with
    a strictly greater payload; the nodes that remain keep their payloads
    and their relative order, the others are freed.  On the queue
    "5","3","4","2", [q_ascend] leaves the single element "2". *)
Theorem q_ascend_q_descend_monotone fuel m head l :
  ring m head l → elements m l → (length l ≤ fuel)%nat →
  (∃ m' out,
     q_ascend fuel m head = Some (m', 0) ∧
     ring m' head out ∧ out `sublist_of` l ∧
     (∀ a, a ∈ out → load_value m' a = load_value m a) ∧
     (∀ a, a ∈ l → a ∉ out → load m' a = None) ∧
     (∀ a b va vb,
        before out a b → load_value m' a = Some va →
        load_value m' b = Some vb → ¬ strcmp vb va < 0)) ∧
  (∃ m' out,
     q_descend fuel m head = Some (m', 0) ∧
     ring m' head out ∧ out `sublist_of` l ∧
     (∀ a, a ∈ out → load_value m' a = load_value m a) ∧
     (∀ a, a ∈ l → a ∉ out → load m' a = None) ∧
     (∀ a b va vb,
        before out a b → load_value m' a = Some va →
        load_value m' b = Some vb → ¬ 0 < strcmp vb va)) ∧
  (ring queue_5342 q_head [1; 2; 3; 4]%nat ∧
   ring_values 4 queue_5342 q_head = Some ["5"; "3"; "4"; "2"]%string ∧
   ∃ m',
     q_ascend 4 queue_5342 q_head = Some (m', 0) ∧
     ring m' q_head [4%nat] ∧
     ring_values 4 m' q_head = Some ["2"%string]).
Proof.
  intros Hr He Hfuel. pose proof (elements_payloads _ _ He) as Hval.
  assert (∀ m' out a b,
            payloads m' (payload_of m) out → before out a b →
            a ∈ out ∧ b ∈ out) as Hin.
  { intros m' out a b _ (l1 & l2 & l3 & ->). set_solver. }
  split; [|split].
  - destruct (q_ascend_spec _ fuel m head l Hr Hval Hfuel)
      as (m' & out & Hrun & Hr' & Hsub & Hs & Hval' & Hfree & _).
    exists m', out. repeat (split; [done|]). split; [|split; [done|]].
    + intros a Ha. rewrite (Hval' a Ha), Hval; [done|].
      by eapply elem_of_sublist.
    + intros a b va vb Hab Hva Hvb.
      destruct (Hin m' out a b Hval' Hab) as [Ha Hb].
      rewrite (Hval' a Ha) in Hva. rewrite (Hval' b Hb) in Hvb.
      simplify_eq. apply (StronglySorted_before _ _ _ _ Hs Hab).
  - destruct (q_descend_spec _ fuel m head l Hr Hval Hfuel)
      as (m' & out & Hrun & Hr' & Hsub & Hs & Hval' & Hfree & _).
    exists m', out. repeat (split; [done|]). split; [|split; [done|]].
    + intros a Ha. rewrite (Hval' a Ha), Hval; [done|].
      by eapply elem_of_sublist.
    + intros a b va vb Hab Hva Hvb.
      destruct (Hin m' out a b Hval' Hab) as [Ha Hb].
      rewrite (Hval' a Ha) in Hva. rewrite (Hval' b Hb) in Hvb.
      simplify_eq. apply (StronglySorted_before _ _ _ _ Hs Hab).
  - split; [by_evaluation|]. split; [by vm_compute|].
    eexists. split; [vm_compute; reflexivity|].
    split; [by_evaluation|by vm_compute].
Qed.

Lemma q_ascend_q_descend_monotone_witness :
  ∃ m' out,
    q_descend 4 queue_5342 q_head = Some (m', 0) ∧
    ring m' q_head out ∧ out `sublist_of` [1; 2; 3; 4]%nat ∧
    (∀ a, a ∈ out → load_value m' a = load_value queue_5342 a) ∧
    (∀ a, a ∈ [1; 2; 3; 4]%nat → a ∉ out → load m' a = None) ∧
    (∀ a b va vb,
       before out a b → load_value m' a = Some va →
       load_value m' b = Some vb → ¬ 0 < strcmp vb va).
Proof.
  apply (q_ascend_q_descend_monotone 4 queue_5342 q_head [1; 2; 3; 4]%nat);
    [by_evaluation|by_evaluation|simpl; lia].
Defined.

(** ** q_delete_dup *)

(** C7: on a non-empty ring of elements sorted by payload, [q_delete_dup]
    returns true and leaves exactly the nodes whose payload no other node of
    the ring has, in their order; every node whose payload occurs twice or
    more is unlinked and freed, the last node of its run included.  On the
    queue "a","a","b","b","c" it leaves the single element "c". *)
Theorem q_delete_dup_removes_runs fuel m head l :
  ring m head l → l ≠ [] → elements m l →
  Sorted (le_val (payload_of m)) l → (length l ≤ fuel)%nat →
  (∃ m' out,
     q_delete_dup fuel m head = Some (m', true) ∧
     ring m' head out ∧ out `sublist_of` l ∧
     (∀ x, x ∈ out ↔
        x ∈ l ∧
        ∀ y, y ∈ l → y ≠ x → strcmp (payload_of m x) (payload_of m y) ≠ 0) ∧
     (∀ a, a ∈ out → load_value m' a = load_value m a) ∧
     (∀ a, a ∈ l → a ∉ out → load m' a = None)) ∧
  (ring queue_aabbc q_head [1; 2; 3; 4; 5]%nat ∧
   ring_values 5 queue_aabbc q_head
     = Some ["a"; "a"; "b"; "b"; "c"]%string ∧
   ∃ m',
     q_delete_dup 5 queue_aabbc q_head = Some (m', true) ∧
     ring m' q_head [5%nat] ∧
     ring_values 5 m' q_head = Some ["c"%string]).
Proof.
  intros Hr Hne He Hs Hfuel. pose proof (elements_payloads _ _ He) as Hval.
  split.
  - destruct (q_delete_dup_spec _ fuel m head l Hr Hne Hval Hs Hfuel)
      as (m' & out & Hrun & Hr' & Hsub & Hchar & Hval' & Hfree).
    exists m', out. repeat (split; [done|]). split; [|done].
    intros a Ha. rewrite (Hval' a Ha), Hval; [done|].
    by eapply elem_of_sublist.
  - split; [by_evaluation|]. split; [by vm_compute|].
    eexists. split; [vm_compute; reflexivity|].
    split; [by_evaluation|by vm_compute].
Qed.

Lemma q_delete_dup_removes_runs_witness :
  ∃ m' out,
    q_delete_dup 5 queue_aabbc q_head = Some (m', true) ∧
    ring m' q_head out ∧ out `sublist_of` [1; 2; 3; 4; 5]%nat ∧
    (∀ x, x ∈ out ↔
       x ∈ [1; 2; 3; 4; 5]%nat ∧
       ∀ y, y ∈ [1; 2; 3; 4; 5]%nat → y ≠ x →
         strcmp (payload_of queue_aabbc x) (payload_of queue_aabbc y) ≠ 0) ∧
    (∀ a, a ∈ out → load_value m' a = load_value queue_aabbc a) ∧
    (∀ a, a ∈ [1; 2; 3; 4; 5]%nat → a ∉ out → load m' a = None).
Proof.
  apply (q_delete_dup_removes_runs 5 queue_aabbc q_head [1; 2; 3; 4; 5]%nat);
    [by_evaluation|done|by_evaluation| |simpl; lia].
  repeat constructor; by vm_compute.
Defined.

(** ** q_remove_head and q_remove_tail *)

(** The buffer after the copy, byte by byte. *)
Lemma copied_spec v bufsize b :
  1 <= bufsize → bufsize <= Z.of_nat (length b) →
  length (copied v bufsize b) = length b ∧
  (∀ i, (i < Z.to_nat (bufsize - 1))%nat →
     copied v bufsize b !! i = Some (nth i (cstring v) NUL)) ∧
  copied v bufsize b !! Z.to_nat (bufsize - 1) = Some NUL ∧
  (∀ i, (Z.to_nat bufsize ≤ i)%nat → copied v bufsize b !! i = b !! i).
Proof.
  intros Hb Hlen. unfold copied.
  set (k := Z.to_nat (bufsize - 1)).
  assert (S k ≤ length b)%nat as Hk by (unfold k; lia).
  assert (length (take k (cstring v ++ replicate k NUL)) = k) as Htk.
  { rewrite length_take, length_app, length_replicate. lia. }
  split; [|split; [|split]].
  - rewrite length_app, Htk. simpl. rewrite length_drop. lia.
  - intros i Hi. rewrite lookup_app_l by lia. rewrite lookup_take_lt by done.
    destruct (decide (i < length (cstring v))%nat) as [Hlt|Hge].
    + rewrite lookup_app_l by done.
      destruct (nth_lookup_or_length (cstring v) i NUL) as [H|H]; [done|lia].
    + rewrite lookup_app_r by lia. rewrite lookup_replicate_2 by lia.
      by rewrite nth_overflow by lia.
  - rewrite lookup_app_r by lia. by rewrite Htk, Nat.sub_diag.
  - intros i Hi. assert (i = S k + (i - S k))%nat as Hi' by (unfold k; lia).
    rewrite lookup_app_r by lia. rewrite Htk.
    replace (i - k)%nat with (S (i - S k)) by lia. simpl.
    rewrite lookup_drop. by rewrite <- Hi'.
Qed.

(** C10: on a non-empty queue, with [bufsize] at least 1 and a buffer that,
    unless it is NULL, holds [bufsize] bytes, [q_remove_head] returns the
    first element and [q_remove_tail] the last one, unlinked from the ring
    and still allocated as it was.  A buffer that is not NULL receives at
    most [bufsize - 1] bytes of the payload, padded with NUL, and a NUL at
    index [bufsize - 1]; its bytes from [bufsize] on are as before.  With a
    NULL buffer nothing is written. *)
Theorem q_remove_copies_and_unlinks m head l sp bufsize :
  ring m head l → l ≠ [] → elements m l → 1 <= bufsize < 2 ^ 64 →
  (∀ b, sp = Some b → bufsize <= Z.of_nat (length b)) →
  (∃ m' a l' v,
     l = a :: l' ∧ load_value m a = Some v ∧
     q_remove_head m head sp bufsize
       = Some (m', match sp with
                   | Some b => Some (copied v bufsize b)
                   | None => None
                   end, a) ∧
     ring m' head l' ∧ load m' a = load m a) ∧
  (∃ m' z l' v,
     l = l' ++ [z] ∧ load_value m z = Some v ∧
     q_remove_tail m head sp bufsize
       = Some (m', match sp with
                   | Some b => Some (copied v bufsize b)
                   | None => None
                   end, z) ∧
     ring m' head l' ∧ load m' z = load m z) ∧
  (∀ v b, sp = Some b →
     length (copied v bufsize b) = length b ∧
     (∀ i, (i < Z.to_nat (bufsize - 1))%nat →
        copied v bufsize b !! i = Some (nth i (cstring v) NUL)) ∧
     copied v bufsize b !! Z.to_nat (bufsize - 1) = Some NUL ∧
     (∀ i, (Z.to_nat bufsize ≤ i)%nat → copied v bufsize b !! i = b !! i)).
Proof.
  intros Hr Hne He Hb Hsp. unfold elements in He.
  rewrite Forall_forall in He. split; [|split].
  - destruct l as [|a l']; [done|].
    destruct (q_remove_head_spec m head a l' sp bufsize)
      as (m' & v & Hv & Hrun & Hr' & Ha); try done.
    { apply He. by left. }
    exists m', a, l', v. by destruct sp.
  - destruct (list_snoc_inv l Hne) as (l' & z & ->).
    destruct (q_remove_tail_spec m head l' z sp bufsize)
      as (m' & v & Hv & Hrun & Hr' & Hz); try done.
    { apply He. set_solver. }
    exists m', z, l', v. by destruct sp.
  - intros v b ->. apply copied_spec; [lia|auto].
Qed.

Lemma q_remove_copies_and_unlinks_witness :
  ∃ m' a l' v,
    [1; 2; 3]%nat = a :: l' ∧ load_value queue_abc a = Some v ∧
    q_remove_head queue_abc q_head
        (Some ["x"; "x"; "x"; "x"]%char) 3
      = Some (m', Some (copied v 3 ["x"; "x"; "x"; "x"]%char), a) ∧
    ring m' q_head l' ∧ load m' a = load queue_abc a.
Proof.
  apply (q_remove_copies_and_unlinks queue_abc q_head [1; 2; 3]%nat
           (Some ["x"; "x"; "x"; "x"]%char) 3);
    [by_evaluation|done|by_evaluation|lia|].
  intros b [= <-]. simpl. lia.
Defined.

(** ** The ring after sorting and reversing *)

Section ring_claims.

Context {P : Type} (priv : P) (cmp : P → ptr → ptr → Z).

(** C2: on a well-formed ring, [q_sort] (whose nodes must be elements, for
    it compares their payloads), [list_sort] (with any comparison callback)
    and [q_reverse] return, and the ring invariant holds in the heap they
    leave: for every node [n] of the ring, the sentinel included,
    [n.next.prev] and [n.prev.next] are [n], and following [next] from [n]
    leads to the sentinel. *)
Theorem ring_invariant_restored fuel m head l descend :
  ring m head l → Z.of_nat (length l) < 2 ^ 64 → (length l < fuel)%nat →
  (elements m l →
   ∃ m', q_sort fuel m head descend = Some m' ∧ ring_invariant m' head l) ∧
  (∃ m',
     ListSort.list_sort priv cmp fuel m head = Some m' ∧
     ring_invariant m' head l) ∧
  (∃ m', q_reverse fuel m head = Some m' ∧ ring_invariant m' head l).
Proof.
  intros Hr Hlen Hfuel. split; [|split].
  - intros He. apply elements_payloads in He.
    destruct (q_sort_spec _ fuel m head descend l Hr He Hfuel)
      as (m' & l' & Hrun & Hr' & Hperm & _).
    exists m'. split; [done|].
    eapply ring_invariant_perm; [done|]. by apply ring_ring_invariant.
  - destruct (ListSortLoop.list_sort_spec priv cmp fuel m head l Hr Hlen Hfuel)
      as (m' & l' & Hrun & Hr' & Hperm & _).
    exists m'. split; [done|].
    eapply ring_invariant_perm; [done|]. by apply ring_ring_invariant.
  - destruct (q_reverse_spec fuel m head l Hr Hfuel) as (m' & Hrun & Hr' & _).
    exists m'. split; [done|].
    eapply ring_invariant_perm; [|by apply ring_ring_invariant].
    symmetry. apply Permutation_rev.
Qed.

(** C4: [list_sort] is stable.  Its two merges, [merge] and [merge_final],
    put the head [a] of the left run first whenever [cmp priv a b <= 0] for
    the head [b] of the right run; and for a callback that is consistent
    (when it puts [a] after [b] it does not put [b] after [a], and
    [cmp <= 0] is transitive), two nodes that compare equal are, in the
    sorted ring, in the order they had in the input. *)
Theorem list_sort_stable fuel m head l :
  ring m head l → Z.of_nat (length l) < 2 ^ 64 → (length l < fuel)%nat →
  ListSortLoop.cmp_total priv cmp → ListSortLoop.cmp_trans priv cmp →
  (∀ f m1 a b la lb,
     chain m1 a (a :: la) → chain m1 b (b :: lb) →
     NoDup ((a :: la) ++ b :: lb) → (length la + length lb + 2 ≤ f)%nat →
     cmp priv a b <= 0 →
     ∃ m2 rest,
       ListSort.merge priv cmp f m1 a b = Some (m2, a) ∧
       chain m2 a (a :: rest) ∧ rest ≡ₚ la ++ b :: lb) ∧
  (∀ f m1 a b la lb,
     chain m1 a (a :: la) → chain m1 b (b :: lb) →
     NoDup (head :: (a :: la) ++ b :: lb) → allocated m1 head →
     (length la + length lb + 2 ≤ f)%nat →
     cmp priv a b <= 0 →
     ∃ m2 rest,
       ListSort.merge_final priv cmp f m1 head a b = Some m2 ∧
       ring m2 head (a :: rest) ∧ rest ≡ₚ la ++ b :: lb) ∧
  (∃ m' out,
     ListSort.list_sort priv cmp fuel m head = Some m' ∧
     ring m' head out ∧ out ≡ₚ l ∧
     Sorted (ListSortLoop.cmp_le priv cmp) out ∧
     ∀ a b,
       before l a b → cmp priv a b <= 0 → cmp priv b a <= 0 →
       before out a b).
Proof.
  intros Hr Hlen Hfuel Htot Htr. split; [|split].
  - intros f m1 a b la lb Ha Hb Hnd Hf Hab.
    destruct (ListSortProofs.merge_spec priv cmp f m1 a b (a :: la) (b :: lb))
      as (m2 & Hrun & Hc & _); try done.
    { simpl. lia. }
    pose proof (merge_lists_perm (ListSortProofs.le_cmp priv cmp)
                  (a :: la) (b :: lb)) as Hperm.
    rewrite merge_lists_cons in Hrun, Hc, Hperm.
    assert (ListSortProofs.le_cmp priv cmp a b = true) as Hle
      by (by apply Z.leb_le).
    rewrite Hle in Hrun, Hc, Hperm. simpl in Hrun, Hc.
    eexists m2, _. split; [done|]. split; [done|].
    simpl in Hperm. by apply Permutation_cons_inv in Hperm.
  - intros f m1 a b la lb Ha Hb Hnd Hh Hf Hab.
    destruct (ListSortProofs.merge_final_spec priv cmp f m1 head a b
                (a :: la) (b :: lb)) as (m2 & Hrun & Hc & _); try done.
    { simpl. lia. }
    pose proof (merge_lists_perm (ListSortProofs.le_cmp priv cmp)
                  (a :: la) (b :: lb)) as Hperm.
    rewrite merge_lists_cons in Hc, Hperm.
    assert (ListSortProofs.le_cmp priv cmp a b = true) as Hle
      by (by apply Z.leb_le).
    rewrite Hle in Hc, Hperm.
    eexists m2, _. split; [done|]. split; [done|].
    simpl in Hperm. by apply Permutation_cons_inv in Hperm.
  - destruct (ListSortLoop.list_sort_spec priv cmp fuel m head l Hr Hlen Hfuel)
      as (m' & out & Hrun & Hr' & Hperm & _ & Hs & Hstable).
    exists m', out. repeat (split; [by auto|]).
    intros a b Hbefore Hab Hba.
    set (C := λ y, (cmp priv a y <=? 0) && (cmp priv y a <=? 0)).
    assert (∀ y, C y = true ↔ cmp priv a y <= 0 ∧ cmp priv y a <= 0) as HC.
    { intros y. unfold C. rewrite andb_true_iff, !Z.leb_le. done. }
    assert (ListSortLoop.tie_class priv cmp C) as Htie.
    { intros x y [_ Hx]%HC [Hy _]%HC. by apply (Htr x a y). }
    assert (cmp priv a a <= 0) as Haa.
    { destruct (Z.le_gt_cases (cmp priv a a) 0) as [H|H]; [done|].
      apply Htot. lia. }
    eapply before_sublist; [apply (filter_sublist C)|].
    rewrite (Hstable Htot Htr C Htie).
    apply before_filter; [by apply HC|by apply HC|done].
Qed.

End ring_claims.

Lemma ring_invariant_restored_witness :
  (∃ m', q_sort 5 queue_baba q_head true = Some m' ∧
         ring_invariant m' q_head [1; 2; 3; 4]%nat) ∧
  (∃ m',
     ListSort.list_sort tt (payload_cmp queue_baba) 5 queue_baba q_head
       = Some m' ∧
     ring_invariant m' q_head [1; 2; 3; 4]%nat) ∧
  (∃ m', q_reverse 5 queue_baba q_head = Some m' ∧
         ring_invariant m' q_head [1; 2; 3; 4]%nat).
Proof.
  destruct (ring_invariant_restored tt (payload_cmp queue_baba) 5 queue_baba
              q_head [1; 2; 3; 4]%nat true) as (Hsort & Hrest);
    [by_evaluation|simpl; lia|simpl; lia|].
  split; [apply Hsort; by_evaluation|exact Hrest].
Defined.

Lemma list_sort_stable_witness :
  ∃ m' out,
    ListSort.list_sort tt (payload_cmp queue_baba) 5 queue_baba q_head
      = Some m' ∧
    ring m' q_head out ∧ out ≡ₚ [1; 2; 3; 4]%nat ∧
    Sorted (ListSortLoop.cmp_le tt (payload_cmp queue_baba)) out ∧
    ∀ a b,
      before [1; 2; 3; 4]%nat a b →
      payload_cmp queue_baba tt a b <= 0 →
      payload_cmp queue_baba tt b a <= 0 →
      before out a b.
Proof.
  apply (list_sort_stable tt (payload_cmp queue_baba) 5 queue_baba q_head
           [1; 2; 3; 4]%nat);
    [by_evaluation|simpl; lia|simpl; lia|apply payload_cmp_total
    |apply payload_cmp_trans].
Defined.

(** ** The pending runs of list_sort *)

(** The sizes that the set bits of [count] stand for, smallest first: a
    run of size [2 ^ i] for every set bit [i], from bit [i] up, of the
    [fuel] bits looked at. *)
Fixpoint set_bit_sizes (fuel : nat) (i : nat) (count : Z) : list nat :=
  match fuel with
  | O => []
  | S f =>
      (if Z.testbit count (Z.of_nat i) then [(2 ^ i)%nat] else [])
        ++ set_bit_sizes f (S i) count
  end.

(** The reading of the run sizes as the set bits of [count]: the pending
    stack of [st] holds one run of size [2 ^ i] for every set bit [i] of
    [ls_count st], and no other run. *)
Definition sizes_are_set_bits (st : ListSort.ls_state) : Prop :=
  ∃ runs,
    ListSortLoop.pending_rep (ListSort.ls_mem st) (ListSort.ls_pending st)
      runs ∧
    map length runs ≡ₚ set_bit_sizes 64 0 (ListSort.ls_count st).

(** A callback that puts every node after every other one. *)
Definition always_after (_ : unit) (_ _ : ptr) : Z := 1.

Section pending_runs.

Import ListSort ListSortLoop.

Context {P : Type} (priv : P) (cmp : P → ptr → ptr → Z).

Lemma list_sort_rounds_front mfuel k st :
  list_sort_rounds priv cmp mfuel (S k) st
  = st' ← list_sort_body priv cmp mfuel st;
    list_sort_rounds priv cmp mfuel k st'.
Proof.
  induction k as [|k IH].
  - simpl. by destruct (list_sort_body priv cmp mfuel st).
  - change (list_sort_rounds priv cmp mfuel (S (S k)) st)
      with (st' ← list_sort_rounds priv cmp mfuel (S k) st;
            list_sort_body priv cmp mfuel st').
    rewrite IH. by destruct (list_sort_body priv cmp mfuel st).
Qed.

(** The loop stops after as many rounds as the list has nodes. *)
Lemma list_sort_loop_rounds mfuel m0 l fuel :
  ∀ k st runs,
    ls_inv priv cmp m0 l k st runs → NoDup l →
    Z.of_nat (length l) < 2 ^ 64 → (length l ≤ mfuel)%nat →
    (k < length l)%nat → (length l - k ≤ fuel)%nat →
    list_sort_loop priv cmp mfuel fuel st
    = list_sort_rounds priv cmp mfuel (length l - k) st.
Proof.
  induction fuel as [|fuel IH]; intros k st runs Hinv Hnd Hlen Hmfuel Hk Hfuel;
    [lia|].
  destruct (ls_body_inv priv cmp mfuel m0 l k st runs)
    as (st' & runs' & Hbody & Hinv' & Hlist); try done.
  replace (length l - k)%nat with (S (length l - S k)) by lia.
  rewrite list_sort_rounds_front. cbn [list_sort_loop]. rewrite Hbody. sbind.
  destruct (decide (S k = length l)) as [Heq|Hne].
  - rewrite Hlist, drop_ge by lia. simpl hd. rewrite decide_True by done.
    by replace (length l - S k)%nat with 0%nat by lia.
  - assert (ls_list st' ≠ NULL) as Hnn.
    { rewrite Hlist. destruct Hinv' as (_ & [_ Hnull] & _).
      destruct (drop (S k) l) as [|y r] eqn:Hd.
      - apply (f_equal length) in Hd. rewrite length_drop in Hd. simpl in Hd.
        lia.
      - simpl. set_solver. }
    rewrite decide_False by done.
    eapply IH; [done..| |]; lia.
Qed.

(** C5, amended: after each round of the main loop of [list_sort], [count]
    is the number of nodes on the pending stack; every run has a size that
    is a power of two; no size occurs more than twice; the runs are ordered
    from the smallest and newest, in front, to the largest and oldest; the
    sizes are a 1 in front followed by what [run_sizes] gives for
    [count - 1], one run of size [d * 2 ^ i] for the digit [d], 1 or 2, that
    [count - 1] has at position [i] when written with these two digits, so
    they add up to [count]; and every run is sorted when the callback never
    puts [a] after [b] and [b] after [a] at once.  The loop stops in the
    state that [length l] rounds give. *)
Theorem pending_runs_invariant mfuel fuel m head l k :
  ring m head l → Z.of_nat (length l) < 2 ^ 64 → (length l ≤ mfuel)%nat →
  (length l ≤ fuel)%nat → (2 ≤ length l)%nat → (1 ≤ k ≤ length l)%nat →
  ∃ st0 st runs,
    list_sort_init m head = Some st0 ∧
    list_sort_rounds priv cmp mfuel k st0 = Some st ∧
    list_sort_loop priv cmp mfuel fuel st0
      = list_sort_rounds priv cmp mfuel (length l) st0 ∧
    ls_count st = Z.of_nat k ∧
    pending_rep (ls_mem st) (ls_pending st) runs ∧
    Forall is_pow2 (map length runs) ∧
    (∀ n, count_occ Nat.eq_dec (map length runs) n ≤ 2)%nat ∧
    Sorted le (map length runs) ∧
    (∃ segs, Forall2 (≡ₚ) runs segs ∧ concat (rev segs) = take k l) ∧
    (∃ L, map length runs = 1%nat :: L ∧ run_sizes 1 (Z.of_nat k - 1) L) ∧
    list_sum (map length runs) = k ∧
    (cmp_total priv cmp → Forall (Sorted (cmp_le priv cmp)) runs).
Proof.
  intros Hr Hlen Hmfuel Hfuel H2 Hk.
  pose proof Hr as (_ & _ & [_ Hnd]%NoDup_cons & _).
  destruct (list_sort_init_inv priv cmp m head l Hr H2) as (st0 & Hinit & H0).
  destruct (list_sort_rounds_inv priv cmp mfuel m l st0 H0 Hnd Hlen Hmfuel k)
    as (st & runs & Hrounds & Hinv); [lia|].
  exists st0, st, runs. split; [done|]. split; [done|]. split.
  { rewrite (list_sort_loop_rounds mfuel m l fuel 0 st0 []); try done;
      try lia. by rewrite Nat.sub_0_r. }
  destruct Hinv as (Hrep & _ & Hcount & Hsizes & Hsegs & Hsorted & _).
  split; [done|]. split; [done|].
  unfold pending_sizes in Hsizes.
  destruct (map length runs) as [|s L] eqn:HL; [lia|].
  destruct Hsizes as [-> Hsizes].
  assert (is_pow2 1) as H1 by (by exists 0%nat).
  split; [constructor; [done|by eapply run_sizes_pow2]|].
  split.
  { intros n. destruct (run_sizes_twice _ _ _ Hsizes) as [Hall Hone]; [lia|].
    destruct (decide (n = 1%nat)) as [->|Hn].
    - rewrite count_occ_cons_eq by done. lia.
    - rewrite count_occ_cons_neq by done. apply Hall. }
  split; [by eapply run_sizes_sorted|]. split; [done|].
  split; [by exists L|]. split; [|done].
  pose proof (run_sizes_sum _ _ _ Hsizes) as Hsum. simpl. lia.
Qed.

End pending_runs.

Lemma pending_runs_invariant_witness :
  ∃ st0 st runs,
    ListSort.list_sort_init queue_baba q_head = Some st0 ∧
    ListSort.list_sort_rounds tt (payload_cmp queue_baba) 4 3 st0 = Some st ∧
    ListSort.list_sort_loop tt (payload_cmp queue_baba) 4 4 st0
      = ListSort.list_sort_rounds tt (payload_cmp queue_baba) 4
          (length [1; 2; 3; 4]%nat) st0 ∧
    ListSort.ls_count st = Z.of_nat 3 ∧
    ListSortLoop.pending_rep (ListSort.ls_mem st) (ListSort.ls_pending st)
      runs ∧
    Forall ListSortLoop.is_pow2 (map length runs) ∧
    (∀ n, count_occ Nat.eq_dec (map length runs) n ≤ 2)%nat ∧
    Sorted le (map length runs) ∧
    (∃ segs, Forall2 (≡ₚ) runs segs ∧
             concat (rev segs) = take 3 [1; 2; 3; 4]%nat) ∧
    (∃ L, map length runs = 1%nat :: L ∧
          ListSortLoop.run_sizes 1 (Z.of_nat 3 - 1) L) ∧
    list_sum (map length runs) = 3%nat ∧
    (ListSortLoop.cmp_total tt (payload_cmp queue_baba) →
     Forall (Sorted (ListSortLoop.cmp_le tt (payload_cmp queue_baba))) runs).
Proof.
  apply (pending_runs_invariant tt (payload_cmp queue_baba) 4 4 queue_baba
           q_head [1; 2; 3; 4]%nat 3);
    [by_evaluation|simpl; lia..].
Defined.

(** C5, as the specification has it, fails twice.  On the queue "a","b","c"
    the pending stack holds, after the second round, the two runs [2] and
    [1] of size 1 while [count] is 2, whose only set bit stands for one run
    of size 2.  And with a callback that puts every node after every other
    one, the third round merges them into the run [2; 1], which that
    callback does not sort. *)
Lemma pending_runs_not_set_bits :
  ring queue_abc q_head [1; 2; 3]%nat ∧
  (∃ st0 st,
     ListSort.list_sort_init queue_abc q_head = Some st0 ∧
     ListSort.list_sort_rounds tt (payload_cmp queue_abc) 3 2 st0 = Some st ∧
     ListSort.ls_count st = 2 ∧
     ListSortLoop.pending_rep (ListSort.ls_mem st) (ListSort.ls_pending st)
       [[2%nat]; [1%nat]] ∧
     set_bit_sizes 64 0 (ListSort.ls_count st) = [2%nat] ∧
     ¬ sizes_are_set_bits st) ∧
  (∃ st0 st,
     ListSort.list_sort_init queue_abc q_head = Some st0 ∧
     ListSort.list_sort_rounds tt always_after 3 3 st0 = Some st ∧
     ListSortLoop.pending_rep (ListSort.ls_mem st) (ListSort.ls_pending st)
       [[3%nat]; [2; 1]%nat] ∧
     ¬ Forall (Sorted (ListSortLoop.cmp_le tt always_after))
         [[3%nat]; [2; 1]%nat]).
Proof.
  split; [by_evaluation|]. split.
  - assert ((st0 ← ListSort.list_sort_init queue_abc q_head;
             st ← ListSort.list_sort_rounds tt (payload_cmp queue_abc) 3 2
                    st0;
             Some (bool_decide
                     (ListSort.ls_count st = 2 ∧
                      ListSortLoop.pending_rep (ListSort.ls_mem st)
                        (ListSort.ls_pending st) [[2%nat]; [1%nat]])))
            = Some true) as H by (vm_compute; reflexivity).
    destruct (ListSort.list_sort_init queue_abc q_head) as [st0|];
      [|discriminate H].
    cbn [mbind option_bind] in H.
    destruct (ListSort.list_sort_rounds tt (payload_cmp queue_abc) 3 2 st0)
      as [st|] eqn:Hrounds; [|discriminate H].
    cbn [mbind option_bind] in H. injection H as H.
    apply bool_decide_eq_true in H as [Hcount Hrep].
    exists st0, st. do 4 (split; [done|]). rewrite Hcount.
    split; [by vm_compute|].
    intros (runs & Hruns & Hperm).
    rewrite (pending_rep_functional _ _ runs [[2%nat]; [1%nat]] Hruns Hrep),
      Hcount in Hperm.
    apply Permutation_length in Hperm. vm_compute in Hperm. done.
  - assert ((st0 ← ListSort.list_sort_init queue_abc q_head;
             st ← ListSort.list_sort_rounds tt always_after 3 3 st0;
             Some (bool_decide
                     (ListSortLoop.pending_rep (ListSort.ls_mem st)
                        (ListSort.ls_pending st) [[3%nat]; [2; 1]%nat])))
            = Some true) as H by (vm_compute; reflexivity).
    destruct (ListSort.list_sort_init queue_abc q_head) as [st0|];
      [|discriminate H].
    cbn [mbind option_bind] in H.
    destruct (ListSort.list_sort_rounds tt always_after 3 3 st0)
      as [st|] eqn:Hrounds; [|discriminate H].
    cbn [mbind option_bind] in H. injection H as H.
    apply bool_decide_eq_true in H.
    exists st0, st. do 3 (split; [done|]).
    intros Hs. apply Forall_cons in Hs as [_ Hs].
    apply Forall_cons in Hs as [Hs _].
    apply Sorted_inv in Hs as [_ Hs]. apply HdRel_inv in Hs.
    unfold ListSortLoop.cmp_le, always_after in Hs. lia.
Qed.

(** ** What q_sort and q_reverse do *)

(** X1: on every ring of elements and for either value of [descend],
    [q_sort] returns and leaves a ring of the same nodes, with the payloads
    they had, in non-decreasing order of payload. *)
Theorem q_sort_ascending fuel m head l descend :
  ring m head l → elements m l → (length l < fuel)%nat →
  ∃ m' out,
    q_sort fuel m head descend = Some m' ∧
    ring m' head out ∧ out ≡ₚ l ∧
    Sorted (le_val (payload_of m)) out ∧
    (∀ q, load_value m' q = load_value m q).
Proof.
  intros Hr He Hfuel. apply elements_payloads in He.
  by apply q_sort_spec.
Qed.

Lemma q_sort_ascending_witness :
  ∃ m' out,
    q_sort 5 queue_baba q_head true = Some m' ∧
    ring m' q_head out ∧ out ≡ₚ [1; 2; 3; 4]%nat ∧
    Sorted (le_val (payload_of queue_baba)) out ∧
    (∀ q, load_value m' q = load_value queue_baba q).
Proof.
  apply (q_sort_ascending 5 queue_baba q_head [1; 2; 3; 4]%nat true);
    [by_evaluation|by_evaluation|simpl; lia].
Defined.

(** X2: [q_reverse] returns and leaves the ring of the same nodes in the
    opposite order, each with the payload it had. *)
Theorem q_reverse_reverses fuel m head l :
  ring m head l → (length l < fuel)%nat →
  ∃ m',
    q_reverse fuel m head = Some m' ∧ ring m' head (rev l) ∧
    (∀ q, load_value m' q = load_value m q).
Proof. apply q_reverse_spec. Qed.

Lemma q_reverse_reverses_witness :
  ∃ m',
    q_reverse 5 queue_baba q_head = Some m' ∧
    ring m' q_head (rev [1; 2; 3; 4]%nat) ∧
    (∀ q, load_value m' q = load_value queue_baba q).
Proof.
  apply (q_reverse_reverses 5 queue_baba q_head [1; 2; 3; 4]%nat);
    [by_evaluation|simpl; lia].
Defined.

(** * Further properties of the queue operations *)

(** ** Putting a node into a ring *)

Lemma seg_insert f g p A a x B e :
  seg f p ((A ++ [a]) ++ B) e →
  g a = Some x → g x = Some (hd e B) →
  (∀ y, y ∈ A ++ B → g y = f y) →
  seg g p ((A ++ [a]) ++ x :: B) e.
Proof.
  intros Hs Hga Hgx Hg.
  apply seg_app in Hs as (q & H1 & H2).
  apply seg_app. exists x. split.
  - eapply seg_set_last; [exact H1| |done]. intros y Hy. apply Hg. set_solver.
  - simpl. split; [done|]. exists (hd e B). split; [done|].
    pose proof (seg_hd _ _ _ _ H2) as ->.
    eapply seg_ext; [|done]. intros y Hy. symmetry. apply Hg. set_solver.
Qed.

Lemma snoc_last_head (head : ptr) l :
  ∃ A, head :: l = A ++ [List.last l head].
Proof.
  destruct l as [|b l _] using rev_ind.
  - by exists [].
  - exists (head :: l). by rewrite last_last.
Qed.

Lemma last_elem_of (head : ptr) l : List.last l head ∈ head :: l.
Proof.
  destruct l as [|b l _] using rev_ind; [simpl; set_solver|].
  rewrite last_last. set_solver.
Qed.

Lemma hd_elem_of_cons (head : ptr) l : hd head l ∈ head :: l.
Proof. destruct l; simpl; set_solver. Qed.

(** The heap [m'] differs from [m], on the nodes of the ring, by the four
    links that put [nd] behind the node in front of [l2]. *)
Lemma ring_insert m m' head l1 nd l2 :
  ring m head (l1 ++ l2) → nd ≠ NULL → nd ∉ head :: l1 ++ l2 →
  load_next m' (List.last l1 head) = Some nd →
  load_next m' nd = Some (hd head l2) →
  load_prev m' nd = Some (List.last l1 head) →
  load_prev m' (hd head l2) = Some nd →
  (∀ y, y ∈ head :: l1 ++ l2 → y ≠ List.last l1 head →
        load_next m' y = load_next m y) →
  (∀ y, y ∈ head :: l1 ++ l2 → y ≠ hd head l2 →
        load_prev m' y = load_prev m y) →
  ring m' head (l1 ++ nd :: l2).
Proof.
  intros (Hhead & Hnull & Hnd & Hn & Hp) Hndn Hfresh Hn1 Hn2 Hp1 Hp2 Hnf Hpf.
  pose proof Hnd as Hnd0.
  apply NoDup_cons in Hnd as [Hh Hnd].
  apply NoDup_app in Hnd as (Hd1 & Hdisj & Hd2).
  assert (nd ≠ head ∧ (nd ∉ l1) ∧ (nd ∉ l2)) as (Hxh & Hx1 & Hx2)
    by set_solver.
  split; [done|]. split; [set_solver|]. split.
  { apply NoDup_cons. split; [set_solver|]. apply NoDup_app.
    split; [done|]. split; [|apply NoDup_cons; split; done].
    intros y Hy. specialize (Hdisj y Hy). set_solver. }
  split.
  - destruct (snoc_last_head head l1) as (A & HA).
    change (head :: l1 ++ l2) with ((head :: l1) ++ l2) in Hn.
    change (head :: l1 ++ nd :: l2) with ((head :: l1) ++ nd :: l2).
    rewrite HA in Hn |- *.
    assert (NoDup (A ++ [List.last l1 head])) as HndA.
    { rewrite <- HA. apply NoDup_cons. set_solver. }
    apply NoDup_app in HndA as (_ & HdA & _).
    eapply seg_insert; [exact Hn|done|done|].
    intros y Hy. apply Hnf.
    + assert (y ∈ (A ++ [List.last l1 head]) ++ l2) as Hy' by set_solver.
      rewrite <- HA in Hy'. done.
    + intros ->. apply elem_of_app in Hy as [Hy|Hy].
      * apply (HdA _ Hy). set_solver.
      * assert (List.last l1 head ∈ head :: l1) as Hin by apply last_elem_of.
        apply elem_of_cons in Hin as [Heq|Hin].
        -- rewrite Heq in Hy. set_solver.
        -- by apply (Hdisj _ Hin).
  - rewrite rev_mid. rewrite rev_app_distr in Hp.
    destruct (snoc_last_head head (rev l2)) as (A & HA).
    rewrite last_rev_hd in HA.
    change (head :: rev l2 ++ rev l1) with ((head :: rev l2) ++ rev l1) in Hp.
    change (head :: rev l2 ++ nd :: rev l1)
      with ((head :: rev l2) ++ nd :: rev l1).
    rewrite HA in Hp |- *.
    assert (NoDup (A ++ [hd head l2])) as HndA.
    { rewrite <- HA. apply NoDup_cons. split; [rewrite elem_of_rev; set_solver|].
      apply NoDup_ListNoDup, NoDup_rev, NoDup_ListNoDup. done. }
    apply NoDup_app in HndA as (_ & HdA & _).
    eapply seg_insert; [exact Hp|done|by rewrite hd_rev_last|].
    intros y Hy. apply Hpf.
    + assert (y ∈ (A ++ [hd head l2]) ++ rev l1) as Hy' by set_solver.
      rewrite <- HA in Hy'. apply elem_of_cons in Hy' as [->|Hy']; [by left|].
      right. apply elem_of_app in Hy' as [Hy'|Hy'];
        rewrite elem_of_rev in Hy'; set_solver.
    + intros ->. apply elem_of_app in Hy as [Hy|Hy].
      * apply (HdA _ Hy). set_solver.
      * rewrite elem_of_rev in Hy.
        assert (hd head l2 ∈ head :: l2) as Hin by apply hd_elem_of_cons.
        apply elem_of_cons in Hin as [Heq|Hin].
        -- rewrite Heq in Hy. set_solver.
        -- by apply (Hdisj _ Hy).
Qed.

Lemma ring_next_last m head l1 l2 :
  ring m head (l1 ++ l2) →
  load_next m (List.last l1 head) = Some (hd head l2).
Proof.
  intros Hr. destruct l1 as [|a l1 _] using rev_ind.
  - by apply ring_head_links in Hr as [? _].
  - rewrite last_last. rewrite <- app_assoc in Hr.
    apply (ring_next_of _ _ _ _ _ Hr).
Qed.

Lemma ring_prev_hd m head l1 l2 :
  ring m head (l1 ++ l2) →
  load_prev m (hd head l2) = Some (List.last l1 head).
Proof.
  intros Hr. destruct l2 as [|b l2].
  - rewrite app_nil_r in Hr. by apply ring_head_links in Hr as [_ ?].
  - apply (ring_prev_of _ _ _ _ _ Hr).
Qed.

(** [list_add] puts an allocated node that is not in the ring behind the
    node [List.last l1 head] of the ring. *)
Lemma list_add_ring m head l1 nd l2 :
  ring m head (l1 ++ l2) → allocated m nd → nd ∉ head :: l1 ++ l2 →
  ∃ m',
    list_add m nd (List.last l1 head) = Some m' ∧
    ring m' head (l1 ++ nd :: l2) ∧
    (∀ q, load_value m' q = load_value m q) ∧
    (∀ q, allocated m' q ↔ allocated m q) ∧
    (∀ q, q ∉ nd :: head :: l1 ++ l2 → load m' q = load m q).
Proof.
  intros Hr Hal Hfresh.
  pose proof (ring_next_last _ _ _ _ Hr) as Hnx.
  set (anchor := List.last l1 head) in *. set (nx := hd head l2) in *.
  assert (anchor ∈ head :: l1 ++ l2) as Hain.
  { pose proof (last_elem_of head l1). set_solver. }
  assert (nx ∈ head :: l1 ++ l2) as Hnin.
  { pose proof (hd_elem_of_cons head l2). set_solver. }
  assert (nd ≠ anchor ∧ nd ≠ nx) as [Hna Hnn].
  { split; intros ->; done. }
  unfold list_add. rewrite Hnx. sbind.
  destruct (store_prev_Some m nx nd) as (m1 & -> & Hw1);
    [by eapply ring_allocated|]. sbind.
  destruct (store_next_Some m1 nd nx) as (m2 & -> & Hw2).
  { by apply (prev_written_allocated _ _ _ _ _ Hw1). } sbind.
  destruct (store_prev_Some m2 nd anchor) as (m3 & -> & Hw3).
  { apply (next_written_allocated _ _ _ _ _ Hw2).
    by apply (prev_written_allocated _ _ _ _ _ Hw1). } sbind.
  destruct (store_next_Some m3 anchor nd) as (m4 & -> & Hw4).
  { apply (prev_written_allocated _ _ _ _ _ Hw3).
    apply (next_written_allocated _ _ _ _ _ Hw2).
    apply (prev_written_allocated _ _ _ _ _ Hw1). by eapply ring_allocated. }
  exists m4. split; [done|]. split; [|split; [|split]].
  - eapply ring_insert; [exact Hr| | | | | | | |].
    + by apply allocated_not_null in Hal.
    + done.
    + apply Hw4.
    + rewrite (nw_next_ne _ _ _ _ Hw4) by done.
      rewrite (pw_next _ _ _ _ Hw3). apply Hw2.
    + rewrite (nw_prev _ _ _ _ Hw4). apply Hw3.
    + rewrite (nw_prev _ _ _ _ Hw4).
      rewrite (pw_prev_ne _ _ _ _ Hw3) by done.
      rewrite (nw_prev _ _ _ _ Hw2). apply Hw1.
    + intros y Hy Hne. rewrite (nw_next_ne _ _ _ _ Hw4) by done.
      rewrite (pw_next _ _ _ _ Hw3).
      rewrite (nw_next_ne _ _ _ _ Hw2) by (intros ->; done).
      apply Hw1.
    + intros y Hy Hne. rewrite (nw_prev _ _ _ _ Hw4).
      rewrite (pw_prev_ne _ _ _ _ Hw3) by (intros ->; done).
      rewrite (nw_prev _ _ _ _ Hw2). by apply Hw1.
  - intros q. by rewrite (nw_value _ _ _ _ Hw4), (pw_value _ _ _ _ Hw3),
      (nw_value _ _ _ _ Hw2), (pw_value _ _ _ _ Hw1).
  - intros q. rewrite (next_written_allocated _ _ _ _ _ Hw4).
    rewrite (prev_written_allocated _ _ _ _ _ Hw3).
    rewrite (next_written_allocated _ _ _ _ _ Hw2).
    apply (prev_written_allocated _ _ _ _ _ Hw1).
  - intros q Hq.
    rewrite (nw_load_ne _ _ _ _ Hw4) by (intros ->; set_solver).
    rewrite (pw_load_ne _ _ _ _ Hw3) by set_solver.
    rewrite (nw_load_ne _ _ _ _ Hw2) by set_solver.
    apply (pw_load_ne _ _ _ _ Hw1). intros ->. set_solver.
Qed.

(** [list_add_tail] puts the node in front of the sentinel, at the end of
    the ring. *)
Lemma list_add_tail_ring m head l nd :
  ring m head l → allocated m nd → nd ∉ head :: l →
  ∃ m',
    list_add_tail m nd head = Some m' ∧
    ring m' head (l ++ [nd]) ∧
    (∀ q, load_value m' q = load_value m q) ∧
    (∀ q, allocated m' q ↔ allocated m q) ∧
    (∀ q, q ∉ nd :: head :: l → load m' q = load m q).
Proof.
  intros Hr Hal Hfresh.
  pose proof (ring_head_links _ _ _ Hr) as [_ Hpv].
  set (pv := List.last l head) in *.
  assert (pv ∈ head :: l) as Hpin by apply last_elem_of.
  assert (head ∈ head :: l) as Hhin by set_solver.
  assert (nd ≠ pv ∧ nd ≠ head) as [Hnp Hnh].
  { split; intros ->; done. }
  unfold list_add_tail. rewrite Hpv. sbind.
  destruct (store_next_Some m pv nd) as (m1 & -> & Hw1);
    [by eapply ring_allocated|]. sbind.
  destruct (store_next_Some m1 nd head) as (m2 & -> & Hw2).
  { by apply (next_written_allocated _ _ _ _ _ Hw1). } sbind.
  destruct (store_prev_Some m2 nd pv) as (m3 & -> & Hw3).
  { apply (next_written_allocated _ _ _ _ _ Hw2).
    by apply (next_written_allocated _ _ _ _ _ Hw1). } sbind.
  destruct (store_prev_Some m3 head nd) as (m4 & -> & Hw4).
  { apply (prev_written_allocated _ _ _ _ _ Hw3).
    apply (next_written_allocated _ _ _ _ _ Hw2).
    apply (next_written_allocated _ _ _ _ _ Hw1). by eapply ring_allocated. }
  exists m4. split; [done|]. split; [|split; [|split]].
  - rewrite <- (app_nil_r l) in Hr.
    eapply (ring_insert m m4 head l nd []); [exact Hr| | | | | | | |].
    + by apply allocated_not_null in Hal.
    + by rewrite app_nil_r.
    + rewrite (pw_next _ _ _ _ Hw4), (pw_next _ _ _ _ Hw3).
      rewrite (nw_next_ne _ _ _ _ Hw2) by done. apply Hw1.
    + rewrite (pw_next _ _ _ _ Hw4), (pw_next _ _ _ _ Hw3). apply Hw2.
    + rewrite (pw_prev_ne _ _ _ _ Hw4) by done. apply Hw3.
    + apply Hw4.
    + rewrite app_nil_r. intros y Hy Hne.
      rewrite (pw_next _ _ _ _ Hw4), (pw_next _ _ _ _ Hw3).
      rewrite (nw_next_ne _ _ _ _ Hw2) by (intros ->; done).
      by apply Hw1.
    + rewrite app_nil_r. intros y Hy Hne.
      rewrite (pw_prev_ne _ _ _ _ Hw4) by done.
      rewrite (pw_prev_ne _ _ _ _ Hw3) by (intros ->; done).
      rewrite (nw_prev _ _ _ _ Hw2). apply Hw1.
  - intros q. by rewrite (pw_value _ _ _ _ Hw4), (pw_value _ _ _ _ Hw3),
      (nw_value _ _ _ _ Hw2), (nw_value _ _ _ _ Hw1).
  - intros q. rewrite (prev_written_allocated _ _ _ _ _ Hw4).
    rewrite (prev_written_allocated _ _ _ _ _ Hw3).
    rewrite (next_written_allocated _ _ _ _ _ Hw2).
    apply (next_written_allocated _ _ _ _ _ Hw1).
  - intros q Hq.
    rewrite (pw_load_ne _ _ _ _ Hw4) by set_solver.
    rewrite (pw_load_ne _ _ _ _ Hw3) by set_solver.
    rewrite (nw_load_ne _ _ _ _ Hw2) by set_solver.
    apply (nw_load_ne _ _ _ _ Hw1). intros ->. set_solver.
Qed.

(** ** q_insert_head and q_insert_tail *)

Lemma new_element_spec m p s :
  p ≠ NULL → load m p = None →
  ∃ m1,
    new_element m p s = Some m1 ∧
    load m1 p = Some (Node NULL NULL (Some s)) ∧
    (∀ q, q ≠ p → load m1 q = load m q).
Proof.
  intros Hp Hfree. unfold new_element, load in *.
  rewrite decide_False in Hfree by done. rewrite decide_False by done.
  rewrite Hfree. eexists. split; [done|]. split.
  - rewrite decide_False by done. by rewrite lookup_insert_eq.
  - intros q Hq. destruct (decide (q = NULL)); [done|].
    by rewrite lookup_insert_ne.
Qed.

(** A new element next to a ring: the ring is still there, and the element
    is allocated, outside of it, with its payload. *)
Lemma new_element_ring m head l p s m1 :
  ring m head l → p ≠ NULL → load m p = None →
  load m1 p = Some (Node NULL NULL (Some s)) →
  (∀ q, q ≠ p → load m1 q = load m q) →
  ring m1 head l ∧ allocated m1 p ∧ (p ∉ head :: l) ∧
  load_value m1 p = Some s ∧
  (∀ q, q ≠ p → load_value m1 q = load_value m q).
Proof.
  intros Hr Hp Hfree Hnew Hold.
  assert (p ∉ head :: l) as Hout.
  { intros Hin. destruct (ring_allocated _ _ _ _ Hr Hin) as [n Hn].
    by rewrite Hfree in Hn. }
  split; [|split; [by eexists|split; [done|split]]].
  - eapply ring_ext; [|done]. intros q Hq. apply Hold. by intros ->.
  - unfold load_value. by rewrite Hnew.
  - intros q Hq. unfold load_value. by rewrite Hold.
Qed.

Section insert.

Context (m : mem) (head : ptr) (l : list ptr) (s : string)
  (al : alloc_outcome).

Hypothesis Hring : ring m head l.

(** [malloc] never returns a block that is in use. *)
Hypothesis Hfresh : malloc_result al ≠ NULL → load m (malloc_result al) = None.

Lemma q_insert_head_ok :
  malloc_result al ≠ NULL → strdup_ok al = true →
  ∃ m',
    q_insert_head m head s al = Some (m', true) ∧
    ring m' head (malloc_result al :: l) ∧
    load_value m' (malloc_result al) = Some s ∧
    (∀ q, q ≠ malloc_result al → load_value m' q = load_value m q) ∧
    (∀ q, q ∉ malloc_result al :: head :: l → load m' q = load m q).
Proof.
  intros Hp Hdup. pose proof Hring as (Hhead & _).
  unfold q_insert_head. rewrite !decide_False by done. rewrite Hdup.
  cbn [negb].
  destruct (new_element_spec m (malloc_result al) s Hp (Hfresh Hp))
    as (m1 & -> & Hnew & Hold). sbind.
  destruct (new_element_ring m head l _ s m1 Hring Hp (Hfresh Hp) Hnew Hold)
    as (Hr1 & Hal & Hout & Hv & Hvs).
  destruct (list_add_ring m1 head [] (malloc_result al) l Hr1 Hal Hout)
    as (m2 & Hadd & Hr2 & Hval & _ & Hframe).
  simpl in Hadd. rewrite Hadd. sbind. exists m2. split; [done|].
  split; [done|]. split; [by rewrite Hval|]. split.
  - intros q Hq. rewrite Hval. by apply Hvs.
  - intros q Hq. rewrite Hframe by done. apply Hold. set_solver.
Qed.

Lemma q_insert_tail_ok :
  malloc_result al ≠ NULL → strdup_ok al = true →
  ∃ m',
    q_insert_tail m head s al = Some (m', true) ∧
    ring m' head (l ++ [malloc_result al]) ∧
    load_value m' (malloc_result al) = Some s ∧
    (∀ q, q ≠ malloc_result al → load_value m' q = load_value m q) ∧
    (∀ q, q ∉ malloc_result al :: head :: l → load m' q = load m q).
Proof.
  intros Hp Hdup. pose proof Hring as (Hhead & _).
  unfold q_insert_tail. rewrite !decide_False by done. rewrite Hdup.
  cbn [negb].
  destruct (new_element_spec m (malloc_result al) s Hp (Hfresh Hp))
    as (m1 & -> & Hnew & Hold). sbind.
  destruct (new_element_ring m head l _ s m1 Hring Hp (Hfresh Hp) Hnew Hold)
    as (Hr1 & Hal & Hout & Hv & Hvs).
  destruct (list_add_tail_ring m1 head l (malloc_result al) Hr1 Hal Hout)
    as (m2 & Hadd & Hr2 & Hval & _ & Hframe).
  rewrite Hadd. sbind. exists m2. split; [done|].
  split; [done|]. split; [by rewrite Hval|]. split.
  - intros q Hq. rewrite Hval. by apply Hvs.
  - intros q Hq. rewrite Hframe by done. apply Hold. set_solver.
Qed.

Lemma q_insert_head_fails :
  malloc_result al = NULL ∨ strdup_ok al = false →
  q_insert_head m head s al = Some (m, false).
Proof.
  pose proof Hring as (Hhead & _). unfold q_insert_head.
  rewrite decide_False by done. intros [->| ->].
  - by rewrite decide_True.
  - by case_decide.
Qed.

Lemma q_insert_tail_fails :
  malloc_result al = NULL ∨ strdup_ok al = false →
  q_insert_tail m head s al = Some (m, false).
Proof.
  pose proof Hring as (Hhead & _). unfold q_insert_tail.
  rewrite decide_False by done. intros [->| ->].
  - by rewrite decide_True.
  - by case_decide.
Qed.

End insert.

(** ** q_size *)

Lemma q_size_loop_spec head rest :
  ∀ fuel m li len,
    seg (load_next m) li rest head → head ∉ rest →
    (length rest ≤ fuel)%nat →
    0 <= len → len + Z.of_nat (length rest) < 2 ^ 31 →
    q_size_loop fuel m head li len = Some (len + Z.of_nat (length rest)).
Proof.
  induction rest as [|a rest IH]; intros fuel m li len Hs Hh Hfuel H0 Hlen.
  - simpl in Hs. subst li. simpl.
    destruct fuel; cbn [q_size_loop]; rewrite decide_True by done;
      f_equal; lia.
  - simpl in Hs. destruct Hs as (-> & q & Hq & Hs).
    destruct fuel as [|fuel]; [simpl in Hfuel; lia|].
    cbn [q_size_loop]. rewrite decide_False by set_solver. rewrite Hq. sbind.
    cbn [length] in *.
    assert (int_wrap (len + 1) = len + 1) as ->.
    { unfold int_wrap. rewrite Z.mod_small; lia. }
    rewrite (IH fuel m q (len + 1) Hs); [f_equal; lia|set_solver|lia..].
Qed.

(** ** q_delete_mid *)

Lemma hd_drop_lookup (l : list ptr) d k : hd d (drop k l) = default d (l !! k).
Proof.
  revert k. induction l as [|a l IH]; intros [|k]; simpl; done.
Qed.

(** The successor of the node at index [k] is the node at index [k + 1], or
    the sentinel after the last one. *)
Lemma ring_next_lookup m head l k x :
  ring m head l → l !! k = Some x →
  load_next m x = Some (default head (l !! S k)).
Proof.
  intros Hr Hk. rewrite <- (take_drop_middle l k x Hk) in Hr.
  rewrite (ring_next_of _ _ _ _ _ Hr). by rewrite hd_drop_lookup.
Qed.

Lemma ring_lookup_not_head m head l k x :
  ring m head l → l !! k = Some x → x ≠ head.
Proof.
  intros (_ & _ & Hnd & _) Hk ->. apply NoDup_cons in Hnd as [Hh _].
  apply Hh. by eapply list_elem_of_lookup_2.
Qed.

Lemma delete_mid_loop_spec m head l :
  ring m head l →
  ∀ fuel i slow fast,
    l !! i = Some slow → fast = default head (l !! (2 * i)%nat) →
    (2 * i ≤ length l)%nat → (length l ≤ 2 * i + 2 * fuel)%nat →
    ∃ x,
      delete_mid_loop fuel m head slow fast = Some x ∧
      l !! (length l / 2)%nat = Some x.
Proof.
  intros Hr. induction fuel as [|fuel IH]; intros i slow fast Hi -> H2i Hfuel.
  - assert (l !! (2 * i)%nat = None) as Hnone.
    { apply lookup_ge_None. pose proof (lookup_lt_Some _ _ _ Hi) as Hilt. lia. }
    rewrite Hnone. cbn [from_option id delete_mid_loop]. rewrite decide_True by done. exists slow.
    split; [done|]. pose proof (lookup_lt_Some _ _ _ Hi) as Hilt.
    assert (length l = 2 * i)%nat as Hlen.
    { apply lookup_ge_None in Hnone. lia. }
    assert (length l / 2 = i)%nat as ->; [|done].
    symmetry. apply (Nat.div_unique _ 2 i 0); lia.
  - cbn [delete_mid_loop].
    destruct (l !! (2 * i)%nat) as [f0|] eqn:Hf0; cbn [from_option id].
    + rewrite decide_False by (by eapply ring_lookup_not_head).
      rewrite (ring_next_lookup _ _ _ _ _ Hr Hf0). sbind.
      destruct (l !! S (2 * i)) as [f1|] eqn:Hf1; cbn [from_option id].
      * rewrite decide_False by (by eapply ring_lookup_not_head).
        rewrite (ring_next_lookup _ _ _ _ _ Hr Hi). sbind.
        rewrite (ring_next_lookup _ _ _ _ _ Hr Hf1). sbind.
        assert (is_Some (l !! S i)) as [s1 Hs1].
        { apply lookup_lt_is_Some. pose proof (lookup_lt_Some _ _ _ Hf1). lia. }
        rewrite Hs1. cbn [from_option id].
        apply lookup_lt_Some in Hf1.
        apply (IH (S i)); [done| |lia|lia].
        by replace (2 * S i)%nat with (S (S (2 * i))) by lia.
      * rewrite decide_True by done. exists slow. split; [done|].
        apply lookup_ge_None in Hf1. pose proof (lookup_lt_Some _ _ _ Hf0).
        assert (length l / 2 = i)%nat as ->; [|done].
        symmetry. apply (Nat.div_unique _ 2 i 1); lia.
    + rewrite decide_True by done. exists slow. split; [done|].
      apply lookup_ge_None in Hf0. pose proof (lookup_lt_Some _ _ _ Hi) as Hilt.
      assert (length l / 2 = i)%nat as ->; [|done].
      symmetry. apply (Nat.div_unique _ 2 i 0); lia.
Qed.

Lemma free_Some m p : allocated m p → is_Some (free m p).
Proof. intros [n Hn]. unfold free. rewrite Hn. eauto. Qed.

(** [list_del_init] followed by [q_release_element]. *)
Lemma delete_init_node_ring m head l1 x l2 :
  ring m head (l1 ++ x :: l2) → is_Some (load_value m x) →
  ∃ m1 m',
    list_del_init m x = Some m1 ∧ q_release_element m1 x = Some m' ∧
    ring m' head (l1 ++ l2) ∧
    load m' x = None ∧
    (∀ q, q ≠ x → load m' q = load m1 q) ∧
    (∀ q, q ≠ x → load_value m' q = load_value m q) ∧
    (∀ q, q ≠ x → allocated m' q ↔ allocated m q).
Proof.
  intros Hr [v Hv].
  pose proof (ring_mid_distinct _ _ _ _ _ Hr) as (Hxh & Hxn & Hx1 & Hx2 & _).
  destruct (list_del_ring _ _ _ _ _ Hr) as (m0 & Hdel & Hr0 & Hval & Hal & Hx).
  assert (allocated m0 x) as Hax.
  { apply Hal. by eapply load_value_allocated. }
  unfold list_del_init, INIT_LIST_HEAD. rewrite Hdel. sbind.
  destruct (store_next_Some m0 x x Hax) as (m1 & -> & Hw1). sbind.
  destruct (store_prev_Some m1 x x) as (m2 & -> & Hw2).
  { by apply (next_written_allocated _ _ _ _ _ Hw1). }
  assert (load_value m2 x = Some v) as Hv2.
  { by rewrite (pw_value _ _ _ _ Hw2), (nw_value _ _ _ _ Hw1), Hval. }
  destruct (free_Some m2 x) as [m3 Hfree].
  { by eapply load_value_allocated. }
  exists m2, m3. split; [done|]. unfold q_release_element. rewrite Hv2. sbind.
  split; [done|]. apply free_spec in Hfree as [Hgone Hkeep].
  assert (∀ q, q ≠ x → load m3 q = load m0 q) as Hsame.
  { intros q Hq. rewrite Hkeep by done.
    rewrite (pw_load_ne _ _ _ _ Hw2) by done.
    by apply (nw_load_ne _ _ _ _ Hw1). }
  split; [|split; [done|split; [done|split]]].
  - eapply ring_ext; [|done]. intros q Hq. apply Hsame. set_solver.
  - intros q Hq. rewrite <- Hval. unfold load_value. by rewrite Hsame.
  - intros q Hq. rewrite <- Hal. unfold allocated. by rewrite Hsame.
Qed.

(** ** q_swap *)

(** Every two adjacent nodes change places; the last node of a list of odd
    length stays. *)
Fixpoint swap_pairs (l : list ptr) : list ptr :=
  match l with
  | a :: b :: r => b :: a :: swap_pairs r
  | _ => l
  end.

Lemma q_swap_loop_spec head :
  ∀ fuel m done rest,
    ring m head (done ++ rest) → (length rest ≤ 2 * fuel + 1)%nat →
    ∃ m',
      q_swap_loop fuel m head (hd head rest) = Some m' ∧
      ring m' head (done ++ swap_pairs rest) ∧
      (∀ q, load_value m' q = load_value m q) ∧
      (∀ q, q ∉ head :: done ++ rest → load m' q = load m q).
Proof.
  induction fuel as [|fuel IH]; intros m done rest Hr Hfuel.
  - destruct rest as [|a [|b r]]; [| |simpl in Hfuel; lia].
    + simpl. rewrite decide_True by done. by exists m.
    + pose proof (ring_mid_distinct _ _ _ _ _ Hr) as (Hah & _).
      simpl. rewrite decide_False by done.
      rewrite (ring_next_of _ _ _ _ _ Hr). sbind.
      rewrite decide_True by done. by exists m.
  - destruct rest as [|a [|b r]].
    + simpl. rewrite decide_True by done. by exists m.
    + pose proof (ring_mid_distinct _ _ _ _ _ Hr) as (Hah & _).
      simpl. rewrite decide_False by done.
      rewrite (ring_next_of _ _ _ _ _ Hr). sbind.
      rewrite decide_True by done. by exists m.
    + pose proof (ring_mid_distinct _ _ _ _ _ Hr)
        as (Hah & Han & Ha1 & Ha2 & _).
      assert (b ≠ head) as Hbh.
      { destruct Hr as (_ & _ & Hnd & _). apply NoDup_cons in Hnd as [Hh _].
        set_solver. }
      cbn [q_swap_loop hd]. rewrite decide_False by done.
      rewrite (ring_next_of _ _ _ _ _ Hr). sbind. simpl hd.
      rewrite decide_False by done.
      destruct (list_del_ring _ _ _ _ _ Hr)
        as (m0 & Hdel & Hr0 & Hval0 & Hal0 & Ha0).
      assert (allocated m0 a) as Haa.
      { apply Hal0. eapply ring_allocated; [exact Hr|]. set_solver. }
      assert (a ∉ head :: (done ++ [b]) ++ r) as Hout.
      { rewrite <- app_assoc. simpl. set_solver. }
      assert (ring m0 head ((done ++ [b]) ++ r)) as Hr0'
        by (by rewrite <- app_assoc).
      destruct (list_add_ring m0 head (done ++ [b]) a r Hr0' Haa Hout)
        as (m1 & Hadd & Hr1 & Hval1 & _ & Hf1).
      rewrite last_last in Hadd.
      unfold list_move. rewrite Hdel. sbind. rewrite Hadd. sbind.
      rewrite (ring_next_of _ _ _ _ _ Hr1). sbind.
      assert (ring m1 head ((done ++ [b; a]) ++ r)) as Hr1'.
      { rewrite <- app_assoc in Hr1 |- *. done. }
      destruct (IH m1 (done ++ [b; a]) r Hr1') as (m' & Hrun & Hr' & Hval' & Hf');
        [simpl in Hfuel; lia|].
      exists m'. split; [done|]. split.
      { by rewrite <- app_assoc in Hr'. }
      split.
      { intros q. by rewrite Hval', Hval1, Hval0. }
      intros q Hq. rewrite Hf' by (rewrite <- app_assoc; set_solver).
      rewrite Hf1 by (rewrite <- app_assoc; set_solver).
      clear -Hq Hr Hdel. unfold list_del in Hdel.
      pose proof (ring_next_of _ _ _ _ _ Hr) as Hnx.
      pose proof (ring_prev_of _ _ _ _ _ Hr) as Hpv.
      rewrite Hnx, Hpv in Hdel. simpl in Hdel.
      destruct (store_prev m b (List.last done head)) as [mm|] eqn:E1;
        [|done]. simpl in Hdel.
      apply store_prev_spec in E1. apply store_next_spec in Hdel.
      rewrite (nw_load_ne _ _ _ _ Hdel).
      * apply (pw_load_ne _ _ _ _ E1). set_solver.
      * pose proof (last_elem_of head done). set_solver.
Qed.

(** ** q_free *)

Lemma q_free_loop_spec l rest :
  ∀ fuel m pos safe,
    seg (load_next m) pos rest l → NoDup (l :: rest) → allocated m l →
    Forall (λ a, is_Some (load_value m a)) rest →
    (rest ≠ [] → safe = hd l (tl rest)) →
    (length rest ≤ fuel)%nat →
    ∃ m',
      q_free_loop fuel m l pos safe = Some m' ∧
      (∀ q, q ∈ rest → load m' q = None) ∧
      (∀ q, q ∉ rest → load m' q = load m q).
Proof.
  induction rest as [|a rest IH]; intros fuel m pos safe Hs Hnd Hl Hv Hsafe
    Hfuel.
  - simpl in Hs. subst pos. exists m. split; [|set_solver].
    destruct fuel; cbn [q_free_loop]; by rewrite decide_True.
  - simpl in Hs. destruct Hs as (-> & q & Hq & Hs).
    specialize (Hsafe ltac:(done)). simpl in Hsafe. subst safe.
    pose proof (seg_hd _ _ _ _ Hs) as ->.
    apply NoDup_cons in Hnd as [Hl' Hnd].
    apply NoDup_cons in Hnd as [Ha Hnd].
    apply Forall_cons in Hv as [[v Hva] Hv].
    destruct fuel as [|fuel]; [simpl in Hfuel; lia|].
    cbn [q_free_loop]. rewrite decide_False by set_solver.
    unfold q_release_element. rewrite Hva. sbind.
    destruct (free_Some m a) as [m1 Hfree]; [by eapply load_value_allocated|].
    rewrite Hfree. sbind. apply free_spec in Hfree as [Hgone Hkeep].
    assert (hd l rest ≠ a) as Hne.
    { destruct rest; simpl; set_solver. }
    assert (allocated m1 (hd l rest)) as Hsa.
    { unfold allocated. rewrite Hkeep by done.
      destruct rest as [|b rest']; [done|]. simpl.
      simpl in Hs. destruct Hs as (_ & q' & Hq' & _).
      by eapply load_next_allocated. }
    apply allocated_next in Hsa as [sn Hsn]. rewrite Hsn. sbind.
    destruct (IH fuel m1 (hd l rest) sn) as (m' & Hrun & Hfreed & Hrest).
    + eapply seg_ext; [|done]. intros y Hy. unfold load_next.
      rewrite Hkeep; [done|]. by intros ->.
    + apply NoDup_cons. split; [set_solver|done].
    + unfold allocated. rewrite Hkeep by set_solver. done.
    + rewrite Forall_forall in Hv |- *. intros y Hy. unfold load_value.
      rewrite Hkeep by (by intros ->). by apply Hv.
    + intros Hne'. destruct rest as [|b rest']; [done|]. simpl in *.
      destruct Hs as (_ & q' & Hq' & Hs'). unfold load_next in Hsn, Hq'.
      rewrite Hkeep in Hsn by done. rewrite Hq' in Hsn.
      injection Hsn as <-. by apply seg_hd in Hs'.
    + simpl in Hfuel. lia.
    + exists m'. split; [done|]. split.
      * intros y Hy. apply elem_of_cons in Hy as [->|Hy]; [|by apply Hfreed].
        by rewrite Hrest.
      * intros y Hy. rewrite Hrest by set_solver. apply Hkeep. set_solver.
Qed.

(** ** Creating and freeing a queue *)

Lemma q_new_spec fuel m p :
  (p ≠ NULL → load m p = None) →
  (p = NULL → q_new m p = Some (m, NULL)) ∧
  (p ≠ NULL →
   ∃ m',
     q_new m p = Some (m', p) ∧ ring m' p [] ∧
     q_size fuel m' p = Some 0 ∧
     (∀ q, q ≠ p → load m' q = load m q)).
Proof.
  intros Hfresh. split.
  - intros ->. unfold q_new. by rewrite decide_True.
  - intros Hp. specialize (Hfresh Hp). unfold q_new, new_list_head.
    rewrite !decide_False by done.
    unfold load in Hfresh. rewrite decide_False in Hfresh by done.
    rewrite Hfresh. sbind. set (m0 := <[p:=Node NULL NULL None]> m).
    assert (allocated m0 p) as Hal.
    { unfold allocated, load, m0. rewrite decide_False by done.
      rewrite lookup_insert_eq. by eexists. }
    unfold INIT_LIST_HEAD.
    destruct (store_next_Some m0 p p Hal) as (m1 & -> & Hw1). sbind.
    destruct (store_prev_Some m1 p p) as (m2 & -> & Hw2).
    { by apply (next_written_allocated _ _ _ _ _ Hw1). }
    assert (load_next m2 p = Some p) as Hn.
    { rewrite (pw_next _ _ _ _ Hw2). apply Hw1. }
    exists m2. split; [done|]. split; [|split].
    + split; [done|]. split; [set_solver|]. split; [apply NoDup_singleton|].
      split; simpl; (split; [done|]); exists p; split; try done. apply Hw2.
    + unfold q_size. rewrite decide_False by done. rewrite Hn. sbind.
      destruct fuel; cbn [q_size_loop]; by rewrite decide_True.
    + intros q Hq. rewrite (pw_load_ne _ _ _ _ Hw2) by done.
      rewrite (nw_load_ne _ _ _ _ Hw1) by done.
      unfold load, m0. destruct (decide (q = NULL)); [done|].
      by rewrite lookup_insert_ne.
Qed.

(** X3: [q_new] returns NULL and leaves the heap alone when [malloc] fails;
    otherwise it returns the new block, which is then an empty queue (its
    size is 0), and no other block has changed. *)
Theorem q_new_empty_queue fuel m p :
  (p ≠ NULL → load m p = None) →
  (p = NULL → q_new m p = Some (m, NULL)) ∧
  (p ≠ NULL →
   ∃ m',
     q_new m p = Some (m', p) ∧ ring m' p [] ∧
     q_size fuel m' p = Some 0 ∧
     (∀ q, q ≠ p → load m' q = load m q)).
Proof. apply q_new_spec. Qed.

Lemma q_new_empty_queue_witness :
  ∃ m',
    q_new queue_abc free_block = Some (m', free_block) ∧ ring m' free_block [] ∧
    q_size 0 m' free_block = Some 0 ∧
    (∀ q, q ≠ free_block → load m' q = load queue_abc q).
Proof.
  apply (q_new_empty_queue 0 queue_abc free_block); [|done].
  intros _. vm_compute. reflexivity.
Defined.

(** X4: [q_free] on a queue of elements frees the sentinel and every
    element, and touches no other block; on NULL it does nothing. *)
Theorem q_free_frees_all fuel m head l :
  ring m head l → elements m l → (length l ≤ fuel)%nat →
  (∃ m',
     q_free fuel m head = Some m' ∧
     (∀ q, q ∈ head :: l → load m' q = None) ∧
     (∀ q, q ∉ head :: l → load m' q = load m q)) ∧
  q_free fuel m NULL = Some m.
Proof.
  intros Hr He Hfuel. split; [|unfold q_free; by rewrite decide_True].
  pose proof Hr as (Hhead & _ & Hnd & Hn & _).
  pose proof (ring_head_links _ _ _ Hr) as [Hfirst _].
  unfold q_free. rewrite decide_False by done. rewrite Hfirst. sbind.
  assert (allocated m (hd head l)) as Ha.
  { eapply ring_allocated; [done|]. apply hd_elem_of_cons. }
  apply allocated_next in Ha as [safe Hsafe]. rewrite Hsafe. sbind.
  simpl in Hn. destruct Hn as (_ & q & Hq & Hs).
  rewrite Hfirst in Hq. injection Hq as <-.
  destruct (q_free_loop_spec head l fuel m (hd head l) safe)
    as (m1 & Hrun & Hfreed & Hkeep); try done.
  { by eapply ring_allocated; [|left]. }
  { intros Hne. destruct l as [|a l]; [done|]. simpl in *.
    destruct Hs as (_ & q' & Hq' & Hs'). rewrite Hsafe in Hq'.
    injection Hq' as <-. by apply seg_hd in Hs'. }
  rewrite Hrun. sbind.
  apply NoDup_cons in Hnd as [Hh _].
  destruct (free_Some m1 head) as [m2 Hfree].
  { unfold allocated. rewrite Hkeep by done. by eapply ring_allocated; [|left]. }
  exists m2. split; [done|]. apply free_spec in Hfree as [Hgone Hrest].
  split.
  - intros y Hy. apply elem_of_cons in Hy as [->|Hy]; [done|].
    rewrite Hrest by (by intros ->). by apply Hfreed.
  - intros y Hy. rewrite Hrest by set_solver. apply Hkeep. set_solver.
Qed.

Lemma q_free_frees_all_witness :
  (∃ m',
     q_free 3 queue_abc q_head = Some m' ∧
     (∀ q, q ∈ q_head :: [1; 2; 3]%nat → load m' q = None) ∧
     (∀ q, q ∉ q_head :: [1; 2; 3]%nat → load m' q = load queue_abc q)) ∧
  q_free 3 queue_abc NULL = Some queue_abc.
Proof.
  apply (q_free_frees_all 3 queue_abc q_head [1; 2; 3]%nat);
    [by_evaluation|by_evaluation|simpl; lia].
Defined.

(** X5: a queue that [q_new] has made and [q_free] has freed leaves the heap
    exactly as it was before. *)
Theorem q_new_q_free_round_trip fuel m p :
  p ≠ NULL → load m p = None →
  ∃ m', q_new m p = Some (m', p) ∧ q_free fuel m' p = Some m.
Proof.
  intros Hp Hfresh.
  destruct (q_new_spec fuel m p (λ _, Hfresh)) as [_ H].
  destruct (H Hp) as (m' & Hnew & Hr & _ & Hkeep).
  exists m'. split; [done|].
  pose proof (ring_empty _ _ Hr) as [Hn _].
  unfold q_free. rewrite decide_False by done. rewrite Hn. sbind.
  rewrite Hn. sbind.
  assert (q_free_loop fuel m' p p p = Some m') as ->.
  { destruct fuel; cbn [q_free_loop]; by rewrite decide_True. }
  sbind. unfold free.
  destruct (load m' p) as [n|] eqn:E.
  - f_equal. apply map_eq. intros i.
    destruct (decide (i = p)) as [->|Hi].
    + rewrite lookup_delete_eq. unfold load in Hfresh.
      by rewrite decide_False in Hfresh.
    + rewrite lookup_delete_ne by done.
      clear -Hnew Hi Hp. unfold q_new, new_list_head, INIT_LIST_HEAD,
        store_next, store_prev, store in Hnew.
      rewrite !decide_False in Hnew by done.
      destruct (m !! p); [done|]. simpl in Hnew.
      repeat (match type of Hnew with
              | context [load ?a ?b] => destruct (load a b); simpl in Hnew
              end; [|done]).
      injection Hnew as <-. by rewrite !lookup_insert_ne.
  - apply load_next_allocated in Hn. destruct Hn as [? Hn]. by rewrite E in Hn.
Qed.

Lemma q_new_q_free_round_trip_witness :
  ∃ m', q_new queue_abc free_block = Some (m', free_block) ∧
        q_free 0 m' free_block = Some queue_abc.
Proof.
  apply (q_new_q_free_round_trip 0 queue_abc free_block); [done|].
  vm_compute. reflexivity.
Defined.

(** ** Inserting, counting, removing *)

(** X6: on a queue, with a new block from [malloc] and a copy of the string
    from [strdup], [q_insert_head] returns true and the new element, with
    payload [s], is the first of the queue, in front of the old ones, which
    keep their order and payloads; the queue is one longer.  When [malloc]
    or [strdup] fails it returns false and the heap is as it was. *)
Theorem q_insert_head_first fuel m head l s al :
  ring m head l →
  (malloc_result al ≠ NULL → load m (malloc_result al) = None) →
  Z.of_nat (length l) + 1 < 2 ^ 31 → (length l < fuel)%nat →
  (malloc_result al ≠ NULL → strdup_ok al = true →
   ∃ m',
     q_insert_head m head s al = Some (m', true) ∧
     ring m' head (malloc_result al :: l) ∧
     load_value m' (malloc_result al) = Some s ∧
     (∀ q, q ≠ malloc_result al → load_value m' q = load_value m q) ∧
     q_size fuel m' head = Some (Z.of_nat (length l) + 1)) ∧
  (malloc_result al = NULL ∨ strdup_ok al = false →
   q_insert_head m head s al = Some (m, false)).
Proof.
  intros Hr Hfresh Hlen Hfuel. split; [|by apply (q_insert_head_fails _ _ l)].
  intros Hp Hdup.
  destruct (q_insert_head_ok m head l s al Hr Hfresh Hp Hdup)
    as (m' & Hrun & Hr' & Hv & Hvs & _).
  exists m'. repeat (split; [done|]).
  pose proof Hr' as (Hhead & _ & Hnd & Hn & _).
  unfold q_size. rewrite decide_False by done.
  simpl in Hn. destruct Hn as (_ & q & -> & Hs). sbind.
  change (q = malloc_result al ∧ ∃ q0, load_next m' (malloc_result al) = Some q0
            ∧ seg (load_next m') q0 l head)
    with (seg (load_next m') q (malloc_result al :: l) head) in Hs.
  apply NoDup_cons in Hnd as [Hh _].
  rewrite (q_size_loop_spec head (malloc_result al :: l) fuel m' q 0 Hs);
    [f_equal; simpl length; lia|done|simpl; lia|lia|simpl length; lia].
Qed.

Lemma q_insert_head_first_witness :
  ∃ m',
    q_insert_head queue_abc q_head "z"%string alloc_ok
      = Some (m', true) ∧
    ring m' q_head [free_block; 1; 2; 3]%nat ∧
    load_value m' free_block = Some "z"%string ∧
    (∀ q, q ≠ free_block → load_value m' q = load_value queue_abc q) ∧
    q_size 4 m' q_head = Some (Z.of_nat 3 + 1).
Proof.
  apply (q_insert_head_first 4 queue_abc q_head [1; 2; 3]%nat "z"%string
           alloc_ok);
    [by_evaluation|intros _; vm_compute; reflexivity|simpl; lia|simpl; lia
    |done|done].
Defined.

(** X7: under the same conditions [q_insert_tail] makes the new element the
    last of the queue, behind the old ones; when [malloc] or [strdup] fails
    it returns false and the heap is as it was. *)
Theorem q_insert_tail_last fuel m head l s al :
  ring m head l →
  (malloc_result al ≠ NULL → load m (malloc_result al) = None) →
  Z.of_nat (length l) + 1 < 2 ^ 31 → (length l < fuel)%nat →
  (malloc_result al ≠ NULL → strdup_ok al = true →
   ∃ m',
     q_insert_tail m head s al = Some (m', true) ∧
     ring m' head (l ++ [malloc_result al]) ∧
     load_value m' (malloc_result al) = Some s ∧
     (∀ q, q ≠ malloc_result al → load_value m' q = load_value m q) ∧
     q_size fuel m' head = Some (Z.of_nat (length l) + 1)) ∧
  (malloc_result al = NULL ∨ strdup_ok al = false →
   q_insert_tail m head s al = Some (m, false)).
Proof.
  intros Hr Hfresh Hlen Hfuel. split; [|by apply (q_insert_tail_fails _ _ l)].
  intros Hp Hdup.
  destruct (q_insert_tail_ok m head l s al Hr Hfresh Hp Hdup)
    as (m' & Hrun & Hr' & Hv & Hvs & _).
  exists m'. repeat (split; [done|]).
  pose proof Hr' as (Hhead & _ & Hnd & Hn & _).
  unfold q_size. rewrite decide_False by done.
  cbn [seg] in Hn. destruct Hn as (_ & q & -> & Hs). sbind.
  apply NoDup_cons in Hnd as [Hh _].
  rewrite (q_size_loop_spec head (l ++ [malloc_result al]) fuel m' q 0 Hs);
    rewrite ?length_app; simpl; [f_equal; lia|done|lia|lia|lia].
Qed.

Lemma q_insert_tail_last_witness :
  ∃ m',
    q_insert_tail queue_abc q_head "z"%string alloc_ok
      = Some (m', true) ∧
    ring m' q_head ([1; 2; 3]%nat ++ [free_block]) ∧
    load_value m' free_block = Some "z"%string ∧
    (∀ q, q ≠ free_block → load_value m' q = load_value queue_abc q) ∧
    q_size 4 m' q_head = Some (Z.of_nat 3 + 1).
Proof.
  apply (q_insert_tail_last 4 queue_abc q_head [1; 2; 3]%nat "z"%string
           alloc_ok);
    [by_evaluation|intros _; vm_compute; reflexivity|simpl; lia|simpl; lia
    |done|done].
Defined.

(** X8: [q_size] returns the number of elements of the queue. *)
Theorem q_size_counts fuel m head l :
  ring m head l → Z.of_nat (length l) < 2 ^ 31 → (length l ≤ fuel)%nat →
  q_size fuel m head = Some (Z.of_nat (length l)).
Proof.
  intros Hr Hlen Hfuel. pose proof Hr as (Hhead & _ & Hnd & Hn & _).
  unfold q_size. rewrite decide_False by done.
  cbn [seg] in Hn. destruct Hn as (_ & q & -> & Hs). sbind.
  apply NoDup_cons in Hnd as [Hh _].
  rewrite (q_size_loop_spec head l fuel m q 0 Hs); [f_equal; lia|done|lia..].
Qed.

Lemma q_size_counts_witness : q_size 3 queue_abc q_head = Some (Z.of_nat 3).
Proof.
  apply (q_size_counts 3 queue_abc q_head [1; 2; 3]%nat);
    [by_evaluation|simpl; lia|simpl; lia].
Defined.

(** X9: [q_delete_mid] returns false on an empty queue and changes
    nothing; on a queue of [n] elements, [n] at least 1, it returns true,
    unlinks and frees the element at index [n / 2], counting from 0, and
    leaves the other elements in their order, with their payloads. *)
Theorem q_delete_mid_middle fuel m head l :
  ring m head l → elements m l → (length l ≤ 2 * fuel)%nat →
  (l = [] → q_delete_mid fuel m head = Some (m, false)) ∧
  (l ≠ [] →
   ∃ m' x,
     l !! (length l / 2)%nat = Some x ∧
     q_delete_mid fuel m head = Some (m', true) ∧
     ring m' head (delete (length l / 2)%nat l) ∧
     load m' x = None ∧
     (∀ q, q ≠ x → load_value m' q = load_value m q)).
Proof.
  intros Hr He Hfuel. pose proof Hr as (Hhead & _).
  unfold q_delete_mid. rewrite decide_False by done.
  rewrite (ring_list_empty _ _ _ Hr). sbind. split.
  - intros ->. by rewrite bool_decide_eq_true_2.
  - intros Hne. rewrite bool_decide_eq_false_2 by done.
    destruct l as [|a l0] eqn:Hl; [done|]. rewrite <- Hl in *.
    assert (l !! 0%nat = Some a) as H0 by (by rewrite Hl).
    assert (load_next m head = Some a) as ->.
    { rewrite Hl in Hr. by apply ring_first in Hr as (? & _). }
    sbind.
    destruct (delete_mid_loop_spec m head l Hr fuel 0 a a H0) as (x & Hloop & Hx);
      [change (2 * 0)%nat with 0%nat; by rewrite H0|lia|lia|].
    rewrite Hloop. sbind.
    pose proof Hr as Hr'.
    rewrite <- (take_drop_middle l _ x Hx) in Hr'.
    destruct (delete_init_node_ring _ _ _ _ _ Hr')
      as (m1 & m' & Hdel & Hrel & Hring & Hgone & _ & Hval & _).
    { unfold elements in He. rewrite Forall_forall in He. apply He.
      by eapply list_elem_of_lookup_2. }
    rewrite Hdel. sbind. rewrite Hrel. sbind.
    exists m', x. split; [done|]. split; [done|].
    split; [by rewrite delete_take_drop|]. done.
Qed.

Lemma q_delete_mid_middle_witness :
  ∃ m' x,
    [1; 2; 3; 4; 5]%nat !! (length [1; 2; 3; 4; 5]%nat / 2)%nat = Some x ∧
    q_delete_mid 3 queue_abcde q_head = Some (m', true) ∧
    ring m' q_head
      (delete (length [1; 2; 3; 4; 5]%nat / 2)%nat [1; 2; 3; 4; 5]%nat) ∧
    load m' x = None ∧
    (∀ q, q ≠ x → load_value m' q = load_value queue_abcde q).
Proof.
  apply (q_delete_mid_middle 3 queue_abcde q_head [1; 2; 3; 4; 5]%nat);
    [by_evaluation|by_evaluation|simpl; lia|done].
Defined.

Lemma swap_pairs_involutive_aux l :
  swap_pairs (swap_pairs l) = l ∧
  ∀ a, swap_pairs (swap_pairs (a :: l)) = a :: l.
Proof.
  induction l as [|b l [IH1 IH2]]; [done|]. split; [apply IH2|].
  intros a. simpl. by rewrite IH1.
Qed.

Lemma swap_pairs_length_aux l :
  length (swap_pairs l) = length l ∧
  ∀ a, length (swap_pairs (a :: l)) = length (a :: l).
Proof.
  induction l as [|b l [IH1 IH2]]; [done|]. split; [apply IH2|].
  intros a. simpl. by rewrite IH1.
Qed.

(** X10: [q_swap] exchanges the elements of the queue two by two, the first
    with the second, the third with the fourth and so on, a last element
    without a partner staying where it is; payloads and blocks outside the
    queue are untouched, and a second [q_swap] restores the order. *)
Theorem q_swap_exchanges_pairs fuel m head l :
  ring m head l → (length l ≤ 2 * fuel + 1)%nat →
  ∃ m',
    q_swap fuel m head = Some m' ∧
    ring m' head (swap_pairs l) ∧
    (∀ q, load_value m' q = load_value m q) ∧
    (∀ q, q ∉ head :: l → load m' q = load m q) ∧
    ∃ m'', q_swap fuel m' head = Some m'' ∧ ring m'' head l.
Proof.
  assert (∀ m l,
            ring m head l → (length l ≤ 2 * fuel + 1)%nat →
            ∃ m',
              q_swap fuel m head = Some m' ∧
              ring m' head (swap_pairs l) ∧
              (∀ q, load_value m' q = load_value m q) ∧
              (∀ q, q ∉ head :: l → load m' q = load m q)) as Hone.
  { clear. intros m l Hr Hfuel. pose proof Hr as (Hhead & _).
    unfold q_swap. rewrite decide_False by done.
    rewrite (ring_list_empty _ _ _ Hr). sbind.
    destruct l as [|a l].
    { rewrite bool_decide_eq_true_2 by done. by exists m. }
    rewrite bool_decide_eq_false_2 by done.
    pose proof (ring_first _ _ _ _ Hr) as (-> & _). sbind.
    destruct (q_swap_loop_spec head fuel m [] (a :: l) Hr Hfuel)
      as (m' & Hrun & Hr' & Hval & Hframe).
    exists m'. done. }
  intros Hr Hfuel.
  destruct (Hone m l Hr Hfuel) as (m' & Hrun & Hr' & Hval & Hframe).
  exists m'. repeat (split; [done|]).
  destruct (Hone m' (swap_pairs l) Hr') as (m'' & Hrun' & Hr'' & _).
  { by rewrite (proj1 (swap_pairs_length_aux l)). }
  exists m''. split; [done|].
  by rewrite (proj1 (swap_pairs_involutive_aux l)) in Hr''.
Qed.

Lemma q_swap_exchanges_pairs_witness :
  ∃ m',
    q_swap 2 queue_abcde q_head = Some m' ∧
    ring m' q_head (swap_pairs [1; 2; 3; 4; 5]%nat) ∧
    (∀ q, load_value m' q = load_value queue_abcde q) ∧
    (∀ q, q ∉ q_head :: [1; 2; 3; 4; 5]%nat →
          load m' q = load queue_abcde q) ∧
    ∃ m'', q_swap 2 m' q_head = Some m'' ∧
           ring m'' q_head [1; 2; 3; 4; 5]%nat.
Proof.
  apply (q_swap_exchanges_pairs 2 queue_abcde q_head [1; 2; 3; 4; 5]%nat);
    [by_evaluation|simpl; lia].
Defined.

(** ** Insertion followed by removal *)

Section round_trips.

Context (m : mem) (head : ptr) (l : list ptr) (s : string)
  (al : alloc_outcome) (sp : buffer) (bufsize : Z).

Hypothesis Hring : ring m head l.
Hypothesis Helements : elements m l.
Hypothesis Hfresh : malloc_result al ≠ NULL → load m (malloc_result al) = None.
Hypothesis Hmalloc : malloc_result al ≠ NULL.
Hypothesis Hstrdup : strdup_ok al = true.
Hypothesis Hbufsize : 1 <= bufsize < 2 ^ 64.
Hypothesis Hsp : ∀ b, sp = Some b → bufsize <= Z.of_nat (length b).

(** X11: the element that [q_insert_head] has put in is the one that
    [q_remove_head] takes out next, and the one that [q_insert_tail] has put
    in is the one that [q_remove_tail] takes out next: the queue is then
    what it was, the element is returned with its payload [s], and a buffer
    that is not NULL holds [s], cut to [bufsize - 1] bytes. *)
Theorem insert_then_remove_same_end :
  (∃ m1 m2,
     q_insert_head m head s al = Some (m1, true) ∧
     q_remove_head m1 head sp bufsize
       = Some (m2, copied s bufsize <$> sp, malloc_result al) ∧
     ring m2 head l ∧
     load_value m2 (malloc_result al) = Some s ∧
     (∀ q, q ≠ malloc_result al → load_value m2 q = load_value m q)) ∧
  (∃ m1 m2,
     q_insert_tail m head s al = Some (m1, true) ∧
     q_remove_tail m1 head sp bufsize
       = Some (m2, copied s bufsize <$> sp, malloc_result al) ∧
     ring m2 head l ∧
     load_value m2 (malloc_result al) = Some s ∧
     (∀ q, q ≠ malloc_result al → load_value m2 q = load_value m q)).
Proof.
  split.
  - destruct (q_insert_head_ok m head l s al Hring Hfresh Hmalloc Hstrdup)
      as (m1 & Hins & Hr1 & Hv & Hvs & _).
    destruct (q_remove_head_spec m1 head _ l sp bufsize Hr1) as
      (m2 & v & Hv' & Hrem & Hr2 & Hsame); [by eexists|done|done|].
    rewrite Hv in Hv'. injection Hv' as <-.
    exists m1, m2. repeat (split; [done|]).
    assert (∀ q, load_value m2 q = load_value m1 q) as Hval.
    { clear -Hrem Hr1. unfold q_remove_head in Hrem.
      destruct (list_del_ring m1 head [] _ l Hr1) as (m' & Hdel & _ & Hval & _).
      revert Hrem. case_decide; [intros; by simplify_eq|].
      rewrite (ring_list_empty _ _ _ Hr1). sbind.
      rewrite bool_decide_eq_false_2 by done.
      pose proof (ring_first _ _ _ _ Hr1) as (-> & _). sbind.
      destruct (match sp with
                | Some _ => _
                | None => Some None
                end); [|done].
      sbind. rewrite Hdel. sbind. by intros [= <- _]. }
    split; [by rewrite Hval|]. intros q Hq. rewrite Hval. by apply Hvs.
  - destruct (q_insert_tail_ok m head l s al Hring Hfresh Hmalloc Hstrdup)
      as (m1 & Hins & Hr1 & Hv & Hvs & _).
    destruct (q_remove_tail_spec m1 head l _ sp bufsize Hr1) as
      (m2 & v & Hv' & Hrem & Hr2 & Hsame); [by eexists|done|done|].
    rewrite Hv in Hv'. injection Hv' as <-.
    exists m1, m2. repeat (split; [done|]).
    assert (∀ q, load_value m2 q = load_value m1 q) as Hval.
    { clear -Hrem Hr1. unfold q_remove_tail in Hrem.
      destruct (list_del_ring m1 head l _ [] Hr1) as (m' & Hdel & _ & Hval & _).
      revert Hrem. case_decide; [intros; by simplify_eq|].
      rewrite (ring_list_empty _ _ _ Hr1). sbind.
      rewrite bool_decide_eq_false_2 by (by destruct l).
      pose proof (ring_last _ _ _ _ Hr1) as (-> & _). sbind.
      destruct (match sp with
                | Some _ => _
                | None => Some None
                end); [|done].
      sbind. rewrite Hdel. sbind. by intros [= <- _]. }
    split; [by rewrite Hval|]. intros q Hq. rewrite Hval. by apply Hvs.
Qed.

(** X12: first in, first out.  After [q_insert_tail], [q_remove_head] takes
    out the oldest element: the first one of the queue as it was, or the new
    element if the queue was empty; the rest keeps its order, the new
    element last. *)
Theorem insert_tail_remove_head_fifo :
  ∃ m1 m2 v,
    q_insert_tail m head s al = Some (m1, true) ∧
    load_value m1 (hd (malloc_result al) l) = Some v ∧
    q_remove_head m1 head sp bufsize
      = Some (m2, copied v bufsize <$> sp, hd (malloc_result al) l) ∧
    ring m2 head (tl (l ++ [malloc_result al])).
Proof.
  destruct (q_insert_tail_ok m head l s al Hring Hfresh Hmalloc Hstrdup)
    as (m1 & Hins & Hr1 & Hv & Hvs & _).
  assert (l ++ [malloc_result al]
          = hd (malloc_result al) l :: tl (l ++ [malloc_result al])) as Hl
    by (by destruct l).
  rewrite Hl in Hr1.
  destruct (q_remove_head_spec m1 head _ _ sp bufsize Hr1) as
    (m2 & v & Hv' & Hrem & Hr2 & Hsame); [|done|done|].
  - destruct l as [|a l']; simpl; [by eexists|].
    assert (a ≠ malloc_result al) as Hne.
    { intros ->. destruct (ring_allocated m head (malloc_result al :: l')
                             (malloc_result al) Hring) as [n Hn];
        [set_solver|]. rewrite Hfresh in Hn; done. }
    rewrite Hvs by done. unfold elements in Helements.
    by apply Forall_cons in Helements as [? _].
  - by exists m1, m2, v.
Qed.

End round_trips.

Lemma insert_then_remove_same_end_witness :
  (∃ m1 m2,
     q_insert_head queue_abc q_head "z"%string alloc_ok = Some (m1, true) ∧
     q_remove_head m1 q_head buffer4 3
       = Some (m2, copied "z"%string 3 <$> buffer4, malloc_result alloc_ok) ∧
     ring m2 q_head [1; 2; 3]%nat ∧
     load_value m2 (malloc_result alloc_ok) = Some "z"%string ∧
     (∀ q, q ≠ malloc_result alloc_ok →
           load_value m2 q = load_value queue_abc q)) ∧
  (∃ m1 m2,
     q_insert_tail queue_abc q_head "z"%string alloc_ok = Some (m1, true) ∧
     q_remove_tail m1 q_head buffer4 3
       = Some (m2, copied "z"%string 3 <$> buffer4, malloc_result alloc_ok) ∧
     ring m2 q_head [1; 2; 3]%nat ∧
     load_value m2 (malloc_result alloc_ok) = Some "z"%string ∧
     (∀ q, q ≠ malloc_result alloc_ok →
           load_value m2 q = load_value queue_abc q)).
Proof.
  apply (insert_then_remove_same_end queue_abc q_head [1; 2; 3]%nat "z"%string
           alloc_ok buffer4 3);
    [by_evaluation|intros _; vm_compute; reflexivity|done|done|lia|].
  intros b [= <-]. simpl. lia.
Defined.

Lemma insert_tail_remove_head_fifo_witness :
  ∃ m1 m2 v,
    q_insert_tail queue_abc q_head "z"%string alloc_ok = Some (m1, true) ∧
    load_value m1 (hd (malloc_result alloc_ok) [1; 2; 3]%nat) = Some v ∧
    q_remove_head m1 q_head buffer4 3
      = Some (m2, copied v 3 <$> buffer4,
              hd (malloc_result alloc_ok) [1; 2; 3]%nat) ∧
    ring m2 q_head (tl ([1; 2; 3]%nat ++ [malloc_result alloc_ok])).
Proof.
  apply (insert_tail_remove_head_fifo queue_abc q_head [1; 2; 3]%nat
           "z"%string alloc_ok buffer4 3);
    [by_evaluation|by_evaluation|intros _; vm_compute; reflexivity|done|done
    |lia|].
  intros b [= <-]. simpl. lia.
Defined.

(** ** Sorting and reversing, composed *)

(** X13: [q_reverse] twice gives back the queue: the same elements in the
    order they had, with their payloads. *)
Theorem q_reverse_twice fuel m head l :
  ring m head l → (length l < fuel)%nat →
  ∃ m1 m2,
    q_reverse fuel m head = Some m1 ∧ q_reverse fuel m1 head = Some m2 ∧
    ring m2 head l ∧ (∀ q, load_value m2 q = load_value m q).
Proof.
  intros Hr Hfuel.
  destruct (q_reverse_spec fuel m head l Hr Hfuel) as (m1 & Hrun1 & Hr1 & Hv1).
  destruct (q_reverse_spec fuel m1 head (rev l) Hr1) as (m2 & Hrun2 & Hr2 & Hv2).
  { by rewrite length_rev. }
  exists m1, m2. split; [done|]. split; [done|].
  rewrite rev_involutive in Hr2. split; [done|].
  intros q. by rewrite Hv2, Hv1.
Qed.

Lemma q_reverse_twice_witness :
  ∃ m1 m2,
    q_reverse 5 queue_baba q_head = Some m1 ∧
    q_reverse 5 m1 q_head = Some m2 ∧
    ring m2 q_head [1; 2; 3; 4]%nat ∧
    (∀ q, load_value m2 q = load_value queue_baba q).
Proof.
  apply (q_reverse_twice 5 queue_baba q_head [1; 2; 3; 4]%nat);
    [by_evaluation|simpl; lia].
Defined.

Lemma StronglySorted_snoc {A} (R : A → A → Prop) l a :
  StronglySorted R l → Forall (λ x, R x a) l → StronglySorted R (l ++ [a]).
Proof.
  induction 1 as [|b l Hs IH Hb]; intros Ha; simpl.
  - repeat constructor.
  - apply Forall_cons in Ha as [Hba Ha]. constructor; [by apply IH|].
    apply Forall_app. split; [done|]. by constructor.
Qed.

Lemma StronglySorted_rev (R : ptr → ptr → Prop) l :
  StronglySorted R l → StronglySorted (flip R) (rev l).
Proof.
  induction 1 as [|a l Hs IH Ha]; simpl; [constructor|].
  apply StronglySorted_snoc; [done|].
  rewrite Forall_forall in Ha |- *. intros x Hx. apply Ha.
  by rewrite elem_of_rev in Hx.
Qed.

(** X14: [q_sort] followed by [q_reverse] leaves the queue in
    non-increasing order of payload: of any two elements the one in front
    has the payload that is not smaller. *)
Theorem q_sort_then_reverse_descending fuel m head l descend :
  ring m head l → elements m l → (length l < fuel)%nat →
  ∃ m1 m2 out,
    q_sort fuel m head descend = Some m1 ∧
    q_reverse fuel m1 head = Some m2 ∧
    ring m2 head out ∧ out ≡ₚ l ∧
    (∀ q, load_value m2 q = load_value m q) ∧
    (∀ a b, before out a b →
            strcmp (payload_of m b) (payload_of m a) <= 0).
Proof.
  intros Hr He Hfuel. apply elements_payloads in He.
  destruct (q_sort_spec _ fuel m head descend l Hr He Hfuel)
    as (m1 & out & Hrun1 & Hr1 & Hperm & Hs & Hv1).
  destruct (q_reverse_spec fuel m1 head out Hr1) as (m2 & Hrun2 & Hr2 & Hv2).
  { by rewrite Hperm. }
  exists m1, m2, (rev out). split; [done|]. split; [done|]. split; [done|].
  split; [by rewrite <- Hperm, <- Permutation_rev|]. split.
  { intros q. by rewrite Hv2, Hv1. }
  intros a b Hab.
  apply Sorted_StronglySorted in Hs; [|intros x y z; apply strcmp_trans].
  apply StronglySorted_rev in Hs.
  apply (StronglySorted_before _ _ _ _ Hs Hab).
Qed.

Lemma q_sort_then_reverse_descending_witness :
  ∃ m1 m2 out,
    q_sort 5 queue_baba q_head true = Some m1 ∧
    q_reverse 5 m1 q_head = Some m2 ∧
    ring m2 q_head out ∧ out ≡ₚ [1; 2; 3; 4]%nat ∧
    (∀ q, load_value m2 q = load_value queue_baba q) ∧
    (∀ a b, before out a b →
            strcmp (payload_of queue_baba b) (payload_of queue_baba a) <= 0).
Proof.
  apply (q_sort_then_reverse_descending 5 queue_baba q_head [1; 2; 3; 4]%nat
           true); [by_evaluation|by_evaluation|simpl; lia].
Defined.

(** X15: [q_sort] followed by [q_delete_dup] leaves, of any queue, sorted
    or not, exactly the elements whose payload no other element has, in
    non-decreasing order of payload, and frees the others. *)
Theorem q_sort_then_delete_dup fuel m head l descend :
  ring m head l → l ≠ [] → elements m l → (length l < fuel)%nat →
  ∃ m1 m2 out,
    q_sort fuel m head descend = Some m1 ∧
    q_delete_dup fuel m1 head = Some (m2, true) ∧
    ring m2 head out ∧
    (∀ x, x ∈ out ↔
       x ∈ l ∧
       ∀ y, y ∈ l → y ≠ x → strcmp (payload_of m x) (payload_of m y) ≠ 0) ∧
    (∀ a b, before out a b →
            strcmp (payload_of m a) (payload_of m b) <= 0) ∧
    (∀ a, a ∈ out → load_value m2 a = load_value m a) ∧
    (∀ a, a ∈ l → a ∉ out → load m2 a = None).
Proof.
  intros Hr Hne He Hfuel. apply elements_payloads in He.
  destruct (q_sort_spec _ fuel m head descend l Hr He Hfuel)
    as (m1 & srt & Hrun1 & Hr1 & Hperm & Hs & Hv1).
  assert (payloads m1 (payload_of m) srt) as He1.
  { intros a Ha. rewrite Hv1. apply He. by rewrite <- Hperm. }
  destruct (q_delete_dup_spec (payload_of m) fuel m1 head srt Hr1)
    as (m2 & out & Hrun2 & Hr2 & Hsub & Hchar & Hval2 & Hfreed); try done.
  { intros ->. apply Permutation_nil_l in Hperm. done. }
  { rewrite Hperm. lia. }
  exists m1, m2, out. repeat (split; [done|]). split; [|split; [|split]].
  - intros x. rewrite Hchar. unfold only_one, same_val.
    split; intros [Hx Hone].
    + split; [by rewrite <- Hperm|]. intros y Hy. apply Hone.
      by rewrite Hperm.
    + split; [by rewrite Hperm|]. intros y Hy. apply Hone.
      by rewrite <- Hperm.
  - intros a b Hab.
    apply Sorted_StronglySorted in Hs; [|intros x y z; apply strcmp_trans].
    apply (StronglySorted_before _ _ _ _ Hs).
    by eapply before_sublist.
  - intros a Ha. rewrite (Hval2 a Ha), He; [done|].
    rewrite <- Hperm. by eapply elem_of_sublist.
  - intros a Ha. rewrite <- Hperm in Ha. by apply Hfreed.
Qed.

Lemma q_sort_then_delete_dup_witness :
  ∃ m1 m2 out,
    q_sort 5 queue_baba q_head false = Some m1 ∧
    q_delete_dup 5 m1 q_head = Some (m2, true) ∧
    ring m2 q_head out ∧
    (∀ x, x ∈ out ↔
       x ∈ [1; 2; 3; 4]%nat ∧
       ∀ y, y ∈ [1; 2; 3; 4]%nat → y ≠ x →
         strcmp (payload_of queue_baba x) (payload_of queue_baba y) ≠ 0) ∧
    (∀ a b, before out a b →
            strcmp (payload_of queue_baba a) (payload_of queue_baba b) <= 0) ∧
    (∀ a, a ∈ out → load_value m2 a = load_value queue_baba a) ∧
    (∀ a, a ∈ [1; 2; 3; 4]%nat → a ∉ out → load m2 a = None).
Proof.
  apply (q_sort_then_delete_dup 5 queue_baba q_head [1; 2; 3; 4]%nat false);
    [by_evaluation|done|by_evaluation|simpl; lia].
Defined.

(** ** list_sort on a sorted list *)

Section stable_unique.

Context {P : Type} (priv : P) (cmp : P → ptr → ptr → Z).

Import ListSortLoop.

(** There is one stable sorted arrangement of a list. *)
Lemma stable_sorted_unique l :
  cmp_total priv cmp → cmp_trans priv cmp →
  ∀ out,
    Sorted (cmp_le priv cmp) l → Sorted (cmp_le priv cmp) out → out ≡ₚ l →
    (∀ C, tie_class priv cmp C → List.filter C out = List.filter C l) →
    out = l.
Proof.
  intros Htot Htr.
  assert (∀ a, cmp priv a a <= 0) as Hrefl.
  { intros a. destruct (Z.le_gt_cases (cmp priv a a) 0) as [H|H]; [done|].
    apply Htot. lia. }
  induction l as [|x l IH]; intros out Hl Hout Hperm Hstable.
  - by apply Permutation_nil_r in Hperm.
  - destruct out as [|y out].
    { by apply Permutation_nil_cons in Hperm. }
    assert (StronglySorted (cmp_le priv cmp) (x :: l)) as Hl'.
    { apply Sorted_StronglySorted; [|done]. intros a b c. apply Htr. }
    assert (StronglySorted (cmp_le priv cmp) (y :: out)) as Hout'.
    { apply Sorted_StronglySorted; [|done]. intros a b c. apply Htr. }
    apply StronglySorted_inv in Hl' as [_ Hxl].
    apply StronglySorted_inv in Hout' as [_ Hyout].
    rewrite List.Forall_forall in Hxl, Hyout.
    assert (cmp priv x y <= 0) as Hxy.
    { assert (y ∈ x :: l) as Hy by (rewrite <- Hperm; by left).
      apply elem_of_cons in Hy as [->|Hy]; [done|].
      apply Hxl. by apply list_elem_of_In. }
    assert (cmp priv y x <= 0) as Hyx.
    { assert (x ∈ y :: out) as Hx by (rewrite Hperm; by left).
      apply elem_of_cons in Hx as [->|Hx]; [done|].
      apply Hyout. by apply list_elem_of_In. }
    set (C := λ z, (cmp priv x z <=? 0) && (cmp priv z x <=? 0)).
    assert (∀ z, C z = true ↔ cmp priv x z <= 0 ∧ cmp priv z x <= 0) as HC.
    { intros z. unfold C. rewrite andb_true_iff, !Z.leb_le. done. }
    assert (tie_class priv cmp C) as Htie.
    { intros a b [_ Ha]%HC [Hb _]%HC. by apply (Htr a x b). }
    pose proof (Hstable C Htie) as HCeq. simpl in HCeq.
    rewrite (proj2 (HC x)), (proj2 (HC y)) in HCeq by done.
    injection HCeq as -> _. f_equal.
    apply IH.
    + by apply Sorted_inv in Hl as [? _].
    + by apply Sorted_inv in Hout as [? _].
    + by apply Permutation_cons_inv in Hperm.
    + intros C' HC'. specialize (Hstable C' HC'). simpl in Hstable.
      destruct (C' x); [by injection Hstable|done].
Qed.

(** X16: [list_sort] changes nothing in the order of a list that is sorted
    already: with a callback that is consistent, a ring whose elements are
    in non-decreasing order comes back with the same elements in the same
    places. *)
Theorem list_sort_sorted_unchanged fuel m head l :
  ring m head l → Z.of_nat (length l) < 2 ^ 64 → (length l < fuel)%nat →
  cmp_total priv cmp → cmp_trans priv cmp → Sorted (cmp_le priv cmp) l →
  ∃ m',
    ListSort.list_sort priv cmp fuel m head = Some m' ∧ ring m' head l ∧
    (∀ q, load_value m' q = load_value m q).
Proof.
  intros Hr Hlen Hfuel Htot Htr Hs.
  destruct (list_sort_spec priv cmp fuel m head l Hr Hlen Hfuel)
    as (m' & out & Hrun & Hr' & Hperm & Hval & Hsorted & Hstable).
  exists m'. split; [done|]. split; [|done].
  rewrite <- (stable_sorted_unique l Htot Htr out); auto.
Qed.

End stable_unique.

Lemma list_sort_sorted_unchanged_witness :
  ∃ m',
    ListSort.list_sort tt (payload_cmp queue_aabbc) 6 queue_aabbc q_head
      = Some m' ∧
    ring m' q_head [1; 2; 3; 4; 5]%nat ∧
    (∀ q, load_value m' q = load_value queue_aabbc q).
Proof.
  apply (list_sort_sorted_unchanged tt (payload_cmp queue_aabbc) 6 queue_aabbc
           q_head [1; 2; 3; 4; 5]%nat);
    [by_evaluation|simpl; lia|simpl; lia|apply payload_cmp_total
    |apply payload_cmp_trans|].
  repeat constructor; by vm_compute.
Defined.

(** ** The empty queue *)

(** X17: on an empty queue no operation changes the heap: [q_remove_head]
    and [q_remove_tail] return NULL and leave the buffer alone, [q_size]
    returns 0, [q_delete_mid] and [q_delete_dup] return false, [q_ascend]
    and [q_descend] return 0, and [q_swap], [q_reverse], [q_sort] and
    [list_sort] return at once. *)
Theorem empty_queue_unchanged {P} (priv : P) (cmp : P → ptr → ptr → Z)
    fuel m head sp bufsize descend :
  ring m head [] →
  q_remove_head m head sp bufsize = Some (m, sp, NULL) ∧
  q_remove_tail m head sp bufsize = Some (m, sp, NULL) ∧
  q_size fuel m head = Some 0 ∧
  q_delete_mid fuel m head = Some (m, false) ∧
  q_delete_dup fuel m head = Some (m, false) ∧
  q_ascend fuel m head = Some (m, 0) ∧
  q_descend fuel m head = Some (m, 0) ∧
  q_swap fuel m head = Some m ∧
  q_reverse fuel m head = Some m ∧
  q_sort fuel m head descend = Some m ∧
  ListSort.list_sort priv cmp fuel m head = Some m.
Proof.
  intros Hr. pose proof Hr as (Hhead & _).
  pose proof (ring_list_empty _ _ _ Hr) as He.
  rewrite bool_decide_eq_true_2 in He by done.
  pose proof (ring_empty _ _ Hr) as [Hn Hp].
  unfold q_remove_head, q_remove_tail, q_size, q_delete_mid, q_delete_dup,
    q_ascend, q_descend, q_swap, q_reverse, q_sort, ListSort.list_sort.
  rewrite !decide_False by done. rewrite He, Hn, Hp. sbind.
  rewrite decide_True by done.
  repeat (split; [done|]). split; [|done].
  destruct fuel; cbn [q_size_loop]; by rewrite decide_True.
Qed.

Lemma empty_queue_unchanged_witness :
  q_remove_head (mk_ring q_head []) q_head buffer4 3
    = Some (mk_ring q_head [], buffer4, NULL) ∧
  q_remove_tail (mk_ring q_head []) q_head buffer4 3
    = Some (mk_ring q_head [], buffer4, NULL) ∧
  q_size 0 (mk_ring q_head []) q_head = Some 0 ∧
  q_delete_mid 0 (mk_ring q_head []) q_head
    = Some (mk_ring q_head [], false) ∧
  q_delete_dup 0 (mk_ring q_head []) q_head
    = Some (mk_ring q_head [], false) ∧
  q_ascend 0 (mk_ring q_head []) q_head = Some (mk_ring q_head [], 0) ∧
  q_descend 0 (mk_ring q_head []) q_head = Some (mk_ring q_head [], 0) ∧
  q_swap 0 (mk_ring q_head []) q_head = Some (mk_ring q_head []) ∧
  q_reverse 0 (mk_ring q_head []) q_head = Some (mk_ring q_head []) ∧
  q_sort 0 (mk_ring q_head []) q_head true = Some (mk_ring q_head []) ∧
  ListSort.list_sort tt always_after 0 (mk_ring q_head []) q_head
    = Some (mk_ring q_head []).
Proof.
  apply (empty_queue_unchanged tt always_after 0 (mk_ring q_head []) q_head
           buffer4 3 true). by_evaluation.
Defined.

(** ** What q_ascend and q_descend remove, exactly *)

Lemma NoDup_app_cons_inj (A : list ptr) x B A' B' :
  NoDup (A ++ x :: B) → A ++ x :: B = A' ++ x :: B' → A = A' ∧ B = B'.
Proof.
  revert A'. induction A as [|a A IH]; intros [|a' A'] Hnd Heq;
    simplify_eq/=.
  - done.
  - apply NoDup_cons in Hnd as [Hx _]. set_solver.
  - apply NoDup_cons in Hnd as [Hx _]. set_solver.
  - apply NoDup_cons in Hnd as [_ Hnd].
    destruct (IH A' Hnd) as [-> ->]; done.
Qed.

(** In a list without repetition, the nodes that come after [x] are those
    of the part behind it. *)
Lemma before_split A x B y :
  NoDup (A ++ x :: B) → before (A ++ x :: B) x y ↔ y ∈ B.
Proof.
  intros Hnd. split.
  - intros (l1 & l2 & l3 & Heq).
    apply NoDup_app_cons_inj in Heq as [_ ->]; [|done]. set_solver.
  - intros Hy. apply list_elem_of_split in Hy as (l2 & l3 & ->).
    by exists A, l2, l3.
Qed.

Section monotone_exact.

Context (val : ptr → string) (test : Z → bool).

(** The later node [y] makes the walk remove the earlier node [x]. *)
Definition beats (y x : ptr) : Prop := test (strcmp (val y) (val x)) = true.

Hypothesis beats_trans : ∀ a b c, beats a b → beats b c → beats a c.
Hypothesis beats_neg_trans :
  ∀ a b c, ¬ beats a b → ¬ beats b c → ¬ beats a c.

(** [gone] are the nodes already removed between [rp] and [nd], [suffix] the
    nodes that were behind [nd] to begin with. *)
Lemma monotone_pure_char rp :
  ∀ nd post gone suffix,
    (∀ y, y ∈ suffix → ¬ beats y nd) → (∀ g, g ∈ gone → beats nd g) →
    ∀ x, x ∈ monotone_pure val test rp nd post ↔
         x ∈ post ∨ x = nd ∨
         ∃ r1 r2, rp = r1 ++ x :: r2 ∧
                  ∀ y, y ∈ r1 ++ gone ++ nd :: suffix → ¬ beats y x.
Proof.
  induction rp as [|p rp IH]; intros nd post gone suffix Hsuf Hgone x.
  - simpl. rewrite elem_of_cons. split; [tauto|].
    intros [?|[?|(r1 & r2 & H & _)]]; [tauto..|]. by destruct r1.
  - cbn [monotone_pure].
    destruct (test (strcmp (val nd) (val p))) eqn:E.
    + rewrite (IH nd post (p :: gone) suffix); [|done|].
      2:{ intros g Hg. apply elem_of_cons in Hg as [->|Hg]; [done|auto]. }
      split; (intros [?|[?|(r1 & r2 & Hrp & Hno)]]; [tauto..|]);
        right; right.
      * exists (p :: r1), r2. split; [by rewrite Hrp|].
        intros y Hy. apply Hno. set_solver.
      * destruct r1 as [|p' r1]; simplify_eq/=.
        -- exfalso. apply (Hno nd); [set_solver|done].
        -- exists r1, r2. split; [done|]. intros y Hy. apply Hno. set_solver.
    + assert (¬ beats nd p) as Hnp by (unfold beats; by rewrite E).
      rewrite (IH p (nd :: post) [] (gone ++ nd :: suffix)); [| |set_solver].
      2:{ intros y Hy. apply elem_of_app in Hy as [Hy|Hy].
          - intros Hyp. apply Hnp. eapply beats_trans; [|done]. auto.
          - apply elem_of_cons in Hy as [->|Hy]; [done|].
            eapply beats_neg_trans; [|done]. auto. }
      rewrite elem_of_cons. split.
      * intros [[?|?]|[->|(r1 & r2 & Hrp & Hno)]]; [tauto..| |].
        -- right; right. exists [], rp. split; [done|].
           intros y Hy. simpl in Hy.
           apply elem_of_app in Hy as [Hy|Hy].
           ++ intros Hyp. apply Hnp. eapply beats_trans; [|done]. auto.
           ++ apply elem_of_cons in Hy as [->|Hy]; [done|].
              eapply beats_neg_trans; [|done]. auto.
        -- right; right. exists (p :: r1), r2. split; [by rewrite Hrp|].
           intros y Hy. apply Hno. set_solver.
      * intros [?|[?|(r1 & r2 & Hrp & Hno)]]; [tauto..|].
        destruct r1 as [|p' r1]; simplify_eq/=; [tauto|].
        right; right. exists r1, r2. split; [done|].
        intros y Hy. apply Hno. set_solver.
Qed.

Lemma monotone_exact fuel m head l loop :
  (∀ fuel m nd, loop fuel m head nd = monotone_loop test fuel m head nd) →
  ring m head l → payloads m val l → (length l ≤ fuel)%nat →
  ∃ m' out,
    (if decide (head = NULL) then Some (m, 0)
     else e ← list_empty m head;
          if e : bool then Some (m, 0)
          else nd ← load_prev m head;
               m1 ← loop fuel m head nd;
               Some (m1, 0)) = Some (m', 0) ∧
    ring m' head out ∧ out `sublist_of` l ∧
    (∀ x, x ∈ out ↔ x ∈ l ∧ ∀ y, before l x y → ¬ beats y x) ∧
    payloads m' val out ∧
    (∀ q, q ∈ l → q ∉ out → load m' q = None).
Proof.
  intros Hloop Hr Hval Hfuel.
  pose proof Hr as (Hhead & _ & Hnd & _).
  apply NoDup_cons in Hnd as [_ Hnd].
  rewrite decide_False by done.
  rewrite (ring_list_empty _ _ _ Hr). sbind.
  destruct (decide (l = [])) as [->|Hne].
  { rewrite bool_decide_eq_true_2 by done. exists m, [].
    split; [done|]. split; [done|]. split; [done|].
    split; [set_solver|]. split; [done|set_solver]. }
  rewrite bool_decide_eq_false_2 by done.
  destruct (list_snoc_inv l Hne) as (l0 & z & ->).
  pose proof (ring_last _ _ _ _ Hr) as (-> & _). sbind.
  rewrite Hloop.
  destruct (monotone_loop_spec val test head (rev l0) z [] fuel m)
    as (m' & Hrun & Hr' & Hval' & Hfreed & Hother).
  { by rewrite rev_involutive. } { by rewrite rev_involutive. }
  { rewrite length_rev. rewrite length_app in Hfuel. simpl in Hfuel. lia. }
  rewrite Hrun. sbind. exists m', (monotone_pure val test (rev l0) z []).
  split; [done|]. split; [done|]. split.
  { pose proof (monotone_pure_sublist val test (rev l0) z []) as Hs.
    by rewrite rev_involutive in Hs. }
  split; [|split; [done|]].
  2:{ intros q Hq. apply Hfreed. by rewrite rev_involutive. }
  intros x. rewrite (monotone_pure_char (rev l0) z [] [] []); [|set_solver..].
  split.
  - intros [?|[->|(r1 & r2 & Hrev & Hno)]]; [set_solver| |].
    + split; [set_solver|]. intros y Hy.
      apply (before_split l0 z [] y Hnd) in Hy. set_solver.
    + apply (f_equal (@rev ptr)) in Hrev.
      rewrite rev_involutive, rev_mid in Hrev. subst l0.
      rewrite <- app_assoc in Hnd |- *. simpl in Hnd |- *.
      split; [set_solver|]. intros y Hy.
      apply (before_split _ _ _ y Hnd) in Hy. apply Hno.
      rewrite app_nil_l. apply elem_of_app in Hy as [Hy|Hy]; [|set_solver].
      apply elem_of_app. left. by rewrite elem_of_rev in Hy.
  - intros [Hx Hno]. apply elem_of_app in Hx as [Hx|Hx]; [|set_solver].
    right; right. apply list_elem_of_split in Hx as (A & B & ->).
    exists (rev B), (rev A). split; [by rewrite rev_mid|].
    intros y Hy. apply Hno.
    rewrite <- app_assoc in Hnd |- *. simpl in Hnd |- *.
    apply (before_split _ _ _ y Hnd).
    rewrite app_nil_l in Hy. apply elem_of_app in Hy as [Hy|Hy]; [|set_solver].
    apply elem_of_app. left. by rewrite elem_of_rev in Hy.
Qed.

End monotone_exact.

Lemma strcmp_lt_trans a b c : strcmp a b < 0 → strcmp b c < 0 → strcmp a c < 0.
Proof.
  intros Hab Hbc. destruct (Z.lt_ge_cases (strcmp a c) 0) as [H|H]; [done|].
  assert (strcmp c a <= 0) as Hca.
  { pose proof (strcmp_flip_neg c a). pose proof (strcmp_flip_neg a c).
    pose proof (strcmp_flip_zero a c). lia. }
  pose proof (strcmp_trans c a b Hca ltac:(lia)) as Hcb.
  pose proof (strcmp_flip_neg b c). lia.
Qed.

Lemma strcmp_ge_trans a b c :
  ¬ strcmp a b < 0 → ¬ strcmp b c < 0 → ¬ strcmp a c < 0.
Proof.
  intros Hab Hbc Hac.
  assert (strcmp b a <= 0) as Hba.
  { pose proof (strcmp_flip_neg b a). pose proof (strcmp_flip_neg a b).
    pose proof (strcmp_flip_zero a b). lia. }
  assert (strcmp c b <= 0) as Hcb.
  { pose proof (strcmp_flip_neg c b). pose proof (strcmp_flip_neg b c).
    pose proof (strcmp_flip_zero b c). lia. }
  pose proof (strcmp_trans c b a Hcb Hba) as Hca.
  pose proof (strcmp_flip_neg a c). lia.
Qed.

(** X18: [q_ascend] removes exactly the elements that have an element with
    a strictly smaller payload somewhere behind them: an element of the
    queue is in the result if and only if no element behind it has a
    strictly smaller payload.  The elements that stay keep their order and
    payloads, the others are freed. *)
Theorem q_ascend_removes_exactly fuel m head l :
  ring m head l → elements m l → (length l ≤ fuel)%nat →
  ∃ m' out,
    q_ascend fuel m head = Some (m', 0) ∧
    ring m' head out ∧ out `sublist_of` l ∧
    (∀ x, x ∈ out ↔
       x ∈ l ∧
       ∀ y, before l x y → ¬ strcmp (payload_of m y) (payload_of m x) < 0) ∧
    (∀ a, a ∈ out → load_value m' a = load_value m a) ∧
    (∀ q, q ∈ l → q ∉ out → load m' q = None).
Proof.
  intros Hr He Hfuel. pose proof (elements_payloads _ _ He) as Hval.
  destruct (monotone_exact (payload_of m) (λ c, c <? 0)) with
    (fuel := fuel) (m := m) (head := head) (l := l) (loop := q_ascend_loop)
    as (m' & out & Hrun & Hr' & Hsub & Hchar & Hval' & Hfreed); try done.
  - unfold beats. intros a b c. rewrite !Z.ltb_lt. apply strcmp_lt_trans.
  - unfold beats. intros a b c. rewrite !Z.ltb_lt. apply strcmp_ge_trans.
  - intros. apply q_ascend_loop_eq.
  - exists m', out. split; [done|]. split; [done|]. split; [done|].
    split; [|split; [|done]].
    + intros x. rewrite Hchar. unfold beats.
      split; intros [Hx Hno]; (split; [done|]); intros y Hy;
        specialize (Hno y Hy); by rewrite Z.ltb_lt in *.
    + intros a Ha. rewrite (Hval' a Ha), Hval; [done|].
      by eapply elem_of_sublist.
Qed.

Lemma q_ascend_removes_exactly_witness :
  ∃ m' out,
    q_ascend 4 queue_2313 q_head = Some (m', 0) ∧
    ring m' q_head out ∧ out `sublist_of` [1; 2; 3; 4]%nat ∧
    (∀ x, x ∈ out ↔
       x ∈ [1; 2; 3; 4]%nat ∧
       ∀ y, before [1; 2; 3; 4]%nat x y →
            ¬ strcmp (payload_of queue_2313 y) (payload_of queue_2313 x) < 0) ∧
    (∀ a, a ∈ out → load_value m' a = load_value queue_2313 a) ∧
    (∀ q, q ∈ [1; 2; 3; 4]%nat → q ∉ out → load m' q = None).
Proof.
  apply (q_ascend_removes_exactly 4 queue_2313 q_head [1; 2; 3; 4]%nat);
    [by_evaluation|by_evaluation|simpl; lia].
Defined.

(** X19: [q_descend] removes exactly the elements that have an element with
    a strictly greater payload somewhere behind them. *)
Theorem q_descend_removes_exactly fuel m head l :
  ring m head l → elements m l → (length l ≤ fuel)%nat →
  ∃ m' out,
    q_descend fuel m head = Some (m', 0) ∧
    ring m' head out ∧ out `sublist_of` l ∧
    (∀ x, x ∈ out ↔
       x ∈ l ∧
       ∀ y, before l x y → ¬ 0 < strcmp (payload_of m y) (payload_of m x)) ∧
    (∀ a, a ∈ out → load_value m' a = load_value m a) ∧
    (∀ q, q ∈ l → q ∉ out → load m' q = None).
Proof.
  intros Hr He Hfuel. pose proof (elements_payloads _ _ He) as Hval.
  destruct (monotone_exact (payload_of m) (λ c, 0 <? c)) with
    (fuel := fuel) (m := m) (head := head) (l := l) (loop := q_descend_loop)
    as (m' & out & Hrun & Hr' & Hsub & Hchar & Hval' & Hfreed); try done.
  - unfold beats. intros a b c. rewrite !Z.ltb_lt, <- !strcmp_flip_neg.
    intros ? ?. by eapply strcmp_lt_trans.
  - unfold beats. intros a b c. rewrite !Z.ltb_lt, <- !strcmp_flip_neg.
    intros ? ?. by eapply strcmp_ge_trans.
  - intros. apply q_descend_loop_eq.
  - exists m', out. split; [done|]. split; [done|]. split; [done|].
    split; [|split; [|done]].
    + intros x. rewrite Hchar. unfold beats.
      split; intros [Hx Hno]; (split; [done|]); intros y Hy;
        specialize (Hno y Hy); by rewrite Z.ltb_lt in *.
    + intros a Ha. rewrite (Hval' a Ha), Hval; [done|].
      by eapply elem_of_sublist.
Qed.

Lemma q_descend_removes_exactly_witness :
  ∃ m' out,
    q_descend 4 queue_2313 q_head = Some (m', 0) ∧
    ring m' q_head out ∧ out `sublist_of` [1; 2; 3; 4]%nat ∧
    (∀ x, x ∈ out ↔
       x ∈ [1; 2; 3; 4]%nat ∧
       ∀ y, before [1; 2; 3; 4]%nat x y →
            ¬ 0 < strcmp (payload_of queue_2313 y) (payload_of queue_2313 x)) ∧
    (∀ a, a ∈ out → load_value m' a = load_value queue_2313 a) ∧
    (∀ q, q ∈ [1; 2; 3; 4]%nat → q ∉ out → load m' q = None).
Proof.
  apply (q_descend_removes_exactly 4 queue_2313 q_head [1; 2; 3; 4]%nat);
    [by_evaluation|by_evaluation|simpl; lia].
Defined.

(** ** q_delete_dup on a queue that need not be sorted *)

Section delete_dup_any.

Context (val : ptr → string).

Lemma last_cons_cons (a b : ptr) r : last (a :: b :: r) = last (b :: r).
Proof. done. Qed.

(** The forward pass keeps a node when its payload differs from that of the
    node behind it and from that of the node in front of it; [d] tells
    whether the node in front of [rest] had the payload of its first
    node. *)
Ltac some_last b r :=
  let E := fresh in
  destruct (last (b :: r)) eqn:E; [done|by apply last_None in E].

Lemma delete_dup_pure_neighbours rest :
  ∀ d x,
    x ∈ delete_dup_pure val d rest ↔
    ∃ r1 r2,
      rest = r1 ++ x :: r2 ∧
      (∀ n, head r2 = Some n → strcmp (val x) (val n) ≠ 0) ∧
      match last r1 with
      | Some p => strcmp (val p) (val x) ≠ 0
      | None => d = false
      end.
Proof.
  induction rest as [|c rest IH]; intros d x.
  - simpl. split; [set_solver|]. intros (r1 & r2 & H & _). by destruct r1.
  - cbn [delete_dup_pure].
    set (same := match rest with
                 | n :: _ => strcmp (val c) (val n) =? 0
                 | [] => false
                 end).
    assert (same = true ↔ ∃ n, head rest = Some n ∧ strcmp (val c) (val n) = 0)
      as Hsame.
    { unfold same. destruct rest as [|n rest']; simpl.
      - split; [done|]. by intros (n & ? & _).
      - rewrite Z.eqb_eq. split; [eauto|]. by intros (n' & [= <-] & ?). }
    assert (∀ r1 r2, rest = r1 ++ x :: r2 →
              last (c :: r1) = (if decide (r1 = []) then Some c else last r1) ∧
              (r1 = [] → head rest = Some x)) as Hlast.
    { intros r1 r2 ->. destruct r1 as [|b r1]; [done|].
      rewrite decide_False by done. split; [apply last_cons_cons|done]. }
    destruct same eqn:E; [|destruct d].
    + (* the node has the payload of its successor *)
      apply proj1 in Hsame. destruct (Hsame eq_refl) as (n & Hn & Hcn).
      rewrite IH. split.
      * intros (r1 & r2 & Hrest & Hnext & Hprev).
        exists (c :: r1), r2. split; [by rewrite Hrest|]. split; [done|].
        destruct (Hlast r1 r2 Hrest) as [-> _].
        destruct r1 as [|b r1]; [simpl in Hprev; done|].
        rewrite decide_False by done. some_last b r1.
      * intros (r1 & r2 & Hrest & Hnext & Hprev).
        destruct r1 as [|c' r1]; simplify_eq/=.
        { exfalso. by apply (Hnext n). }
        exists r1, r2. split; [done|]. split; [done|].
        destruct (Hlast r1 r2 eq_refl) as [Hl Hhd]. rewrite Hl in Hprev.
        destruct r1 as [|b r1];
          [|rewrite decide_False in Hprev by done; some_last b r1].
        rewrite decide_True in Hprev by done. exfalso.
        specialize (Hhd eq_refl). rewrite Hn in Hhd. by simplify_eq.
    + (* the node had the payload of its predecessor *)
      assert (∀ n, head rest = Some n → strcmp (val c) (val n) ≠ 0) as Hne.
      { intros n Hn Hcn. assert (false = true); [|done]. apply Hsame. eauto. }
      rewrite IH. split.
      * intros (r1 & r2 & Hrest & Hnext & Hprev).
        exists (c :: r1), r2. split; [by rewrite Hrest|]. split; [done|].
        destruct (Hlast r1 r2 Hrest) as [-> Hhd].
        destruct r1 as [|b r1]; [|rewrite decide_False by done; some_last b r1].
        rewrite decide_True by done. apply Hne. by apply Hhd.
      * intros (r1 & r2 & Hrest & Hnext & Hprev).
        destruct r1 as [|c' r1]; simplify_eq/=.
        exists r1, r2. split; [done|]. split; [done|].
        destruct (Hlast r1 r2 eq_refl) as [Hl Hhd]. rewrite Hl in Hprev.
        destruct r1 as [|b r1];
          [done|rewrite decide_False in Hprev by done; some_last b r1].
    + (* the node stays *)
      assert (∀ n, head rest = Some n → strcmp (val c) (val n) ≠ 0) as Hne.
      { intros n Hn Hcn. assert (false = true); [|done]. apply Hsame. eauto. }
      rewrite elem_of_cons, IH. split.
      * intros [->|(r1 & r2 & Hrest & Hnext & Hprev)].
        { exists [], rest. done. }
        exists (c :: r1), r2. split; [by rewrite Hrest|]. split; [done|].
        destruct (Hlast r1 r2 Hrest) as [-> Hhd].
        destruct r1 as [|b r1]; [|rewrite decide_False by done; some_last b r1].
        rewrite decide_True by done. apply Hne. by apply Hhd.
      * intros (r1 & r2 & Hrest & Hnext & Hprev).
        destruct r1 as [|c' r1]; simplify_eq/=; [by left|]. right.
        exists r1, r2. split; [done|]. split; [done|].
        destruct (Hlast r1 r2 eq_refl) as [Hl Hhd]. rewrite Hl in Hprev.
        destruct r1 as [|b r1];
          [done|rewrite decide_False in Hprev by done; some_last b r1].
Qed.

End delete_dup_any.

Lemma q_delete_dup_any fuel m head l :
  ring m head l → l ≠ [] → elements m l → (length l ≤ fuel)%nat →
  ∃ m' out,
    q_delete_dup fuel m head = Some (m', true) ∧
    ring m' head out ∧ out `sublist_of` l ∧
    (∀ x, x ∈ out ↔
       ∃ l1 l2,
         l = l1 ++ x :: l2 ∧
         (∀ n l2', l2 = n :: l2' →
                   strcmp (payload_of m x) (payload_of m n) ≠ 0) ∧
         (∀ p l1', l1 = l1' ++ [p] →
                   strcmp (payload_of m p) (payload_of m x) ≠ 0)) ∧
    (∀ a, a ∈ out → load_value m' a = load_value m a) ∧
    (∀ q, q ∈ l → q ∉ out → load m' q = None).
Proof.
  intros Hr Hne He Hfuel. pose proof (elements_payloads _ _ He) as Hval.
  unfold q_delete_dup. pose proof Hr as (Hhead & _).
  rewrite decide_False by done.
  rewrite (ring_list_empty _ _ _ Hr). sbind.
  rewrite bool_decide_eq_false_2 by done.
  destruct l as [|c rest]; [done|].
  pose proof (ring_first _ _ _ _ Hr) as (-> & _). sbind.
  pose proof (ring_next_of m head [] c rest Hr) as ->. sbind.
  destruct (delete_dup_loop_spec (payload_of m) head (c :: rest) [] fuel m
              false c (hd head rest) Hr Hval eq_refl)
    as (m' & Hrun & Hr' & Hval' & Hfreed & _); [done..|].
  rewrite Hrun. sbind.
  exists m', (delete_dup_pure (payload_of m) false (c :: rest)).
  split; [done|]. split; [done|]. split; [apply delete_dup_pure_sublist|].
  split; [|split; [|done]].
  - intros x. rewrite delete_dup_pure_neighbours.
    split; intros (l1 & l2 & Hl & Hnext & Hprev); exists l1, l2;
      (split; [done|]); split.
    + intros n l2' ->. by apply Hnext.
    + intros p l1' ->. by rewrite last_snoc in Hprev.
    + intros n Hn. destruct l2 as [|n' l2']; simplify_eq/=. by eapply Hnext.
    + destruct (last l1) as [p|] eqn:El; [|done].
      apply last_Some in El as (l1' & ->). by eapply Hprev.
  - intros a Ha. simpl in Hval'. rewrite (Hval' a Ha), Hval; [done|].
    eapply elem_of_sublist; [done|]. apply delete_dup_pure_sublist.
Qed.

(** X20: on any non-empty queue of elements, sorted or not, [q_delete_dup]
    returns true and removes exactly the elements that have the payload of
    the element next to them, in front or behind: an element stays if and
    only if its payload differs from that of its successor, if it has one,
    and from that of its predecessor, if it has one.  The elements that stay
    keep their order and payloads, the others are freed. *)
Theorem q_delete_dup_neighbours fuel m head l :
  ring m head l → l ≠ [] → elements m l → (length l ≤ fuel)%nat →
  ∃ m' out,
    q_delete_dup fuel m head = Some (m', true) ∧
    ring m' head out ∧ out `sublist_of` l ∧
    (∀ x, x ∈ out ↔
       ∃ l1 l2,
         l = l1 ++ x :: l2 ∧
         (∀ n l2', l2 = n :: l2' →
                   strcmp (payload_of m x) (payload_of m n) ≠ 0) ∧
         (∀ p l1', l1 = l1' ++ [p] →
                   strcmp (payload_of m p) (payload_of m x) ≠ 0)) ∧
    (∀ a, a ∈ out → load_value m' a = load_value m a) ∧
    (∀ q, q ∈ l → q ∉ out → load m' q = None).
Proof. apply q_delete_dup_any. Qed.

Lemma q_delete_dup_neighbours_witness :
  ∃ m' out,
    q_delete_dup 4 queue_abba q_head = Some (m', true) ∧
    ring m' q_head out ∧ out `sublist_of` [1; 2; 3; 4]%nat ∧
    (∀ x, x ∈ out ↔
       ∃ l1 l2,
         [1; 2; 3; 4]%nat = l1 ++ x :: l2 ∧
         (∀ n l2', l2 = n :: l2' →
                   strcmp (payload_of queue_abba x) (payload_of queue_abba n)
                     ≠ 0) ∧
         (∀ p l1', l1 = l1' ++ [p] →
                   strcmp (payload_of queue_abba p) (payload_of queue_abba x)
                     ≠ 0)) ∧
    (∀ a, a ∈ out → load_value m' a = load_value queue_abba a) ∧
    (∀ q, q ∈ [1; 2; 3; 4]%nat → q ∉ out → load m' q = None).
Proof.
  apply (q_delete_dup_neighbours 4 queue_abba q_head [1; 2; 3; 4]%nat);
    [by_evaluation|done|by_evaluation|simpl; lia].
Defined.

(** ** The two merges *)

(** X21: [mergeTwo] links two null-terminated chains of elements, each in
    non-decreasing order of payload, into one chain in non-decreasing order
    that holds the nodes of both, and returns its first node; it changes no
    payload.  When one of the chains is empty the result is the other one,
    and NULL when both are. *)
Theorem mergeTwo_merges_sorted fuel m left_chain right_chain la lb :
  chain m left_chain la → chain m right_chain lb → NoDup (la ++ lb) →
  elements m (la ++ lb) →
  Sorted (le_val (payload_of m)) la → Sorted (le_val (payload_of m)) lb →
  (length la + length lb ≤ fuel)%nat →
  ∃ m' out,
    mergeTwo fuel m left_chain right_chain = Some (m', hd NULL out) ∧
    chain m' (hd NULL out) out ∧ out ≡ₚ la ++ lb ∧
    Sorted (le_val (payload_of m)) out ∧
    (∀ q, load_value m' q = load_value m q) ∧
    (la = [] → out = lb) ∧ (lb = [] → out = la).
Proof.
  intros Hla Hlb Hnd He Hsa Hsb Hfuel. apply elements_payloads in He.
  destruct (mergeTwo_spec (payload_of m) fuel m left_chain right_chain la lb)
    as (m' & Hrun & Hc & Hf); try done.
  exists m', (merge_lists (lt_val (payload_of m)) la lb).
  split; [done|]. split; [done|]. split; [apply merge_lists_perm|].
  split; [|split; [apply Hf|split]].
  - apply merge_lists_Sorted; try done.
    + intros a b. unfold lt_val, le_val. rewrite Z.ltb_lt. lia.
    + intros a b. unfold lt_val, le_val. rewrite Z.ltb_ge.
      pose proof (strcmp_flip_neg (payload_of m b) (payload_of m a)).
      pose proof (strcmp_flip_neg (payload_of m a) (payload_of m b)).
      pose proof (strcmp_flip_zero (payload_of m a) (payload_of m b)). lia.
  - by intros ->.
  - intros ->. apply merge_lists_nil_r.
Qed.

Lemma mergeTwo_merges_sorted_witness :
  ∃ m' out,
    mergeTwo 4 chains_ac_bd 1%nat 3%nat = Some (m', hd NULL out) ∧
    chain m' (hd NULL out) out ∧ out ≡ₚ [1; 2]%nat ++ [3; 4]%nat ∧
    Sorted (le_val (payload_of chains_ac_bd)) out ∧
    (∀ q, load_value m' q = load_value chains_ac_bd q) ∧
    ([1; 2]%nat = [] → out = [3; 4]%nat) ∧
    ([3; 4]%nat = [] → out = [1; 2]%nat).
Proof.
  apply (mergeTwo_merges_sorted 4 chains_ac_bd 1%nat 3%nat [1; 2]%nat
           [3; 4]%nat);
    [by_evaluation|by_evaluation|by_evaluation|by_evaluation| | |simpl; lia];
    repeat constructor; by vm_compute.
Defined.

Section merge_claims.

Context {P : Type} (priv : P) (cmp : P → ptr → ptr → Z).

Import ListSortLoop.

(** X22: with a consistent callback, [merge] of list_sort.c links two
    non-empty sorted null-terminated chains into one sorted chain that
    holds the nodes of both and returns its first node; nodes that compare
    equal come out with those of [a] in front of those of [b], each group
    in the order it had. *)
Theorem merge_sorted_stable fuel m a b la lb :
  chain m a la → chain m b lb → la ≠ [] → lb ≠ [] → NoDup (la ++ lb) →
  (length la + length lb ≤ fuel)%nat →
  cmp_total priv cmp → cmp_trans priv cmp →
  Sorted (cmp_le priv cmp) la → Sorted (cmp_le priv cmp) lb →
  ∃ m' out,
    ListSort.merge priv cmp fuel m a b = Some (m', hd NULL out) ∧
    chain m' (hd NULL out) out ∧ out ≡ₚ la ++ lb ∧
    Sorted (cmp_le priv cmp) out ∧
    (∀ C, tie_class priv cmp C →
          List.filter C out = List.filter C la ++ List.filter C lb) ∧
    (∀ q, load_value m' q = load_value m q).
Proof.
  intros Hla Hlb Hane Hbne Hnd Hfuel Htot Htr Hsa Hsb.
  destruct (ListSortProofs.merge_spec priv cmp fuel m a b la lb)
    as (m' & Hrun & Hc & Hf); try done.
  exists m', (merge_lists (ListSortProofs.le_cmp priv cmp) la lb).
  split; [done|]. split; [done|]. split; [apply merge_lists_perm|].
  split; [|split; [|apply Hf]].
  - apply merge_lists_Sorted; try done.
    + intros x y. unfold ListSortProofs.le_cmp, cmp_le. lia.
    + intros x y. unfold ListSortProofs.le_cmp, cmp_le.
      rewrite Z.leb_gt. apply Htot.
  - intros C HC.
    apply (merge_lists_filter _ (cmp_le priv cmp)); try done.
    intros x y. unfold ListSortProofs.le_cmp, cmp_le. lia.
Qed.

End merge_claims.

Lemma merge_sorted_stable_witness :
  ∃ m' out,
    ListSort.merge tt (payload_cmp chains_ac_bd) 4 chains_ac_bd 1%nat 3%nat
      = Some (m', hd NULL out) ∧
    chain m' (hd NULL out) out ∧ out ≡ₚ [1; 2]%nat ++ [3; 4]%nat ∧
    Sorted (ListSortLoop.cmp_le tt (payload_cmp chains_ac_bd)) out ∧
    (∀ C, ListSortLoop.tie_class tt (payload_cmp chains_ac_bd) C →
          List.filter C out
          = List.filter C [1; 2]%nat ++ List.filter C [3; 4]%nat) ∧
    (∀ q, load_value m' q = load_value chains_ac_bd q).
Proof.
  apply (merge_sorted_stable tt (payload_cmp chains_ac_bd) 4 chains_ac_bd
           1%nat 3%nat [1; 2]%nat [3; 4]%nat);
    [by_evaluation|by_evaluation|done|done|by_evaluation|simpl; lia
    |apply payload_cmp_total|apply payload_cmp_trans| |];
    repeat constructor; by vm_compute.
Defined.

(** ** The sort of a chain, and the last merge *)

(** X26: [q_mergeSort] turns a non-empty null-terminated chain of elements
    into a chain of the same nodes in non-decreasing order of payload and
    returns its first node; it changes no payload and no [prev] link. *)
Theorem q_mergeSort_sorts_chain fuel m first l :
  chain m first l → l ≠ [] → NoDup l → elements m l → (length l < fuel)%nat →
  ∃ m' out,
    q_mergeSort fuel m first = Some (m', hd NULL out) ∧
    chain m' (hd NULL out) out ∧ out ≡ₚ l ∧
    Sorted (le_val (payload_of m)) out ∧
    (∀ q, load_value m' q = load_value m q) ∧
    (∀ q, load_prev m' q = load_prev m q).
Proof.
  intros Hc Hne Hnd He Hfuel. apply elements_payloads in He.
  destruct (q_mergeSort_spec (payload_of m) fuel m first l)
    as (m' & out & Hrun & Hc' & Hperm & Hs & Hf); try done.
  exists m', out. repeat (split; [done|]). split; apply Hf.
Qed.

Lemma q_mergeSort_sorts_chain_witness :
  ∃ m' out,
    q_mergeSort 3 chains_ac_bd 1%nat = Some (m', hd NULL out) ∧
    chain m' (hd NULL out) out ∧ out ≡ₚ [1; 2]%nat ∧
    Sorted (le_val (payload_of chains_ac_bd)) out ∧
    (∀ q, load_value m' q = load_value chains_ac_bd q) ∧
    (∀ q, load_prev m' q = load_prev chains_ac_bd q).
Proof.
  apply (q_mergeSort_sorts_chain 3 chains_ac_bd 1%nat [1; 2]%nat);
    [by_evaluation|done|by_evaluation|by_evaluation|simpl; lia].
Defined.

Section merge_final_claims.

Context {P : Type} (priv : P) (cmp : P → ptr → ptr → Z).

Import ListSortLoop.

(** X27: with a consistent callback, [merge_final] links two non-empty
    sorted null-terminated chains into a well-formed ring behind the
    sentinel [head], sorted, with the nodes of both; nodes that compare
    equal come out with those of [a] in front of those of [b].  No payload
    changes. *)
Theorem merge_final_sorted_ring fuel m head a b la lb :
  chain m a la → chain m b lb → la ≠ [] → lb ≠ [] →
  NoDup (head :: la ++ lb) → allocated m head →
  (length la + length lb ≤ fuel)%nat →
  cmp_total priv cmp → cmp_trans priv cmp →
  Sorted (cmp_le priv cmp) la → Sorted (cmp_le priv cmp) lb →
  ∃ m' out,
    ListSort.merge_final priv cmp fuel m head a b = Some m' ∧
    ring m' head out ∧ out ≡ₚ la ++ lb ∧
    Sorted (cmp_le priv cmp) out ∧
    (∀ C, tie_class priv cmp C →
          List.filter C out = List.filter C la ++ List.filter C lb) ∧
    (∀ q, load_value m' q = load_value m q).
Proof.
  intros Hla Hlb Hane Hbne Hnd Hal Hfuel Htot Htr Hsa Hsb.
  destruct (ListSortProofs.merge_final_spec priv cmp fuel m head a b la lb)
    as (m' & Hrun & Hr & Hf); try done.
  exists m', (merge_lists (ListSortProofs.le_cmp priv cmp) la lb).
  split; [done|]. split; [done|]. split; [apply merge_lists_perm|].
  split; [|split; [|apply Hf]].
  - apply merge_lists_Sorted; try done.
    + intros x y. unfold ListSortProofs.le_cmp, cmp_le. lia.
    + intros x y. unfold ListSortProofs.le_cmp, cmp_le.
      rewrite Z.leb_gt. apply Htot.
  - intros C HC.
    apply (merge_lists_filter _ (cmp_le priv cmp)); try done.
    intros x y. unfold ListSortProofs.le_cmp, cmp_le. lia.
Qed.

End merge_final_claims.

Lemma merge_final_sorted_ring_witness :
  ∃ m' out,
    ListSort.merge_final tt (payload_cmp chains_with_head) 4 chains_with_head
      q_head 1%nat 3%nat = Some m' ∧
    ring m' q_head out ∧ out ≡ₚ [1; 2]%nat ++ [3; 4]%nat ∧
    Sorted (ListSortLoop.cmp_le tt (payload_cmp chains_with_head)) out ∧
    (∀ C, ListSortLoop.tie_class tt (payload_cmp chains_with_head) C →
          List.filter C out
          = List.filter C [1; 2]%nat ++ List.filter C [3; 4]%nat) ∧
    (∀ q, load_value m' q = load_value chains_with_head q).
Proof.
  apply (merge_final_sorted_ring tt (payload_cmp chains_with_head) 4
           chains_with_head q_head 1%nat 3%nat [1; 2]%nat [3; 4]%nat);
    [by_evaluation|by_evaluation|done|done|by_evaluation|by_evaluation
    |simpl; lia|apply payload_cmp_total|apply payload_cmp_trans| |];
    repeat constructor; by vm_compute.
Defined.

(** ** Running q_ascend or q_descend again *)

Lemma sublist_all (out l : list ptr) :
  out `sublist_of` l → NoDup l → (∀ x, x ∈ l → x ∈ out) → out = l.
Proof.
  induction 1 as [|x out l Hsub IH|x out l Hsub IH]; intros Hnd Hall.
  - done.
  - apply NoDup_cons in Hnd as [Hx Hnd]. f_equal. apply IH; [done|].
    intros y Hy. specialize (Hall y ltac:(by right)).
    apply elem_of_cons in Hall as [->|?]; done.
  - apply NoDup_cons in Hnd as [Hx Hnd]. exfalso. apply Hx.
    eapply elem_of_sublist; [|done]. apply Hall. by left.
Qed.

Section monotone_again.

Context (val : ptr → string) (test : Z → bool).

Hypothesis beats_trans :
  ∀ a b c, beats val test a b → beats val test b c → beats val test a c.
Hypothesis beats_neg_trans :
  ∀ a b c, ¬ beats val test a b → ¬ beats val test b c → ¬ beats val test a c.

Lemma monotone_again fuel m head l loop :
  (∀ fuel m nd, loop fuel m head nd = monotone_loop test fuel m head nd) →
  ring m head l → payloads m val l → (length l ≤ fuel)%nat →
  ∃ m1 m2 out,
    (if decide (head = NULL) then Some (m, 0)
     else e ← list_empty m head;
          if e : bool then Some (m, 0)
          else nd ← load_prev m head;
               m1 ← loop fuel m head nd;
               Some (m1, 0)) = Some (m1, 0) ∧
    (if decide (head = NULL) then Some (m1, 0)
     else e ← list_empty m1 head;
          if e : bool then Some (m1, 0)
          else nd ← load_prev m1 head;
               m2 ← loop fuel m1 head nd;
               Some (m2, 0)) = Some (m2, 0) ∧
    ring m1 head out ∧ ring m2 head out ∧
    (∀ a, a ∈ out → load_value m2 a = load_value m1 a).
Proof.
  intros Hloop Hr Hval Hfuel.
  destruct (monotone_exact val test beats_trans beats_neg_trans fuel m head l
              loop Hloop Hr Hval Hfuel)
    as (m1 & out & Hrun1 & Hr1 & Hsub1 & Hchar1 & Hval1 & _).
  destruct (monotone_exact val test beats_trans beats_neg_trans fuel m1 head
              out loop Hloop Hr1 Hval1)
    as (m2 & out2 & Hrun2 & Hr2 & Hsub2 & Hchar2 & Hval2 & _).
  { apply sublist_length in Hsub1. lia. }
  assert (out2 = out) as ->.
  { apply sublist_all; [done| |].
    - destruct Hr1 as (_ & _ & Hnd & _). by apply NoDup_cons in Hnd as [_ ?].
    - intros x Hx. apply Hchar2. split; [done|]. intros y Hy.
      apply (Hchar1 x); [done|]. by eapply before_sublist. }
  exists m1, m2, out. repeat (split; [done|]).
  intros a Ha. by rewrite (Hval2 a Ha), (Hval1 a Ha).
Qed.

End monotone_again.

(** X23: a second [q_ascend] removes nothing of what the first one has
    left, and likewise for [q_descend]: the queue and the payloads are the
    same after the second call as after the first. *)
Theorem q_ascend_q_descend_idempotent fuel m head l :
  ring m head l → elements m l → (length l ≤ fuel)%nat →
  (∃ m1 m2 out,
     q_ascend fuel m head = Some (m1, 0) ∧
     q_ascend fuel m1 head = Some (m2, 0) ∧
     ring m1 head out ∧ ring m2 head out ∧
     (∀ a, a ∈ out → load_value m2 a = load_value m1 a)) ∧
  (∃ m1 m2 out,
     q_descend fuel m head = Some (m1, 0) ∧
     q_descend fuel m1 head = Some (m2, 0) ∧
     ring m1 head out ∧ ring m2 head out ∧
     (∀ a, a ∈ out → load_value m2 a = load_value m1 a)).
Proof.
  intros Hr He Hfuel. pose proof (elements_payloads _ _ He) as Hval. split.
  - apply (monotone_again (payload_of m) (λ c, c <? 0)) with (l := l);
      try done.
    + unfold beats. intros a b c. rewrite !Z.ltb_lt. apply strcmp_lt_trans.
    + unfold beats. intros a b c. rewrite !Z.ltb_lt. apply strcmp_ge_trans.
    + intros. apply q_ascend_loop_eq.
  - apply (monotone_again (payload_of m) (λ c, 0 <? c)) with (l := l);
      try done.
    + unfold beats. intros a b c. rewrite !Z.ltb_lt, <- !strcmp_flip_neg.
      intros ? ?. by eapply strcmp_lt_trans.
    + unfold beats. intros a b c. rewrite !Z.ltb_lt, <- !strcmp_flip_neg.
      intros ? ?. by eapply strcmp_ge_trans.
    + intros. apply q_descend_loop_eq.
Qed.

Lemma q_ascend_q_descend_idempotent_witness :
  (∃ m1 m2 out,
     q_ascend 4 queue_2313 q_head = Some (m1, 0) ∧
     q_ascend 4 m1 q_head = Some (m2, 0) ∧
     ring m1 q_head out ∧ ring m2 q_head out ∧
     (∀ a, a ∈ out → load_value m2 a = load_value m1 a)) ∧
  (∃ m1 m2 out,
     q_descend 4 queue_2313 q_head = Some (m1, 0) ∧
     q_descend 4 m1 q_head = Some (m2, 0) ∧
     ring m1 q_head out ∧ ring m2 q_head out ∧
     (∀ a, a ∈ out → load_value m2 a = load_value m1 a)).
Proof.
  apply (q_ascend_q_descend_idempotent 4 queue_2313 q_head [1; 2; 3; 4]%nat);
    [by_evaluation|by_evaluation|simpl; lia].
Defined.

(** ** The first copy of q_delete_mid and q_delete_dup *)

(** Every node of a ring has a successor in the ring. *)
Lemma ring_next_in_ring m head l x :
  ring m head l → x ∈ head :: l →
  ∃ y, load_next m x = Some y ∧ y ∈ head :: l.
Proof.
  intros Hr Hx. apply elem_of_cons in Hx as [->|Hx].
  - exists (hd head l). split; [by apply ring_head_links in Hr as [? _]|].
    apply hd_elem_of_cons.
  - apply list_elem_of_split in Hx as (l1 & l2 & ->).
    exists (hd head l2). split; [by apply (ring_next_of _ _ _ _ _ Hr)|].
    pose proof (hd_elem_of_cons head l2). set_solver.
Qed.

Lemma first_copy_loop_runs_on m head l :
  ring m head l →
  ∀ fuel slow fast,
    slow ∈ head :: l → fast ∈ head :: l →
    FirstCopy.delete_mid_loop fuel m slow fast = None.
Proof.
  intros Hr.
  assert (∀ x, x ∈ head :: l → x ≠ NULL) as Hnn.
  { intros x Hx. eapply allocated_not_null, ring_allocated; done. }
  induction fuel as [|fuel IH]; intros slow fast Hs Hf;
    cbn [FirstCopy.delete_mid_loop];
    rewrite decide_False by auto;
    destruct (ring_next_in_ring _ _ _ _ Hr Hf) as (fn & -> & Hfn); sbind;
    rewrite decide_False by auto; [done|].
  destruct (ring_next_in_ring _ _ _ _ Hr Hs) as (sn & -> & Hsn). sbind.
  destruct (ring_next_in_ring _ _ _ _ Hr Hfn) as (fnn & -> & Hfnn). sbind.
  by apply IH.
Qed.

(** X24: in the first copy of queue.c, [q_delete_mid] returns false on an
    empty queue, and on a queue that is not empty it never returns: whatever
    the number of rounds allowed, its loop is still running, for a ring has
    no null pointer to stop it. *)
Theorem first_copy_q_delete_mid_never_returns fuel m head l :
  ring m head l →
  (l = [] → FirstCopy.q_delete_mid fuel m head = Some (m, false)) ∧
  (l ≠ [] → FirstCopy.q_delete_mid fuel m head = None).
Proof.
  intros Hr. pose proof Hr as (Hhead & _).
  unfold FirstCopy.q_delete_mid. rewrite decide_False by done.
  rewrite (ring_list_empty _ _ _ Hr). sbind. split.
  - intros ->. by rewrite bool_decide_eq_true_2.
  - intros Hne. rewrite bool_decide_eq_false_2 by done.
    rewrite (first_copy_loop_runs_on m head l Hr); [done|set_solver..].
Qed.

Lemma first_copy_q_delete_mid_never_returns_witness :
  ([1; 2; 3]%nat = [] →
   FirstCopy.q_delete_mid 100 queue_abc q_head = Some (queue_abc, false)) ∧
  ([1; 2; 3]%nat ≠ [] → FirstCopy.q_delete_mid 100 queue_abc q_head = None).
Proof.
  apply (first_copy_q_delete_mid_never_returns 100 queue_abc q_head
           [1; 2; 3]%nat). by_evaluation.
Defined.

Lemma first_copy_delete_dup_loop_undefined head rest :
  ∀ kept fuel m is_dup curr safe,
    ring m head (kept ++ rest) → elements m (kept ++ rest) →
    load_value m head = None → rest ≠ [] →
    curr = hd head rest → safe = hd head (tl rest) →
    FirstCopy.delete_dup_loop fuel m head curr safe is_dup = None.
Proof.
  induction rest as [|c rest IH];
    intros kept fuel m is_dup curr safe Hr He Hhead Hne -> ->; [done|].
  pose proof (ring_mid_distinct _ _ _ _ _ Hr) as (Hch & Hcn & Hc1 & Hc2 & _).
  destruct fuel as [|fuel]; cbn [FirstCopy.delete_dup_loop hd tl];
    rewrite decide_False by done; [done|].
  assert (is_Some (load_value m c)) as [vc Hvc].
  { unfold elements in He. rewrite Forall_forall in He. apply He. set_solver. }
  rewrite Hvc. sbind.
  destruct rest as [|c' rest].
  { simpl. by rewrite Hhead. }
  cbn [hd].
  assert (is_Some (load_value m c')) as [vn Hvn].
  { unfold elements in He. rewrite Forall_forall in He. apply He. set_solver. }
  rewrite Hvn. sbind.
  assert (c' ≠ c) as Hcc by set_solver.
  assert (∀ d,
            (m' ← list_del m c; m'' ← q_release_element m' c; Some (m'', d))
              ≫= (λ '(m1, dup1),
                    sn ← load_next m1 c';
                    FirstCopy.delete_dup_loop fuel m1 head c' sn dup1)
            = None) as Hdel.
  { intros d.
    destruct (delete_node_ring _ _ _ _ _ Hr) as
      (m1 & m2 & -> & Hrel & Hr2 & _ & Hval & _); [by eexists|].
    sbind. rewrite Hrel. sbind.
    rewrite (ring_next_of _ _ _ _ _ Hr2). sbind.
    apply (IH kept); try done.
    - unfold elements in *. rewrite Forall_forall in He |- *.
      intros a Ha. rewrite Hval by set_solver. apply He. set_solver.
    - by rewrite Hval. }
  destruct (strcmp vc vn =? 0); [apply Hdel|].
  destruct is_dup; [apply Hdel|]. sbind.
  rewrite (ring_next_of m head (kept ++ [c]) c' rest);
    [|by rewrite <- app_assoc]. sbind.
  apply (IH (kept ++ [c])); try done; by rewrite <- app_assoc.
Qed.

(** X25: in the first copy of queue.c, [q_delete_dup] has no defined result
    on a queue that is not empty: at the last element it reads the payload
    of the entry behind it, which is the sentinel, a bare list head with no
    payload.  (The second copy tests for the sentinel first.) *)
Theorem first_copy_q_delete_dup_undefined fuel m head l :
  ring m head l → elements m l → load_value m head = None → l ≠ [] →
  FirstCopy.q_delete_dup fuel m head = None ∧
  ∃ r, q_delete_dup (length l) m head = Some r.
Proof.
  intros Hr He Hhead Hne. split.
  - pose proof Hr as (Hh & _).
    unfold FirstCopy.q_delete_dup. rewrite decide_False by done.
    rewrite (ring_list_empty _ _ _ Hr). sbind.
    rewrite bool_decide_eq_false_2 by done.
    destruct l as [|c rest]; [done|].
    pose proof (ring_first _ _ _ _ Hr) as (-> & _). sbind.
    pose proof (ring_next_of m head [] c rest Hr) as ->. sbind.
    by rewrite (first_copy_delete_dup_loop_undefined head (c :: rest) []).
  - destruct (q_delete_dup_any (length l) m head l)
      as (m' & out & -> & _); eauto.
Qed.

Lemma first_copy_q_delete_dup_undefined_witness :
  FirstCopy.q_delete_dup 100 queue_abc q_head = None ∧
  ∃ r, q_delete_dup (length [1; 2; 3]%nat) queue_abc q_head = Some r.
Proof.
  apply (first_copy_q_delete_dup_undefined 100 queue_abc q_head
           [1; 2; 3]%nat);
    [by_evaluation|by_evaluation|vm_compute; reflexivity|done].
Defined.
